(** * Theater mode: message store, typing store and event handler

    A shallow embedding of the client-side real-time code of the theater
    front end:

    - [web/src/theater/stores/messages.ts]  (message store, [toTheaterMessage])
    - [web/src/theater/stores/users.ts]     (user names, whisper label)
    - [web/src/theater/stores/typing.ts]    (typing store and its expiry timers)
    - [web/src/theater/stores/presence.ts]  (presence store)
    - [web/src/theater/events/handler.ts]   (long-poll loop and dispatch)

    JavaScript numbers that hold ids, timestamps and clock values are
    integers ([Z]); strings are [string]; a [Map] is a [gmap]; an array is a
    [list].  A field that the source reads through an unchecked cast to a
    non-optional type is mandatory in the records below, unless what the
    code does without it is modelled; a field the source tests for
    [undefined], and the [id] of an event, is an [option] ([None] is
    [undefined]).  The one number that can be [NaN], [lastEventId], is a
    [JsNumber]. *)

From Stdlib Require Import ZArith Lia Sorted Permutation Ascii String.
From stdpp Require Import base option list sorting gmap strings pretty.

Local Open Scope Z_scope.

(** ** JavaScript values that can be [undefined] or [null] *)

Inductive Nullish (A : Type) : Type :=
  | JsUndefined
  | JsNull
  | JsVal (a : A).
Arguments JsUndefined {A}.
Arguments JsNull {A}.
Arguments JsVal {A} a.

(** [x !== null && x !== undefined] *)
Definition is_present {A} (x : Nullish A) : bool :=
  match x with JsVal _ => true | _ => false end.

(** [x ?? null] *)
Definition or_null {A} (x : Nullish A) : Nullish A :=
  match x with JsUndefined => JsNull | _ => x end.

(** [a ?? b] on fields where [None] stands for the nullish case *)
Definition nullish_or {A} (a b : option A) : option A :=
  match a with Some _ => a | None => b end.

(** ** A number that can be [NaN] *)

Inductive JsNumber : Type :=
  | Num (n : Z)
  | NaN.

#[global] Instance JsNumber_eq_dec : EqDecision JsNumber.
Proof. solve_decision. Defined.

(** [Math.max(a, b)], where [b] is [undefined] when [None]: [undefined]
    converts to [NaN], and [Math.max] is [NaN] as soon as an argument is. *)
Definition Math_max (a : JsNumber) (b : option Z) : JsNumber :=
  match a, b with
  | Num x, Some y => Num (Z.max x y)
  | _, _ => NaN
  end.

(** ** Data of the message store *)

Module Whisper.
(** [interface WhisperRecipients] *)
Record t := mk {
  user_ids : option (list Z);
  group_ids : option (list Z);
}.
End Whisper.

Module Msg.
(** [interface TheaterMessage].  [stream_id] and [streamId] are copies of
    the raw [stream_id], which is absent on direct messages. *)
Record t := mk {
  id : Z;
  type : string;
  sender_id : Z;
  sender_full_name : string;
  sender_email : string;
  avatar_url : option string;
  content : string;
  rendered_content : string;
  timestamp : Z;
  stream_id : option Z;
  topic : option string;
  persona_id : option Z;
  persona_display_name : option string;
  persona_avatar_url : option string;
  persona_color : option string;
  puppet_display_name : option string;
  puppet_avatar_url : option string;
  whisper_recipients : Nullish Whisper.t;
  characterName : string;
  characterAvatar : option string;
  characterColor : option string;
  isWhisper : bool;
  whisperRecipientsText : option string;
  isRead : bool;
  streamId : option Z;
}.
End Msg.

Module Upd.
(** [Partial<TheaterMessage>]: [None] is an absent key. *)
Record t := mk {
  id : option Z;
  type : option string;
  sender_id : option Z;
  sender_full_name : option string;
  sender_email : option string;
  avatar_url : option (option string);
  content : option string;
  rendered_content : option string;
  timestamp : option Z;
  stream_id : option Z;
  topic : option string;
  persona_id : option Z;
  persona_display_name : option string;
  persona_avatar_url : option string;
  persona_color : option string;
  puppet_display_name : option string;
  puppet_avatar_url : option string;
  whisper_recipients : option (Nullish Whisper.t);
  characterName : option string;
  characterAvatar : option (option string);
  characterColor : option (option string);
  isWhisper : option bool;
  whisperRecipientsText : option string;
  isRead : option bool;
  streamId : option Z;
}.

(** [{}] *)
Definition empty : t :=
  mk None None None None None None None None None None None None None
     None None None None None None None None None None None None.

(** [Object.keys(updates).length > 0] for the three keys the event
    handler can set. *)
Definition has_keys (u : t) : bool :=
  bool_decide (is_Some (rendered_content u)) ||
  bool_decide (is_Some (content u)) ||
  bool_decide (is_Some (topic u)).
End Upd.

(** [{...m, ...updates}] *)
Definition spread (m : Msg.t) (u : Upd.t) : Msg.t :=
  {| Msg.id := default (Msg.id m) (Upd.id u);
     Msg.type := default (Msg.type m) (Upd.type u);
     Msg.sender_id := default (Msg.sender_id m) (Upd.sender_id u);
     Msg.sender_full_name := default (Msg.sender_full_name m) (Upd.sender_full_name u);
     Msg.sender_email := default (Msg.sender_email m) (Upd.sender_email u);
     Msg.avatar_url := default (Msg.avatar_url m) (Upd.avatar_url u);
     Msg.content := default (Msg.content m) (Upd.content u);
     Msg.rendered_content := default (Msg.rendered_content m) (Upd.rendered_content u);
     Msg.timestamp := default (Msg.timestamp m) (Upd.timestamp u);
     Msg.stream_id := nullish_or (Upd.stream_id u) (Msg.stream_id m);
     Msg.topic := nullish_or (Upd.topic u) (Msg.topic m);
     Msg.persona_id := nullish_or (Upd.persona_id u) (Msg.persona_id m);
     Msg.persona_display_name :=
       nullish_or (Upd.persona_display_name u) (Msg.persona_display_name m);
     Msg.persona_avatar_url :=
       nullish_or (Upd.persona_avatar_url u) (Msg.persona_avatar_url m);
     Msg.persona_color := nullish_or (Upd.persona_color u) (Msg.persona_color m);
     Msg.puppet_display_name :=
       nullish_or (Upd.puppet_display_name u) (Msg.puppet_display_name m);
     Msg.puppet_avatar_url :=
       nullish_or (Upd.puppet_avatar_url u) (Msg.puppet_avatar_url m);
     Msg.whisper_recipients :=
       default (Msg.whisper_recipients m) (Upd.whisper_recipients u);
     Msg.characterName := default (Msg.characterName m) (Upd.characterName u);
     Msg.characterAvatar := default (Msg.characterAvatar m) (Upd.characterAvatar u);
     Msg.characterColor := default (Msg.characterColor m) (Upd.characterColor u);
     Msg.isWhisper := default (Msg.isWhisper m) (Upd.isWhisper u);
     Msg.whisperRecipientsText :=
       nullish_or (Upd.whisperRecipientsText u) (Msg.whisperRecipientsText m);
     Msg.isRead := default (Msg.isRead m) (Upd.isRead u);
     Msg.streamId := nullish_or (Upd.streamId u) (Msg.streamId m) |}.

(** [{...m, isRead: true}] *)
Definition with_isRead (m : Msg.t) : Msg.t :=
  spread m {| Upd.id := None; Upd.type := None; Upd.sender_id := None;
              Upd.sender_full_name := None; Upd.sender_email := None;
              Upd.avatar_url := None; Upd.content := None;
              Upd.rendered_content := None; Upd.timestamp := None;
              Upd.stream_id := None; Upd.topic := None; Upd.persona_id := None;
              Upd.persona_display_name := None; Upd.persona_avatar_url := None;
              Upd.persona_color := None; Upd.puppet_display_name := None;
              Upd.puppet_avatar_url := None; Upd.whisper_recipients := None;
              Upd.characterName := None; Upd.characterAvatar := None;
              Upd.characterColor := None; Upd.isWhisper := None;
              Upd.whisperRecipientsText := None; Upd.isRead := Some true;
              Upd.streamId := None |}.

(** ** The message store ([createMessageStore]) *)

(** [arr.sort((a, b) => a.id - b.id)].  [Array.prototype.sort] is stable,
    and a stable sort has one result, which insertion from the right
    computes: an element goes in front of the elements of equal id that
    followed it in the array. *)
Fixpoint insert_by_id (m : Msg.t) (l : list Msg.t) : list Msg.t :=
  match l with
  | [] => [m]
  | x :: l' =>
      if decide (Msg.id m ≤ Msg.id x) then m :: l else x :: insert_by_id m l'
  end.

Definition sort_by_id (l : list Msg.t) : list Msg.t := foldr insert_by_id [] l.

(** [combined.filter((m) => { if (seen.has(m.id)) return false;
    seen.add(m.id); return true; })] *)
Fixpoint dedup_seen (seen : gset Z) (l : list Msg.t) : list Msg.t :=
  match l with
  | [] => []
  | m :: l' =>
      if decide (Msg.id m ∈ seen) then dedup_seen seen l'
      else m :: dedup_seen ({[Msg.id m]} ∪ seen) l'
  end.

Definition setMessages (msgs : list Msg.t) (messages : list Msg.t) : list Msg.t :=
  msgs.

Definition addMessage (msg : Msg.t) (messages : list Msg.t) : list Msg.t :=
  sort_by_id (messages ++ [msg]).

Definition addMessages (msgs : list Msg.t) (messages : list Msg.t) : list Msg.t :=
  dedup_seen ∅ (sort_by_id (messages ++ msgs)).

Definition prependMessages (msgs : list Msg.t) (messages : list Msg.t) : list Msg.t :=
  dedup_seen ∅ (sort_by_id (msgs ++ messages)).

(** [messages.map((m) => (m.id === id ? {...m, ...updates} : m))].  The
    event handler passes [event["message_id"]] through a cast, so [id] can
    be [undefined] ([None]), which is strictly equal to no stored id. *)
Definition updateMessage (id : option Z) (updates : Upd.t) (messages : list Msg.t)
  : list Msg.t :=
  map (λ m, if decide (Some (Msg.id m) = id) then spread m updates else m) messages.

Definition removeMessage (id : Z) (messages : list Msg.t) : list Msg.t :=
  filter (λ m, Msg.id m ≠ id) messages.

Definition markAsRead (id : Z) (messages : list Msg.t) : list Msg.t :=
  map (λ m, if decide (Msg.id m = id) then with_isRead m else m) messages.

Definition clear (messages : list Msg.t) : list Msg.t := [].

(** ** The users store and the whisper label ([stores/users.ts]) *)

Module UserInfo.
Record t := mk {
  user_id : Z;
  full_name : string;
  avatar_url : option string;
}.
End UserInfo.

(** [user?.full_name ?? `User #${userId}`] *)
Definition getUserName (users : gmap Z UserInfo.t) (userId : Z) : string :=
  match users !! userId with
  | Some user => UserInfo.full_name user
  | None => "User #" +:+ pretty userId
  end.

(** [names.join(", ")] *)
Definition join (sep : string) (parts : list string) : string :=
  String.concat sep parts.

Definition formatWhisperRecipientsWithNames
    (users : gmap Z UserInfo.t) (recipients : Nullish Whisper.t) : string :=
  match recipients with
  | JsUndefined | JsNull => "whisper"
  | JsVal recipients =>
      let parts0 : list string := [] in
      let parts1 :=
        match Whisper.user_ids recipients with
        | Some ((_ :: _) as ids) =>
            let names := map (getUserName users) ids in
            if decide (length names ≤ 3)%nat
            then parts0 ++ [join ", " names]
            else parts0 ++ [join ", " (take 2 names) +:+ " +" +:+
                            pretty (length names - 2)%nat +:+ " more"]
        | _ => parts0
        end in
      let parts2 :=
        match Whisper.group_ids recipients with
        | Some ((_ :: _) as gids) =>
            parts1 ++ [pretty (length gids) +:+ " group(s)"]
        | _ => parts1
        end in
      if decide (0 < length parts2)%nat
      then "to " +:+ join ", " parts2
      else "whisper"
  end.

(** ** Raw API messages and [toTheaterMessage] *)

Module Raw.
(** The keys of a raw message object that [toTheaterMessage] reads. *)
Record t := mk {
  id : Z;
  type : string;
  sender_id : Z;
  sender_full_name : string;
  sender_email : string;
  avatar_url : option string;
  content : string;
  rendered_content : option string;
  timestamp : Z;
  stream_id : option Z;
  subject : option string;
  topic : option string;
  persona_id : option Z;
  persona_display_name : option string;
  persona_avatar_url : option string;
  persona_color : option string;
  puppet_display_name : option string;
  puppet_avatar_url : option string;
  whisper_recipients : Nullish Whisper.t;
  flags : option (list string);
}.
End Raw.

Definition toTheaterMessage (users : gmap Z UserInfo.t) (raw : Raw.t) : Msg.t :=
  let personaName := Raw.persona_display_name raw in
  let puppetName := Raw.puppet_display_name raw in
  let senderName := Raw.sender_full_name raw in
  let personaAvatar := Raw.persona_avatar_url raw in
  let puppetAvatar := Raw.puppet_avatar_url raw in
  let senderAvatar := Raw.avatar_url raw in
  let personaColor := Raw.persona_color raw in
  let whisperRecipients := Raw.whisper_recipients raw in
  let isWhisper := is_present whisperRecipients in
  let flags := default [] (Raw.flags raw) in
  let isRead := bool_decide ("read" ∈ flags) in
  let streamId := Raw.stream_id raw in
  let topic := nullish_or (Raw.subject raw) (Raw.topic raw) in
  let personaId := Raw.persona_id raw in
  {| Msg.id := Raw.id raw;
     Msg.type := Raw.type raw;
     Msg.sender_id := Raw.sender_id raw;
     Msg.sender_full_name := senderName;
     Msg.sender_email := Raw.sender_email raw;
     Msg.avatar_url := senderAvatar;
     Msg.content := Raw.content raw;
     Msg.rendered_content := default (Raw.content raw) (Raw.rendered_content raw);
     Msg.timestamp := Raw.timestamp raw;
     Msg.stream_id := streamId;
     Msg.streamId := streamId;
     Msg.topic := topic;
     Msg.persona_id := personaId;
     Msg.persona_display_name := personaName;
     Msg.persona_avatar_url := personaAvatar;
     Msg.persona_color := personaColor;
     Msg.puppet_display_name := puppetName;
     Msg.puppet_avatar_url := puppetAvatar;
     Msg.whisper_recipients := or_null whisperRecipients;
     Msg.characterName := default senderName (nullish_or personaName puppetName);
     Msg.characterAvatar :=
       nullish_or personaAvatar (nullish_or puppetAvatar senderAvatar);
     Msg.characterColor := personaColor;
     Msg.isWhisper := isWhisper;
     Msg.whisperRecipientsText :=
       if isWhisper
       then Some (formatWhisperRecipientsWithNames users whisperRecipients)
       else None;
     Msg.isRead := isRead |}.

(** ** Typing and presence data *)

Module Typist.
Record t := mk {
  user_id : Z;
  full_name : string;
  persona_name : option string;
}.
End Typist.

Module CastMember.
Record t := mk {
  user_id : Z;
  full_name : string;
  avatar_url : option string;
  status : string;
  active_persona : option (Z * string * option string);
}.

(** [{...member, status}] *)
Definition with_status (member : t) (s : string) : t :=
  mk (user_id member) (full_name member) (avatar_url member) s
     (active_persona member).
End CastMember.

(** ** Raw events *)

Module Sender.
Record t := mk {
  user_id : Z;
  full_name : option string;
}.
End Sender.

Module Ev.
(** The keys of an event object that the handler reads.  [id] is read
    through an unchecked cast and handed to [Math.max]: [None] is an event
    without it.  [presence] maps user-id strings to [{status}] objects; an
    entry whose value is not an object is [None]. *)
Record t := mk {
  id : option Z;
  type : string;
  message : option Raw.t;
  message_id : option Z;
  rendered_content : option string;
  content : option string;
  subject : option string;
  topic : option string;
  message_ids : option (list Z);
  message_type : option string;
  stream_id : option Z;
  op : option string;
  sender : option Sender.t;
  presence : option (list (string * option (option string)));
}.
End Ev.

(** ** Errors, timers and the page *)

Module JsError.
Record t := mk {
  name : string;
  message : string;
}.
End JsError.

Definition TypeError (msg : string) : JsError.t := JsError.mk "TypeError" msg.
Definition AbortError : JsError.t :=
  JsError.mk "AbortError" "The operation was aborted.".

(** How a statement ends: normally, or by a thrown error. *)
Inductive Completion : Type :=
  | Normal
  | Throw (e : JsError.t).

(** The two functions this code hands to [setTimeout]. *)
Inductive TimerCallback : Type :=
  | CbRemoveTypist (key : string) (userId : Z)
  | CbPoll.

#[global] Instance TimerCallback_eq_dec : EqDecision TimerCallback.
Proof. solve_decision. Defined.

Inductive Request : Type :=
  | GetEvents (queue_id : string) (last_event_id : JsNumber)
  | DeleteQueue (queue_id : string).

Module Handler.
(** The module variables of [events/handler.ts].  [abortController] names
    the request whose signal the current controller owns. *)
Record t := mk {
  eventQueueId : option string;
  lastEventId : JsNumber;
  isPolling : bool;
  abortController : option positive;
}.
End Handler.

Module Stores.
Record t := mk {
  messages : list Msg.t;
  typing : gmap string (list Typist.t);
  timeouts : gmap string positive;
  presence : gmap Z CastMember.t;
  users : gmap Z UserInfo.t;
}.
End Stores.

Module Page.
(** The browser side: a millisecond clock, the pending timers (handle to
    deadline and callback), the poll requests whose answer is awaited,
    and whether [window.location.reload()] has been called. *)
Record t := mk {
  clock : Z;
  timers : gmap positive (Z * TimerCallback);
  next_timer : positive;
  inflight : gset positive;
  next_request : positive;
  reloaded : bool;
}.
End Page.

Module Trace.
(** What the code did, in order: the requests it issued, the lines it
    wrote with [console.error], the events it passed to [dispatchEvent]. *)
Record t := mk {
  fetched : list Request;
  console : list string;
  dispatched : list Ev.t;
}.
End Trace.

Record World := mkWorld {
  handler : Handler.t;
  stores : Stores.t;
  page : Page.t;
  trace : Trace.t;
}.

(** Field updates of the world. *)
Definition on_handler (f : Handler.t → Handler.t) (w : World) : World :=
  mkWorld (f (handler w)) (stores w) (page w) (trace w).
Definition on_stores (f : Stores.t → Stores.t) (w : World) : World :=
  mkWorld (handler w) (f (stores w)) (page w) (trace w).
Definition on_page (f : Page.t → Page.t) (w : World) : World :=
  mkWorld (handler w) (stores w) (f (page w)) (trace w).
Definition on_trace (f : Trace.t → Trace.t) (w : World) : World :=
  mkWorld (handler w) (stores w) (page w) (f (trace w)).

Definition update_messages (f : list Msg.t → list Msg.t) : World → World :=
  on_stores (λ s, Stores.mk (f (Stores.messages s)) (Stores.typing s)
                            (Stores.timeouts s) (Stores.presence s) (Stores.users s)).
Definition update_typing
    (f : gmap string (list Typist.t) → gmap string (list Typist.t)) : World → World :=
  on_stores (λ s, Stores.mk (Stores.messages s) (f (Stores.typing s))
                            (Stores.timeouts s) (Stores.presence s) (Stores.users s)).
Definition update_timeouts
    (f : gmap string positive → gmap string positive) : World → World :=
  on_stores (λ s, Stores.mk (Stores.messages s) (Stores.typing s)
                            (f (Stores.timeouts s)) (Stores.presence s) (Stores.users s)).
Definition update_presence
    (f : gmap Z CastMember.t → gmap Z CastMember.t) : World → World :=
  on_stores (λ s, Stores.mk (Stores.messages s) (Stores.typing s)
                            (Stores.timeouts s) (f (Stores.presence s)) (Stores.users s)).

Definition update_timers
    (f : gmap positive (Z * TimerCallback) → gmap positive (Z * TimerCallback))
  : World → World :=
  on_page (λ p, Page.mk (Page.clock p) (f (Page.timers p)) (Page.next_timer p)
                        (Page.inflight p) (Page.next_request p) (Page.reloaded p)).
Definition set_clock (t : Z) : World → World :=
  on_page (λ p, Page.mk t (Page.timers p) (Page.next_timer p)
                        (Page.inflight p) (Page.next_request p) (Page.reloaded p)).
Definition update_inflight (f : gset positive → gset positive) : World → World :=
  on_page (λ p, Page.mk (Page.clock p) (Page.timers p) (Page.next_timer p)
                        (f (Page.inflight p)) (Page.next_request p) (Page.reloaded p)).

Definition set_lastEventId (n : JsNumber) : World → World :=
  on_handler (λ h, Handler.mk (Handler.eventQueueId h) n (Handler.isPolling h)
                              (Handler.abortController h)).
Definition set_eventQueueId (q : option string) : World → World :=
  on_handler (λ h, Handler.mk q (Handler.lastEventId h) (Handler.isPolling h)
                              (Handler.abortController h)).
Definition set_isPolling (b : bool) : World → World :=
  on_handler (λ h, Handler.mk (Handler.eventQueueId h) (Handler.lastEventId h) b
                              (Handler.abortController h)).
Definition set_abortController (c : option positive) : World → World :=
  on_handler (λ h, Handler.mk (Handler.eventQueueId h) (Handler.lastEventId h)
                              (Handler.isPolling h) c).

(** [console.error(...)] *)
Definition console_error (line : string) : World → World :=
  on_trace (λ t, Trace.mk (Trace.fetched t) (Trace.console t ++ [line])
                          (Trace.dispatched t)).
Definition log_dispatch (event : Ev.t) : World → World :=
  on_trace (λ t, Trace.mk (Trace.fetched t) (Trace.console t)
                          (Trace.dispatched t ++ [event])).

(** [fetch(...)]: the request is recorded and gets a fresh number, which
    is returned. *)
Definition fetch (r : Request) (w : World) : positive * World :=
  let rid := Page.next_request (page w) in
  (rid,
   on_trace (λ t, Trace.mk (Trace.fetched t ++ [r]) (Trace.console t)
                           (Trace.dispatched t))
     (on_page (λ p, Page.mk (Page.clock p) (Page.timers p) (Page.next_timer p)
                            (Page.inflight p) (Pos.succ rid)
                            (Page.reloaded p)) w)).

(** [setTimeout(cb, delay)]: a fresh positive handle, due [delay]
    milliseconds after the current clock. *)
Definition setTimeout (cb : TimerCallback) (delay : Z) (w : World) : positive * World :=
  let h := Page.next_timer (page w) in
  (h,
   on_page (λ p, Page.mk (Page.clock p)
                         (<[h := (Page.clock p + delay, cb)]> (Page.timers p))
                         (Pos.succ h) (Page.inflight p) (Page.next_request p)
                         (Page.reloaded p)) w).

(** [clearTimeout(handle)] *)
Definition clearTimeout (h : positive) : World → World :=
  update_timers (delete h).

(** [window.location.reload()] *)
Definition reload : World → World :=
  on_page (λ p, Page.mk (Page.clock p) (Page.timers p) (Page.next_timer p)
                        (Page.inflight p) (Page.next_request p) true).

(** ** The typing store ([createTypingStore]) *)

(** [`${key}:${userId}`] *)
Definition timeoutKey (key : string) (userId : Z) : string :=
  key +:+ ":" +:+ pretty userId.

Definition clearTypistTimeout (key : string) (userId : Z) (w : World) : World :=
  match Stores.timeouts (stores w) !! timeoutKey key userId with
  | Some existing =>
      update_timeouts (delete (timeoutKey key userId)) (clearTimeout existing w)
  | None => w
  end.

Definition has_typist (userId : Z) (l : list Typist.t) : bool :=
  existsb (λ t, bool_decide (Typist.user_id t = userId)) l.

(** The store update of [removeTypist]. *)
Definition remove_from_map (key : string) (userId : Z)
    (map : gmap string (list Typist.t)) : gmap string (list Typist.t) :=
  match map !! key with
  | None => map
  | Some existing =>
      let filtered := filter (λ t, Typist.user_id t ≠ userId) existing in
      if decide (length filtered = 0%nat) then delete key map
      else <[key := filtered]> map
  end.

Definition removeTypist (key : string) (userId : Z) (w : World) : World :=
  update_typing (remove_from_map key userId) (clearTypistTimeout key userId w).

(** Clear after 15 seconds if no stop event. *)
Definition setTypistTimeout (key : string) (userId : Z) (w : World) : World :=
  let w := clearTypistTimeout key userId w in
  let '(handle, w) := setTimeout (CbRemoveTypist key userId) 15000 w in
  update_timeouts (<[timeoutKey key userId := handle]>) w.

(** The store update of [addTypist]. *)
Definition add_to_map (key : string) (typist : Typist.t)
    (map : gmap string (list Typist.t)) : gmap string (list Typist.t) :=
  let existing := default [] (map !! key) in
  if has_typist (Typist.user_id typist) existing then map
  else <[key := existing ++ [typist]]> map.

Definition addTypist (key : string) (typist : Typist.t) (w : World) : World :=
  setTypistTimeout key (Typist.user_id typist) (update_typing (add_to_map key typist) w).

(** [map.get(`${streamId}:${topic}`) ?? []] *)
Definition getTypists (key : string) (w : World) : list Typist.t :=
  default [] (Stores.typing (stores w) !! key).

(** ** The presence store ([setPresence]) *)

Definition setPresence (userId : option Z) (status : string)
    (map : gmap Z CastMember.t) : gmap Z CastMember.t :=
  match userId with
  | None => map
  | Some userId =>
      match map !! userId with
      | Some member => <[userId := CastMember.with_status member status]> map
      | None => map
      end
  end.

(** [Number.parseInt(s, 10)]: leading white space, an optional sign, then
    the longest run of decimal digits, of which the Number value is
    returned; without a digit the result is [NaN]. *)
Definition is_space (c : ascii) : bool :=
  let n := nat_of_ascii c in
  bool_decide (n = 32 ∨ 9 ≤ n ≤ 13)%nat.

Definition digit_of (c : ascii) : option Z :=
  let n := nat_of_ascii c in
  if decide (48 ≤ n ≤ 57)%nat then Some (Z.of_nat n - 48) else None.

Fixpoint skip_spaces (s : string) : string :=
  match s with
  | String c s' => if is_space c then skip_spaces s' else s
  | EmptyString => s
  end.

Fixpoint parse_digits (acc : option Z) (s : string) : option Z :=
  match s with
  | String c s' =>
      match digit_of c with
      | Some d => parse_digits (Some (10 * default 0 acc + d)) s'
      | None => acc
      end
  | EmptyString => acc
  end.

(** The Number value of an integer, which is a double: the integer itself
    if its magnitude is below 2^53, else the magnitude rounded to 53
    significant bits, ties to even; [None] is [Infinity], from 2^1024 on. *)
Definition round_to_double (n : Z) : option Z :=
  let a := Z.abs n in
  let excess := Z.log2 a - 52 in
  if decide (excess ≤ 0) then Some n
  else
    let unit := 2 ^ excess in
    let q := a `div` unit in
    let r := a `mod` unit in
    let q' :=
      if decide (2 * r < unit) then q
      else if decide (unit < 2 * r) then q + 1
      else if Z.even q then q else q + 1 in
    if decide (q' * unit < 2 ^ 1024) then Some (Z.sgn n * (q' * unit)) else None.

(** [Number.isSafeInteger(n)] *)
Definition safe_integer (n : Z) : bool := bool_decide (Z.abs n < 2 ^ 53).

(** The result is used as a key of the presence map only, where [NaN] and
    the infinities find nothing: both are [None].  All digits count, as in
    engines that do not cut the string after its twentieth digit. *)
Definition parseInt (s : string) : option Z :=
  match skip_spaces s with
  | String "-" s' => parse_digits None s' ≫= λ n, round_to_double (- n)
  | String "+" s' => parse_digits None s' ≫= round_to_double
  | s' => parse_digits None s' ≫= round_to_double
  end.

(** ** The event handler ([events/handler.ts]) *)

(** [for (const x of xs) body(x)], where a throwing body ends the loop. *)
Fixpoint for_each {A} (body : A → World → World * Completion) (xs : list A)
    (w : World) : World * Completion :=
  match xs with
  | [] => (w, Normal)
  | x :: xs' =>
      match body x w with
      | (w', Normal) => for_each body xs' w'
      | (w', Throw e) => (w', Throw e)
      end
  end.

(** [event["message"]] is cast, not checked: on an event without it,
    [toTheaterMessage(undefined)] throws at its first property read. *)
Definition handleMessageEvent (event : Ev.t) (w : World) : World * Completion :=
  match Ev.message event with
  | None =>
      (w, Throw (TypeError
        "Cannot read properties of undefined (reading 'persona_display_name')"))
  | Some msg =>
      let theaterMsg := toTheaterMessage (Stores.users (stores w)) msg in
      (update_messages (addMessage theaterMsg) w, Normal)
  end.

(** The [updates] object built by [handleUpdateMessageEvent]: a key is set
    exactly when the event carries it. *)
Definition update_fields (event : Ev.t) : Upd.t :=
  {| Upd.id := None; Upd.type := None; Upd.sender_id := None;
     Upd.sender_full_name := None; Upd.sender_email := None;
     Upd.avatar_url := None;
     Upd.content := Ev.content event;
     Upd.rendered_content := Ev.rendered_content event;
     Upd.timestamp := None; Upd.stream_id := None;
     Upd.topic := nullish_or (Ev.subject event) (Ev.topic event);
     Upd.persona_id := None; Upd.persona_display_name := None;
     Upd.persona_avatar_url := None; Upd.persona_color := None;
     Upd.puppet_display_name := None; Upd.puppet_avatar_url := None;
     Upd.whisper_recipients := None; Upd.characterName := None;
     Upd.characterAvatar := None; Upd.characterColor := None;
     Upd.isWhisper := None; Upd.whisperRecipientsText := None;
     Upd.isRead := None; Upd.streamId := None |}.

Definition handleUpdateMessageEvent (event : Ev.t) (w : World) : World * Completion :=
  let messageId := Ev.message_id event in
  let updates := update_fields event in
  if Upd.has_keys updates
  then (update_messages (updateMessage messageId updates) w, Normal)
  else (w, Normal).

Definition handleDeleteMessageEvent (event : Ev.t) (w : World) : World * Completion :=
  match Ev.message_ids event with
  | None => (w, Throw (TypeError "messageIds is not iterable"))
  | Some messageIds =>
      for_each (λ id w, (update_messages (removeMessage id) w, Normal)) messageIds w
  end.

(** [`${streamId}:${topic}`] *)
Definition typing_key (streamId : option Z) (topic : option string) : string :=
  from_option pretty "undefined" streamId +:+ ":" +:+ default "undefined" topic.

Definition handleTypingEvent (event : Ev.t) (w : World) : World * Completion :=
  if negb (bool_decide (Ev.message_type event = Some "stream")) then (w, Normal)
  else
    let streamId := Ev.stream_id event in
    let topic := Ev.topic event in
    let op := Ev.op event in
    match Ev.sender event with
    | None => (w, Normal)
    | Some sender =>
        let key := typing_key streamId topic in
        let typist :=
          {| Typist.user_id := Sender.user_id sender;
             Typist.full_name := default "Someone" (Sender.full_name sender);
             Typist.persona_name := None |} in
        if bool_decide (op = Some "start")
        then (addTypist key typist w, Normal)
        else (removeTypist key (Sender.user_id sender) w, Normal)
    end.

(** [data.status || "offline"] *)
Definition status_or_offline (status : option string) : string :=
  match status with
  | Some s => if decide (s = "") then "offline" else s
  | None => "offline"
  end.

Definition handlePresenceEvent (event : Ev.t) (w : World) : World * Completion :=
  match Ev.presence event with
  | None => (w, Normal)
  | Some presenceData =>
      for_each
        (λ '(userIdStr, data) w,
           match data with
           | None =>
               (w, Throw (TypeError
                 "Cannot read properties of null (reading 'status')"))
           | Some st =>
               let userId := parseInt userIdStr in
               let status := status_or_offline st in
               (update_presence (setPresence userId status) w, Normal)
           end)
        presenceData w
  end.

Definition dispatchEvent (event : Ev.t) (w : World) : World * Completion :=
  let w := log_dispatch event w in
  let eventType := Ev.type event in
  if decide (eventType = "message") then handleMessageEvent event w
  else if decide (eventType = "update_message") then handleUpdateMessageEvent event w
  else if decide (eventType = "delete_message") then handleDeleteMessageEvent event w
  else if decide (eventType = "typing") then handleTypingEvent event w
  else if decide (eventType = "presence") then handlePresenceEvent event w
  else (w, Normal).

(** [!eventQueueId] is true for [null] and for the empty string. *)
Definition queue_id (w : World) : option string :=
  match Handler.eventQueueId (handler w) with
  | Some q => if decide (q = "") then None else Some q
  | None => None
  end.

(** [poll()] up to its first [await]: the guard, a new controller, the
    request, whose answer the function then waits for. *)
Definition poll (w : World) : World :=
  if negb (Handler.isPolling (handler w)) then w
  else
    match queue_id w with
    | None => w
    | Some q =>
        let '(rid, w) := fetch (GetEvents q (Handler.lastEventId (handler w))) w in
        update_inflight (λ s, {[rid]} ∪ s) (set_abortController (Some rid) w)
    end.

(** The [catch] block of [poll]. *)
Definition poll_catch (error : JsError.t) (w : World) : World :=
  if decide (JsError.name error = "AbortError") then w
  else
    let w := console_error ("Event poll error: " +:+ JsError.message error) w in
    if Handler.isPolling (handler w) then (setTimeout CbPoll 5000 w).2 else w.

(** The body of one loop iteration over [data.events]. *)
Definition deliver (event : Ev.t) (w : World) : World * Completion :=
  let eventId := Ev.id event in
  let w :=
    set_lastEventId (Math_max (Handler.lastEventId (handler w)) eventId) w in
  dispatchEvent event w.

(** What the awaited [fetch] and [response.json()] can produce. *)
Inductive Body : Type :=
  | NotJson
  | JsonNull
  | JsonObject (events : option (list Ev.t)).

Inductive PollOutcome : Type :=
  | Rejected (error : JsError.t)
  | Response (status : Z) (body : Body).

(** [response.ok] *)
Definition ok (status : Z) : bool := bool_decide (200 ≤ status ≤ 299).

(** [poll()] from its first [await] on. *)
Definition poll_response (o : PollOutcome) (w : World) : World :=
  match o with
  | Rejected error => poll_catch error w
  | Response status body =>
      if negb (ok status) then
        if decide (status = 400) then
          reload (console_error "Event queue expired, reloading..." w)
        else
          poll_catch (JsError.mk "Error" ("Event poll failed: " +:+ pretty status)) w
      else
        match body with
        | NotJson => poll_catch (JsError.mk "SyntaxError" "Unexpected token") w
        | JsonNull =>
            poll_catch
              (TypeError "Cannot read properties of null (reading 'events')") w
        | JsonObject events =>
            match for_each deliver (default [] events) w with
            | (w, Normal) => if Handler.isPolling (handler w) then poll w else w
            | (w, Throw error) => poll_catch error w
            end
        end
  end.

Definition startPolling (w : World) : World :=
  match queue_id w with
  | None => w
  | Some _ =>
      if Handler.isPolling (handler w) then w
      else poll (set_isPolling true w)
  end.

Definition initializeEventHandler (queueId : string) (initialEventId : Z)
    (w : World) : World :=
  startPolling
    (set_lastEventId (Num initialEventId) (set_eventQueueId (Some queueId) w)).

(** [abortController.abort()] makes the pending request reject with an
    [AbortError], on which [poll_catch] returns at once: the request is
    dropped. *)
Definition cleanupEventHandler (w : World) : World :=
  let w := set_isPolling false w in
  let w :=
    match Handler.abortController (handler w) with
    | Some rid => set_abortController None (update_inflight (λ s, s ∖ {[rid]}) w)
    | None => w
    end in
  match queue_id w with
  | Some q => (fetch (DeleteQueue q) w).2
  | None => w
  end.

(** ** The event loop of the page *)

Definition run_callback (cb : TimerCallback) (w : World) : World :=
  match cb with
  | CbRemoveTypist key userId => removeTypist key userId w
  | CbPoll => poll w
  end.

(** Of two pending timers, the one with the earlier deadline runs first,
    and of two with the same deadline the one set first. *)
Definition runs_before (a b : positive * (Z * TimerCallback)) : bool :=
  bool_decide (a.2.1 < b.2.1 ∨ (a.2.1 = b.2.1 ∧ (a.1 < b.1)%positive)).

Definition pick_due (t : Z) (x : positive * (Z * TimerCallback))
    (acc : option (positive * (Z * TimerCallback)))
  : option (positive * (Z * TimerCallback)) :=
  if decide (x.2.1 ≤ t) then
    match acc with
    | None => Some x
    | Some y => if runs_before x y then Some x else Some y
    end
  else acc.

(** The first timer to run among those due at time [t]. *)
Definition next_due (t : Z) (timers : gmap positive (Z * TimerCallback))
  : option (positive * (Z * TimerCallback)) :=
  foldr (pick_due t) None (map_to_list timers).

(** Run the timers due at [t], one at a time. *)
Fixpoint run_timers (fuel : nat) (t : Z) (w : World) : World :=
  match fuel with
  | O => w
  | S fuel' =>
      match next_due t (Page.timers (page w)) with
      | None => w
      | Some (h, (deadline, cb)) =>
          let w := set_clock (Z.max (Page.clock (page w)) deadline) w in
          let w := update_timers (delete h) w in
          run_timers fuel' t (run_callback cb w)
      end
  end.

(** Let [dt] milliseconds pass.  No callback of this code sets a timer, so
    as many rounds as there are pending timers run every due one. *)
Definition elapse (dt : Z) (w : World) : World :=
  let t := Page.clock (page w) + Z.max 0 dt in
  set_clock t (run_timers (size (Page.timers (page w))) t w).

Inductive Input : Type :=
  | Respond (rid : positive) (o : PollOutcome)
  | Elapse (dt : Z)
  | Initialize (queueId : string) (initialEventId : Z)
  | Cleanup
  | AddTypist (key : string) (typist : Typist.t)
  | RemoveTypist (key : string) (userId : Z).

(** One turn of the event loop.  After [window.location.reload()] the
    document is torn down and none of its code runs again. *)
Definition step (i : Input) (w : World) : World :=
  if Page.reloaded (page w) then w
  else
    match i with
    | Respond rid o =>
        if decide (rid ∈ Page.inflight (page w))
        then poll_response o (update_inflight (λ s, s ∖ {[rid]}) w)
        else w
    | Elapse dt => elapse dt w
    | Initialize queueId initialEventId => initializeEventHandler queueId initialEventId w
    | Cleanup => cleanupEventHandler w
    | AddTypist key typist => addTypist key typist w
    | RemoveTypist key userId => removeTypist key userId w
    end.

Definition run (inputs : list Input) (w : World) : World :=
  foldl (λ w i, step i w) w inputs.

(** The page as loaded: [lastEventId = -1], nothing stored, nothing
    pending. *)
Definition initial (users : gmap Z UserInfo.t) : World :=
  {| handler := Handler.mk None (Num (-1)) false None;
     stores := Stores.mk [] ∅ ∅ ∅ users;
     page := Page.mk 0 ∅ 1%positive ∅ 1%positive false;
     trace := Trace.mk [] [] [] |}.

(** ** Whisper visibility *)

Module Directory.
(** Modelled from the spec: the Recipient Directory, which the client
    sources do not contain.  A lookup of an unknown id is [None]. *)
Record t := mk {
  resolveGroupMembers : Z → option (list Z);
  resolvePuppetHandler : Z → Z → option Z;
  resolvePersonaOwner : Z → option Z;
}.
End Directory.

Module Recipients.
(** Modelled from the spec: the four recipient sets of a whisper. *)
Record t := mk {
  user_ids : list Z;
  group_ids : list Z;
  puppet_ids : list Z;
  persona_ids : list Z;
}.
End Recipients.

(** Modelled from the spec: [isVisible(message, viewer_user_id)], which the
    client sources do not contain; steps 1 to 7 of the resolver, for a
    viewer with channel access. *)
Definition isVisible (dir : Directory.t) (sender_id : Z) (channel : option Z)
    (whisper : option Recipients.t) (viewer : Z) : bool :=
  match whisper with
  | None => true
  | Some r =>
      bool_decide (viewer = sender_id)
      || bool_decide (viewer ∈ Recipients.user_ids r)
      || existsb (λ g, bool_decide
                         (viewer ∈ default [] (Directory.resolveGroupMembers dir g)))
                 (Recipients.group_ids r)
      || existsb (λ p, match channel with
                       | Some c =>
                           bool_decide
                             (Directory.resolvePuppetHandler dir c p = Some viewer)
                       | None => false
                       end)
                 (Recipients.puppet_ids r)
      || existsb (λ p, bool_decide
                         (Directory.resolvePersonaOwner dir p = Some viewer))
                 (Recipients.persona_ids r)
  end.

(** The recipient sets a stored message carries: the client's
    [WhisperRecipients] has user and group ids only. *)
Definition recipients_of (m : Msg.t) : option Recipients.t :=
  match Msg.whisper_recipients m with
  | JsVal r =>
      Some (Recipients.mk (default [] (Whisper.user_ids r))
                          (default [] (Whisper.group_ids r)) [] [])
  | _ => None
  end.

Definition visible_to (dir : Directory.t) (viewer : Z) (m : Msg.t) : bool :=
  isVisible dir (Msg.sender_id m) (Msg.stream_id m) (recipients_of m) viewer.

(** ** Vocabulary of the statements *)

(** The stored list is in non-decreasing order of id. *)
Definition sorted_by_id (l : list Msg.t) : Prop :=
  StronglySorted (λ a b, Msg.id a ≤ Msg.id b) l.

(** The stored copies of the message with id [k], in store order. *)
Definition copies (k : Z) (l : list Msg.t) : list Msg.t :=
  filter (λ m, Msg.id m = k) l.

(** [m'] is [m] up to its [content], [rendered_content] and [topic]. *)
Definition same_but_patched (m m' : Msg.t) : Prop :=
  m' = {| Msg.id := Msg.id m;
          Msg.type := Msg.type m;
          Msg.sender_id := Msg.sender_id m;
          Msg.sender_full_name := Msg.sender_full_name m;
          Msg.sender_email := Msg.sender_email m;
          Msg.avatar_url := Msg.avatar_url m;
          Msg.content := Msg.content m';
          Msg.rendered_content := Msg.rendered_content m';
          Msg.timestamp := Msg.timestamp m;
          Msg.stream_id := Msg.stream_id m;
          Msg.topic := Msg.topic m';
          Msg.persona_id := Msg.persona_id m;
          Msg.persona_display_name := Msg.persona_display_name m;
          Msg.persona_avatar_url := Msg.persona_avatar_url m;
          Msg.persona_color := Msg.persona_color m;
          Msg.puppet_display_name := Msg.puppet_display_name m;
          Msg.puppet_avatar_url := Msg.puppet_avatar_url m;
          Msg.whisper_recipients := Msg.whisper_recipients m;
          Msg.characterName := Msg.characterName m;
          Msg.characterAvatar := Msg.characterAvatar m;
          Msg.characterColor := Msg.characterColor m;
          Msg.isWhisper := Msg.isWhisper m;
          Msg.whisperRecipientsText := Msg.whisperRecipientsText m;
          Msg.isRead := Msg.isRead m;
          Msg.streamId := Msg.streamId m |}.

(** The calls a client of the message store can make (all but
    [setMessages] and [clear]). *)
Inductive StoreOp : Type :=
  | OpAddMessage (msg : Msg.t)
  | OpAddMessages (msgs : list Msg.t)
  | OpPrependMessages (msgs : list Msg.t)
  | OpUpdateMessage (id : option Z) (updates : Upd.t)
  | OpRemoveMessage (id : Z)
  | OpMarkAsRead (id : Z).

Definition apply_op (op : StoreOp) (messages : list Msg.t) : list Msg.t :=
  match op with
  | OpAddMessage msg => addMessage msg messages
  | OpAddMessages msgs => addMessages msgs messages
  | OpPrependMessages msgs => prependMessages msgs messages
  | OpUpdateMessage id updates => updateMessage id updates messages
  | OpRemoveMessage id => removeMessage id messages
  | OpMarkAsRead id => markAsRead id messages
  end.

Definition apply_ops (ops : list StoreOp) (messages : list Msg.t) : list Msg.t :=
  foldl (λ s op, apply_op op s) messages ops.

(** An [updateMessage] call whose patch has no [id] key. *)
Definition keeps_id (op : StoreOp) : bool :=
  match op with
  | OpUpdateMessage _ updates => bool_decide (Upd.id updates = None)
  | _ => true
  end.

(** A channel message, for the examples. *)
Definition example_raw (id sender_id : Z) (content : string)
    (whisper : Nullish Whisper.t) : Raw.t :=
  {| Raw.id := id; Raw.type := "stream"; Raw.sender_id := sender_id;
     Raw.sender_full_name := "Iago"; Raw.sender_email := "iago@example.com";
     Raw.avatar_url := None; Raw.content := content;
     Raw.rendered_content := None; Raw.timestamp := 1700000000;
     Raw.stream_id := Some 1; Raw.subject := Some "X"; Raw.topic := None;
     Raw.persona_id := None; Raw.persona_display_name := None;
     Raw.persona_avatar_url := None; Raw.persona_color := None;
     Raw.puppet_display_name := None; Raw.puppet_avatar_url := None;
     Raw.whisper_recipients := whisper; Raw.flags := None |}.

Definition example_msg (id : Z) (content : string) : Msg.t :=
  toTheaterMessage ∅ (example_raw id 7 content JsNull).

(** An event object with the keys [id] and [type] only. *)
Definition bare_event (id : Z) (type : string) : Ev.t :=
  {| Ev.id := Some id; Ev.type := type; Ev.message := None; Ev.message_id := None;
     Ev.rendered_content := None; Ev.content := None; Ev.subject := None;
     Ev.topic := None; Ev.message_ids := None; Ev.message_type := None;
     Ev.stream_id := None; Ev.op := None; Ev.sender := None;
     Ev.presence := None |}.

(** An event object with the key [type] only. *)
Definition event_without_id (type : string) : Ev.t :=
  {| Ev.id := None; Ev.type := type; Ev.message := None; Ev.message_id := None;
     Ev.rendered_content := None; Ev.content := None; Ev.subject := None;
     Ev.topic := None; Ev.message_ids := None; Ev.message_type := None;
     Ev.stream_id := None; Ev.op := None; Ev.sender := None;
     Ev.presence := None |}.

Definition message_event (id : Z) (msg : Raw.t) : Ev.t :=
  {| Ev.id := Some id; Ev.type := "message"; Ev.message := Some msg;
     Ev.message_id := None;
     Ev.rendered_content := None; Ev.content := None; Ev.subject := None;
     Ev.topic := None; Ev.message_ids := None; Ev.message_type := None;
     Ev.stream_id := None; Ev.op := None; Ev.sender := None;
     Ev.presence := None |}.


(** An event whose handler finds the keys it reads without a check: a
    [message] event has its [message], a [delete_message] event its
    [message_ids], and no entry of a [presence] event is [null]. *)
Definition well_formed (event : Ev.t) : bool :=
  if decide (Ev.type event = "message") then bool_decide (is_Some (Ev.message event))
  else if decide (Ev.type event = "delete_message")
       then bool_decide (is_Some (Ev.message_ids event))
  else if decide (Ev.type event = "presence")
       then forallb (λ entry, bool_decide (is_Some entry.2))
                    (default [] (Ev.presence event))
  else true.

(** [Math.max] of [base] and the ids of [events]. *)
Definition max_id (base : JsNumber) (events : list Ev.t) : JsNumber :=
  foldl (λ acc event, Math_max acc (Ev.id event)) base events.

(** The part of the world that no event handler writes: the handler's
    variables, the trace, the requests awaited, the reload flag. *)
Definition control (w : World)
  : Handler.t * Trace.t * gset positive * positive * bool :=
  (handler w, trace w, Page.inflight (page w), Page.next_request (page w),
   Page.reloaded (page w)).

Definition update_event (id message_id : Z) (content : string) : Ev.t :=
  {| Ev.id := Some id; Ev.type := "update_message"; Ev.message := None;
     Ev.message_id := Some message_id;
     Ev.rendered_content := None; Ev.content := Some content;
     Ev.subject := None; Ev.topic := None; Ev.message_ids := None;
     Ev.message_type := None; Ev.stream_id := None; Ev.op := None;
     Ev.sender := None; Ev.presence := None |}.

(** The loaded page with [messages] in its store. *)
Definition with_messages (messages : list Msg.t) : World :=
  update_messages (setMessages messages) (initial ∅).

(** The handler's module variables, read from the world. *)
Definition lastEventId (w : World) : JsNumber :=
  Handler.lastEventId (handler w).
Definition isPolling (w : World) : bool := Handler.isPolling (handler w).
Definition eventQueueId (w : World) : option string := Handler.eventQueueId (handler w).

(** The requests issued so far, and the events dispatched so far. *)
Definition fetched (w : World) : list Request := Trace.fetched (trace w).
Definition dispatched (w : World) : list Ev.t := Trace.dispatched (trace w).
Definition console (w : World) : list string := Trace.console (trace w).

(** [a <= b] of JavaScript: false as soon as one side is [NaN]. *)
Definition number_le (a b : JsNumber) : Prop :=
  match a, b with
  | Num x, Num y => x ≤ y
  | _, _ => False
  end.

(** What the poll loop can make of [lastEventId]: a number not below the
    one before, or [NaN]; and of [NaN] nothing but [NaN]. *)
Definition not_lowered (a b : JsNumber) : Prop :=
  match a, b with
  | Num x, Num y => x ≤ y
  | _, NaN => True
  | NaN, Num _ => False
  end.

(** Every event of the answer has its [id]. *)
Definition with_ids (i : Input) : bool :=
  match i with
  | Respond _ (Response _ (JsonObject (Some events))) =>
      forallb (λ event, bool_decide (is_Some (Ev.id event))) events
  | _ => true
  end.

(** Every input but a new registration of the handler. *)
Definition same_queue (i : Input) : bool :=
  match i with
  | Initialize _ _ => false
  | _ => true
  end.

(** The page after [initializeEventHandler("queue-1", 0)]: polling, with
    request 1 awaited. *)
Definition polling_page : World := step (Initialize "queue-1" 0) (initial ∅).

Definition batch_response (events : list Ev.t) : PollOutcome :=
  Response 200 (JsonObject (Some events)).

(** ** Vocabulary of the typing store *)

Fixpoint has_colon (s : string) : bool :=
  match s with
  | EmptyString => false
  | String c s' => bool_decide (c = ":"%char) || has_colon s'
  end.

(** The timer handles are coherent: a pending expiry timer is the one its
    typist's key is registered with, no handle of the future is registered,
    and no handle is registered twice. *)
Definition typing_ok (w : World) : Prop :=
  (∀ h d key userId,
     Page.timers (page w) !! h = Some (d, CbRemoveTypist key userId) →
     Stores.timeouts (stores w) !! timeoutKey key userId = Some h)
  ∧ (∀ tk h, Stores.timeouts (stores w) !! tk = Some h →
             (h < Page.next_timer (page w))%positive)
  ∧ (∀ tk1 tk2 h, Stores.timeouts (stores w) !! tk1 = Some h →
                  Stores.timeouts (stores w) !! tk2 = Some h → tk1 = tk2).

(** [userId] is shown as typing under [key]. *)
Definition is_typing (key : string) (userId : Z) (w : World) : bool :=
  has_typist userId (getTypists key w).

(** What the typing store and its timers consist of. *)
Definition typing_view (w : World)
  : gmap positive (Z * TimerCallback) * gmap string positive
    * gmap string (list Typist.t) * positive * Z * bool :=
  (Page.timers (page w), Stores.timeouts (stores w), Stores.typing (stores w),
   Page.next_timer (page w), Page.clock (page w), Page.reloaded (page w)).

(** An event that is not a typing start or stop of [userId] under [key]. *)
Definition unrelated_event (key : string) (userId : Z) (event : Ev.t) : bool :=
  negb (bool_decide
          (Ev.type event = "typing"
           ∧ Ev.message_type event = Some "stream"
           ∧ typing_key (Ev.stream_id event) (Ev.topic event) = key
           ∧ Sender.user_id <$> Ev.sender event = Some userId)).

(** A [typing] event on which [handleTypingEvent] calls [addTypist] for
    [userId] under [key]: of message type "stream", with a sender, and
    with [op] "start". *)
Definition typing_start (key : string) (userId : Z) (event : Ev.t) : bool :=
  bool_decide
    (Ev.type event = "typing"
     ∧ Ev.message_type event = Some "stream"
     ∧ Ev.op event = Some "start"
     ∧ typing_key (Ev.stream_id event) (Ev.topic event) = key
     ∧ Sender.user_id <$> Ev.sender event = Some userId).

(** Any input but a typing start or stop of [userId] under [key], be it a
    call of the store or an event of a batch, and but the answer 400 that
    reloads the page. *)
Definition unrelated (key : string) (userId : Z) (i : Input) : bool :=
  match i with
  | Respond _ (Rejected _) => true
  | Respond _ (Response status body) =>
      negb (bool_decide (status = 400))
      && match body with
         | JsonObject (Some events) => forallb (unrelated_event key userId) events
         | _ => true
         end
  | Elapse _ | Initialize _ _ | Cleanup => true
  | AddTypist key' typist =>
      negb (bool_decide (key' = key ∧ Typist.user_id typist = userId))
  | RemoveTypist key' userId' =>
      negb (bool_decide (key' = key ∧ userId' = userId))
  end.

(** The expiry of [userId] under [key] is pending with deadline [deadline],
    and the typist is shown. *)
Definition armed (key : string) (userId : Z) (deadline : Z) (w : World) : Prop :=
  (∃ h, Page.timers (page w) !! h = Some (deadline, CbRemoveTypist key userId))
  ∧ is_typing key userId w = true.

(** Where a typist stands with respect to the deadline of the expiry: shown
    and pending before it, not shown from it on. *)
Definition expiry_state (key : string) (userId : Z) (deadline : Z) (w : World)
  : Prop :=
  typing_ok w
  ∧ Page.reloaded (page w) = false
  ∧ ((armed key userId deadline w ∧ Page.clock (page w) < deadline)
     ∨ (is_typing key userId w = false ∧ deadline ≤ Page.clock (page w))).

Definition example_typist (userId : Z) (name : string) : Typist.t :=
  {| Typist.user_id := userId; Typist.full_name := name;
     Typist.persona_name := None |}.

(** A [typing] event of stream 1, topic "X". *)
Definition typing_event (id : Z) (op : string) (userId : Z) : Ev.t :=
  {| Ev.id := Some id; Ev.type := "typing"; Ev.message := None;
     Ev.message_id := None; Ev.rendered_content := None; Ev.content := None;
     Ev.subject := None; Ev.topic := Some "X"; Ev.message_ids := None;
     Ev.message_type := Some "stream"; Ev.stream_id := Some 1;
     Ev.op := Some op;
     Ev.sender := Some (Sender.mk userId (Some "Hamlet"));
     Ev.presence := None |}.

(** The events, answers and inputs that start and stop only typists that
    [Q] admits, and that reload the page only if [may_reload]. *)
Definition allowed_event (Q : string → Z → Prop) (event : Ev.t) : Prop :=
  ∀ sender, Ev.type event = "typing" →
            Ev.message_type event = Some "stream" →
            Ev.sender event = Some sender →
            Q (typing_key (Ev.stream_id event) (Ev.topic event))
              (Sender.user_id sender).

Definition allowed_outcome (Q : string → Z → Prop) (may_reload : Prop)
    (o : PollOutcome) : Prop :=
  match o with
  | Rejected _ => True
  | Response status body =>
      (status = 400 → may_reload)
      ∧ match body with
        | JsonObject (Some events) => Forall (allowed_event Q) events
        | _ => True
        end
  end.

Definition allowed_input (Q : string → Z → Prop) (may_reload : Prop)
    (i : Input) : Prop :=
  match i with
  | Respond _ o => allowed_outcome Q may_reload o
  | AddTypist key typist => Q key (Typist.user_id typist)
  | RemoveTypist key userId => Q key userId
  | _ => True
  end.

(** * More of the code *)

(** A message, for the examples, with its own character name. *)
Definition example_line (id timestamp : Z) (speaker content : string) : Msg.t :=
  toTheaterMessage ∅
    {| Raw.id := id; Raw.type := "stream"; Raw.sender_id := 7;
       Raw.sender_full_name := speaker; Raw.sender_email := "iago@example.com";
       Raw.avatar_url := None; Raw.content := content;
       Raw.rendered_content := None; Raw.timestamp := timestamp;
       Raw.stream_id := Some 1; Raw.subject := Some "X"; Raw.topic := None;
       Raw.persona_id := None; Raw.persona_display_name := None;
       Raw.persona_avatar_url := None; Raw.persona_color := None;
       Raw.puppet_display_name := None; Raw.puppet_avatar_url := None;
       Raw.whisper_recipients := JsNull; Raw.flags := None |}.

Definition delete_event (id : Z) (message_ids : list Z) : Ev.t :=
  {| Ev.id := Some id; Ev.type := "delete_message"; Ev.message := None;
     Ev.message_id := None; Ev.rendered_content := None; Ev.content := None;
     Ev.subject := None; Ev.topic := None; Ev.message_ids := Some message_ids;
     Ev.message_type := None; Ev.stream_id := None; Ev.op := None;
     Ev.sender := None; Ev.presence := None |}.

(** ** The derived store [scenes] ([stores/messages.ts]) *)

(** The key under which [scenes] files a message: stream messages with a
    truthy [stream_id] and a truthy [topic] only. *)
Definition scene_key (msg : Msg.t) : option string :=
  if decide (Msg.type msg ≠ "stream") then None
  else
    match Msg.stream_id msg, Msg.topic msg with
    | Some stream_id, Some topic =>
        if decide (stream_id = 0) then None
        else if decide (topic = "") then None
        else Some (pretty stream_id +:+ ":" +:+ topic)
    | _, _ => None
    end.

(** One round of the loop of [scenes]. *)
Definition scenes_step (grouped : gmap string (list Msg.t)) (msg : Msg.t)
  : gmap string (list Msg.t) :=
  match scene_key msg with
  | None => grouped
  | Some key =>
      match grouped !! key with
      | Some existing => <[key := existing ++ [msg]]> grouped
      | None => <[key := [msg]]> grouped
      end
  end.

Definition scenes (messages : list Msg.t) : gmap string (list Msg.t) :=
  foldl scenes_step ∅ messages.

(** ** The stage ([components/Stage.svelte]) *)

(** [arr.sort((a, b) => a.timestamp - b.timestamp)], a stable sort. *)
Fixpoint insert_by_timestamp (m : Msg.t) (l : list Msg.t) : list Msg.t :=
  match l with
  | [] => [m]
  | x :: l' =>
      if decide (Msg.timestamp m ≤ Msg.timestamp x) then m :: l
      else x :: insert_by_timestamp m l'
  end.

Definition sort_by_timestamp (l : list Msg.t) : list Msg.t :=
  foldr insert_by_timestamp [] l.

(** [$messages.filter((m) => m.streamId === streamId && m.topic === topic)
    .sort(...)] *)
Definition sceneMessages (streamId : Z) (topic : string) (messages : list Msg.t)
  : list Msg.t :=
  sort_by_timestamp
    (filter (λ m, Msg.streamId m = Some streamId ∧ Msg.topic m = Some topic)
            messages).

Module MessageGroup.
(** [interface MessageGroup] *)
Record t := mk {
  messages : list Msg.t;
  speakerId : Z;
  speakerName : string;
}.
End MessageGroup.

(** One round of the loop of [messageGroups]: the message joins the last
    group if that group has its character name, and opens a group
    otherwise. *)
Definition group_step (groups : list MessageGroup.t) (msg : Msg.t)
  : list MessageGroup.t :=
  match last groups with
  | Some lastGroup =>
      if decide (MessageGroup.speakerName lastGroup = Msg.characterName msg)
      then removelast groups
           ++ [MessageGroup.mk (MessageGroup.messages lastGroup ++ [msg])
                               (MessageGroup.speakerId lastGroup)
                               (MessageGroup.speakerName lastGroup)]
      else groups
           ++ [MessageGroup.mk [msg] (Msg.sender_id msg) (Msg.characterName msg)]
  | None => [MessageGroup.mk [msg] (Msg.sender_id msg) (Msg.characterName msg)]
  end.

Definition messageGroups (sceneMessages : list Msg.t) : list MessageGroup.t :=
  foldl group_step [] sceneMessages.

(** A group as the loop builds it: not empty, named after the character of
    every message in it, and with the sender of its first message. *)
Definition group_ok (g : MessageGroup.t) : Prop :=
  (∃ first rest, MessageGroup.messages g = first :: rest
                 ∧ MessageGroup.speakerId g = Msg.sender_id first)
  ∧ Forall (λ m, Msg.characterName m = MessageGroup.speakerName g)
           (MessageGroup.messages g).

(** No two neighbours in the list of groups have the same speaker name. *)
Fixpoint speakers_alternate (groups : list MessageGroup.t) : Prop :=
  match groups with
  | g1 :: (g2 :: _) as rest =>
      MessageGroup.speakerName g1 ≠ MessageGroup.speakerName g2
      ∧ speakers_alternate rest
  | _ => True
  end.

(** ** The typing store, continued *)

(** [clear()]: every registered handle is cleared, then both maps are
    emptied. *)
Definition typing_clear (w : World) : World :=
  let handles := (map_to_list (Stores.timeouts (stores w))).*2 in
  let w := foldr clearTimeout w handles in
  update_typing (λ _, ∅) (update_timeouts (λ _, ∅) w).

(** No key of the typing map has an empty list, and no list names a user
    twice. *)
Definition lists_ok (typing : gmap string (list Typist.t)) : Prop :=
  ∀ key l, typing !! key = Some l → l ≠ [] ∧ NoDup (Typist.user_id <$> l).

(** Typists and expiry timers go together: every typist shown has a
    pending expiry that is due within 15000 ms, and every pending expiry is
    that of a typist shown. *)
Definition typists_timed (w : World) : Prop :=
  typing_ok w
  ∧ lists_ok (Stores.typing (stores w))
  ∧ (∀ key userId, is_typing key userId w = true →
       ∃ h d, Page.timers (page w) !! h = Some (d, CbRemoveTypist key userId)
              ∧ d ≤ Page.clock (page w) + 15000)
  ∧ (∀ h d key userId,
       Page.timers (page w) !! h = Some (d, CbRemoveTypist key userId) →
       is_typing key userId w = true).

(** ** Vocabulary of the poll loop *)

(** What neither a timer callback nor a call of the typing store writes. *)
Definition steady_view (w : World)
  : option string * JsNumber * bool * list Ev.t * list string * list Msg.t
    * gmap Z CastMember.t * gmap Z UserInfo.t * bool :=
  (Handler.eventQueueId (handler w), Handler.lastEventId (handler w),
   Handler.isPolling (handler w), Trace.dispatched (trace w),
   Trace.console (trace w), Stores.messages (stores w),
   Stores.presence (stores w), Stores.users (stores w),
   Page.reloaded (page w)).

(** The poll requests among the requests issued. *)
Definition is_get (r : Request) : bool :=
  match r with
  | GetEvents _ _ => true
  | DeleteQueue _ => false
  end.

Definition polls (w : World) : list Request := filter (λ r, is_get r = true) (fetched w).

(** Nothing of the poll loop is pending: no request is awaited and no retry
    is scheduled. *)
Definition quiet (w : World) : Prop :=
  Page.inflight (page w) = ∅
  ∧ ∀ h d, Page.timers (page w) !! h ≠ Some (d, CbPoll).

(** The retries scheduled in [w'] were already scheduled in [w]. *)
Definition no_new_retry (w w' : World) : Prop :=
  ∀ h d, Page.timers (page w') !! h = Some (d, CbPoll) →
         Page.timers (page w) !! h = Some (d, CbPoll).

(** At most one poll is pending, be it an awaited request or a scheduled
    retry, and none is while polling is off. *)
Definition one_poll (w : World) : Prop :=
  (∀ r1 r2, r1 ∈ Page.inflight (page w) → r2 ∈ Page.inflight (page w) → r1 = r2)
  ∧ (∀ h1 h2 d1 d2,
       Page.timers (page w) !! h1 = Some (d1, CbPoll) →
       Page.timers (page w) !! h2 = Some (d2, CbPoll) → h1 = h2)
  ∧ (∀ r h d, r ∈ Page.inflight (page w) →
              Page.timers (page w) !! h ≠ Some (d, CbPoll))
  ∧ (isPolling w = false → quiet w).

Definition no_cleanup (i : Input) : bool :=
  match i with
  | Cleanup => false
  | _ => true
  end.

(** While [lastEventId] is a number, it covers every event dispatched so
    far; it is [NaN] only when an event without id was dispatched. *)
Definition acknowledged (w : World) : Prop :=
  match lastEventId w with
  | Num last =>
      Forall (λ event, ∃ id, Ev.id event = Some id ∧ id ≤ last) (dispatched w)
  | NaN => Exists (λ event, Ev.id event = None) (dispatched w)
  end.

(** The members are the same, up to their status. *)
Definition same_cast (before after : gmap Z CastMember.t) : Prop :=
  ∀ userId,
    match before !! userId, after !! userId with
    | Some member, Some member' =>
        member' = CastMember.with_status member (CastMember.status member')
    | None, None => True
    | _, _ => False
    end.

Definition presence_event (id : Z) (entries : list (string * option (option string)))
  : Ev.t :=
  {| Ev.id := Some id; Ev.type := "presence"; Ev.message := None;
     Ev.message_id := None; Ev.rendered_content := None; Ev.content := None;
     Ev.subject := None; Ev.topic := None; Ev.message_ids := None;
     Ev.message_type := None; Ev.stream_id := None; Ev.op := None;
     Ev.sender := None; Ev.presence := Some entries |}.

(** The loaded page with one known cast member. *)
Definition with_member (member : CastMember.t) : World :=
  update_presence (λ _, {[CastMember.user_id member := member]}) (initial ∅).

Definition example_member (userId : Z) (name status : string) : CastMember.t :=
  {| CastMember.user_id := userId; CastMember.full_name := name;
     CastMember.avatar_url := None; CastMember.status := status;
     CastMember.active_persona := None |}.

(** The polling page after its first request failed: a retry is scheduled. *)
Definition backing_off_page : World :=
  step (Respond 1 (Rejected (JsError.mk "TypeError" "Failed to fetch"))) polling_page.

(** A presence event body as the server keys it: [String(userId)], which
    is the decimal numeral for a safe integer, to an object with a
    [status], which may be missing. *)
Definition presence_entries (entries : list (Z * option string))
  : list (string * option (option string)) :=
  map (λ '(userId, status), (pretty userId, Some status)) entries.

(** [setPresence(userId, status || "offline")] for each entry in turn. *)
Definition set_statuses (entries : list (Z * option string))
    (cast : gmap Z CastMember.t) : gmap Z CastMember.t :=
  foldl (λ cast '(userId, status),
           setPresence (Some userId) (status_or_offline status) cast)
        cast entries.

(** ** The users store ([createUsersStore]) *)

(** [new Map(userList.map((u) => [Number(u.user_id), u]))]: the entries
    are set in order, so a later one replaces an earlier one of its key. *)
Definition users_initialize (userList : list UserInfo.t) : gmap Z UserInfo.t :=
  foldl (λ map u, <[UserInfo.user_id u := u]> map) ∅ userList.

Definition getUser (users : gmap Z UserInfo.t) (userId : Z) : option UserInfo.t :=
  users !! userId.

(** Whether a recipients value names a user or a group: [user_ids?.length]
    or [group_ids?.length] is truthy. *)
Definition names_someone (recipients : Nullish Whisper.t) : bool :=
  match recipients with
  | JsVal r =>
      match Whisper.user_ids r, Whisper.group_ids r with
      | Some (_ :: _), _ => true
      | _, Some (_ :: _) => true
      | _, _ => false
      end
  | _ => false
  end.
(** * Properties *)

(** ** Sorting and deduplication *)

Section sort_facts.
Implicit Types (m : Msg.t) (l : list Msg.t) (k : Z).

Lemma insert_by_id_perm m l : insert_by_id m l ≡ₚ m :: l.
Proof.
  induction l as [|x l IH]; simpl; [done|].
  case_decide; [done|]. rewrite IH. apply Permutation_swap.
Qed.

Lemma sort_by_id_perm l : sort_by_id l ≡ₚ l.
Proof.
  induction l as [|x l IH]; simpl; [done|].
  fold (sort_by_id l). by rewrite insert_by_id_perm, IH.
Qed.

Lemma insert_by_id_sorted m l :
  sorted_by_id l → sorted_by_id (insert_by_id m l).
Proof.
  unfold sorted_by_id. induction l as [|x l IH]; simpl; intros Hs.
  - repeat constructor.
  - apply StronglySorted_cons in Hs as [Hx Hl]. case_decide.
    + apply StronglySorted_cons. split.
      * constructor; [done|].
        eapply Forall_impl; [exact Hx|]. simpl. intros; lia.
      * by apply StronglySorted_cons.
    + apply StronglySorted_cons. split; [|by apply IH].
      rewrite insert_by_id_perm. constructor; [lia|done].
Qed.

Lemma sort_by_id_sorted l : sorted_by_id (sort_by_id l).
Proof.
  induction l as [|x l IH]; simpl.
  - constructor.
  - by apply insert_by_id_sorted.
Qed.

(** Stability: sorting keeps the messages of one id in their order. *)
Lemma copies_insert_by_id k m l :
  copies k (insert_by_id m l) = copies k (m :: l).
Proof.
  unfold copies. induction l as [|x l IH]; simpl; [done|].
  case_decide as Hle; [done|].
  rewrite (filter_cons _ x), IH, !filter_cons.
  repeat case_decide; try done; lia.
Qed.

Lemma copies_sort_by_id k l : copies k (sort_by_id l) = copies k l.
Proof.
  induction l as [|x l IH]; simpl; [done|]. fold (sort_by_id l).
  rewrite copies_insert_by_id. unfold copies in *.
  by rewrite !filter_cons, IH.
Qed.

Lemma sort_by_id_fixed l : sorted_by_id l → sort_by_id l = l.
Proof.
  unfold sorted_by_id. induction l as [|x l IH]; simpl; [done|].
  intros [Hx Hl]%StronglySorted_cons. fold (sort_by_id l). rewrite IH by done.
  destruct l as [|y l]; simpl; [done|].
  apply Forall_cons in Hx as [? _]. by rewrite decide_True.
Qed.

Lemma dedup_seen_sublist seen l : dedup_seen seen l `sublist_of` l.
Proof.
  revert seen. induction l as [|x l IH]; intros seen; simpl; [done|].
  case_decide; [by apply sublist_cons|by apply sublist_skip].
Qed.

Lemma sorted_by_id_sublist l1 l2 :
  l1 `sublist_of` l2 → sorted_by_id l2 → sorted_by_id l1.
Proof.
  unfold sorted_by_id. induction 1 as [|x l1 l2 Hsub IH|x l1 l2 Hsub IH].
  - done.
  - intros [Hx Hl]%StronglySorted_cons. apply StronglySorted_cons. split.
    + eapply Forall_forall. intros y Hy.
      eapply Forall_forall in Hx; [exact Hx|]. by eapply elem_of_sublist.
    + by apply IH.
  - intros [_ Hl]%StronglySorted_cons. by apply IH.
Qed.

Lemma dedup_seen_ids seen l m :
  m ∈ dedup_seen seen l → Msg.id m ∉ seen.
Proof.
  revert seen. induction l as [|x l IH]; intros seen; simpl.
  - by intros ?%elem_of_nil.
  - case_decide as Hin; [by apply IH|].
    intros [->|Hm]%elem_of_cons; [done|].
    apply IH in Hm. set_solver.
Qed.

Lemma dedup_seen_NoDup seen l : NoDup (Msg.id <$> dedup_seen seen l).
Proof.
  revert seen. induction l as [|x l IH]; intros seen; simpl.
  - constructor.
  - case_decide; [by apply IH|]. rewrite fmap_cons. constructor; [|by apply IH].
    intros (m & Heq & Hm)%list_elem_of_fmap.
    apply dedup_seen_ids in Hm. set_solver.
Qed.

(** Deduplication keeps, of each id not seen before, the first copy. *)
Lemma copies_dedup_seen k seen l :
  copies k (dedup_seen seen l) =
    if decide (k ∈ seen) then [] else take 1 (copies k l).
Proof.
  unfold copies. revert seen. induction l as [|x l IH]; intros seen; simpl.
  - by case_decide.
  - destruct (decide (Msg.id x ∈ seen)) as [Hin|Hin].
    + rewrite IH, filter_cons. repeat case_decide; subst; done.
    + rewrite !filter_cons, IH.
      destruct (decide (Msg.id x = k)) as [Hk|Hne].
      * subst k. rewrite decide_True by (apply elem_of_union; left; by apply elem_of_singleton).
        rewrite decide_False by done. done.
      * destruct (decide (k ∈ seen)).
        -- rewrite decide_True by (apply elem_of_union; by right). done.
        -- rewrite decide_False; [done|].
           intros [Hk%elem_of_singleton|Hk]%elem_of_union; congruence.
Qed.
End sort_facts.

(** ** The message store *)

Section store_facts.
Implicit Types (m msg : Msg.t) (s l msgs : list Msg.t) (k : Z).

Lemma addMessage_sorted msg s : sorted_by_id (addMessage msg s).
Proof. apply sort_by_id_sorted. Qed.

Lemma addMessage_elem msg s : msg ∈ addMessage msg s.
Proof.
  unfold addMessage. rewrite sort_by_id_perm. apply elem_of_app. right.
  by apply list_elem_of_singleton.
Qed.

Lemma copies_addMessage k msg s :
  copies k (addMessage msg s) = copies k s ++ copies k [msg].
Proof.
  unfold addMessage. rewrite copies_sort_by_id. unfold copies.
  by rewrite filter_app.
Qed.

Lemma addMessages_sorted msgs s : sorted_by_id (addMessages msgs s).
Proof.
  eapply sorted_by_id_sublist; [apply dedup_seen_sublist|].
  apply sort_by_id_sorted.
Qed.

Lemma prependMessages_sorted msgs s : sorted_by_id (prependMessages msgs s).
Proof.
  eapply sorted_by_id_sublist; [apply dedup_seen_sublist|].
  apply sort_by_id_sorted.
Qed.

Lemma copies_addMessages k msgs s :
  copies k (addMessages msgs s) = take 1 (copies k s ++ copies k msgs).
Proof.
  unfold addMessages. rewrite copies_dedup_seen, decide_False by set_solver.
  rewrite copies_sort_by_id. unfold copies. by rewrite filter_app.
Qed.

Lemma copies_prependMessages k msgs s :
  copies k (prependMessages msgs s) = take 1 (copies k msgs ++ copies k s).
Proof.
  unfold prependMessages. rewrite copies_dedup_seen, decide_False by set_solver.
  rewrite copies_sort_by_id. unfold copies. by rewrite filter_app.
Qed.

Lemma sorted_by_id_map (f : Msg.t → Msg.t) l :
  (∀ m, Msg.id (f m) = Msg.id m) → sorted_by_id l → sorted_by_id (map f l).
Proof.
  intros Hf. unfold sorted_by_id. induction l as [|x l IH]; simpl; [done|].
  intros [Hx Hl]%StronglySorted_cons. apply StronglySorted_cons. split.
  - apply Forall_forall. intros y (z & -> & Hz)%list_elem_of_fmap.
    rewrite !Hf. eapply Forall_forall in Hx; [exact Hx|done].
  - by apply IH.
Qed.

Lemma spread_id m u : Upd.id u = None → Msg.id (spread m u) = Msg.id m.
Proof. intros Hu. simpl. by rewrite Hu. Qed.

Lemma updateMessage_sorted id u s :
  Upd.id u = None → sorted_by_id s → sorted_by_id (updateMessage id u s).
Proof.
  intros Hu. apply sorted_by_id_map. intros m.
  case_decide; [by apply spread_id|done].
Qed.

Lemma markAsRead_sorted id s : sorted_by_id s → sorted_by_id (markAsRead id s).
Proof. apply sorted_by_id_map. intros m. by case_decide. Qed.

Lemma removeMessage_sorted id s : sorted_by_id s → sorted_by_id (removeMessage id s).
Proof. apply sorted_by_id_sublist, sublist_filter. Qed.

Lemma apply_op_sorted op s :
  keeps_id op = true → sorted_by_id s → sorted_by_id (apply_op op s).
Proof.
  destruct op; simpl; intros Hk Hs.
  - apply addMessage_sorted.
  - apply addMessages_sorted.
  - apply prependMessages_sorted.
  - apply updateMessage_sorted; [|done]. by apply bool_decide_eq_true in Hk.
  - by apply removeMessage_sorted.
  - by apply markAsRead_sorted.
Qed.

Lemma apply_ops_sorted ops s :
  forallb keeps_id ops = true → sorted_by_id s → sorted_by_id (apply_ops ops s).
Proof.
  revert s. induction ops as [|op ops IH]; intros s; simpl; [done|].
  intros [Hop Hops]%andb_prop Hs. apply IH; [done|]. by apply apply_op_sorted.
Qed.

Lemma spread_update_fields m event :
  same_but_patched m (spread m (update_fields event)).
Proof. by destruct m. Qed.

Lemma updateMessage_pointwise id event s :
  Forall2 (λ m m', same_but_patched m m' ∧ (Some (Msg.id m) ≠ id → m' = m))
          s (updateMessage id (update_fields event) s).
Proof.
  induction s as [|x s IH]; simpl; constructor; [|exact IH].
  case_decide as Hid.
  - split; [apply spread_update_fields|]. by intros [].
  - split; [by destruct x|done].
Qed.

Lemma updateMessage_absent id u s :
  (∀ m, m ∈ s → Some (Msg.id m) ≠ id) → updateMessage id u s = s.
Proof.
  induction s as [|x s IH]; simpl; intros Hs; [done|].
  rewrite decide_False by (apply Hs; left). f_equal. apply IH.
  intros m Hm. apply Hs. by right.
Qed.
End store_facts.

(** C10, as the code has it.  From the empty store, any sequence of
    [addMessage], [addMessages], [prependMessages], [updateMessage] (with a
    patch that has no [id] key), [removeMessage] and [markAsRead] leaves the
    list in non-decreasing order of id.  After [addMessages] and after
    [prependMessages] the list has at most one message per id.  On a
    collision [addMessages] keeps the first copy that was in the store;
    [prependMessages] keeps the first copy among the incoming messages, and
    keeps a stored copy only for an id that no incoming message has. *)
Theorem message_store_sorted_and_deduplicated :
  (∀ ops, forallb keeps_id ops = true → sorted_by_id (apply_ops ops []))
  ∧ (∀ msgs s, NoDup (Msg.id <$> addMessages msgs s)
               ∧ NoDup (Msg.id <$> prependMessages msgs s))
  ∧ (∀ msgs s m, head (copies (Msg.id m) s) = Some m →
                 copies (Msg.id m) (addMessages msgs s) = [m])
  ∧ (∀ msgs s m, head (copies (Msg.id m) msgs) = Some m →
                 copies (Msg.id m) (prependMessages msgs s) = [m])
  ∧ (∀ msgs s m, copies (Msg.id m) msgs = [] →
                 head (copies (Msg.id m) s) = Some m →
                 copies (Msg.id m) (prependMessages msgs s) = [m]).
Proof.
  split; [|split; [|split; [|split]]].
  - intros ops Hops. apply apply_ops_sorted; [done|]. constructor.
  - intros msgs s. split; apply dedup_seen_NoDup.
  - intros msgs s m [l Hl]%head_Some.
    by rewrite copies_addMessages, Hl.
  - intros msgs s m [l Hl]%head_Some.
    by rewrite copies_prependMessages, Hl.
  - intros msgs s m Hnone [l Hl]%head_Some.
    by rewrite copies_prependMessages, Hnone, Hl.
Qed.

Lemma message_store_sorted_and_deduplicated_witness :
  sorted_by_id
    (apply_ops [OpAddMessage (example_msg 5 "e"); OpAddMessage (example_msg 3 "c");
                OpUpdateMessage (Some 3) (update_fields (bare_event 1 "update_message"));
                OpPrependMessages [example_msg 4 "d"]; OpRemoveMessage 5;
                OpMarkAsRead 3] [])
  ∧ copies 3 (addMessages [example_msg 3 "new"] [example_msg 3 "old"])
    = [example_msg 3 "old"]
  ∧ copies 3 (prependMessages [example_msg 3 "new"] [example_msg 3 "old"])
    = [example_msg 3 "new"]
  ∧ copies 4 (prependMessages [example_msg 3 "new"] [example_msg 4 "old"])
    = [example_msg 4 "old"].
Proof.
  destruct message_store_sorted_and_deduplicated as (H1 & _ & H3 & H4 & H5).
  split; [apply H1; reflexivity|].
  split; [apply (H3 _ _ (example_msg 3 "old")); reflexivity|].
  split; [apply (H4 _ _ (example_msg 3 "new")); reflexivity|].
  apply (H5 _ _ (example_msg 4 "old")); reflexivity.
Defined.

(** C10 as stated fails for [prependMessages]: with a message of id 1 in
    the store, prepending another message of id 1 replaces the stored
    copy. *)
Lemma prependMessages_replaces_stored_copy :
  example_msg 1 "old" ∈ apply_ops [OpAddMessage (example_msg 1 "old")] []
  ∧ Msg.id (example_msg 1 "new") = Msg.id (example_msg 1 "old")
  ∧ apply_ops [OpAddMessage (example_msg 1 "old");
               OpPrependMessages [example_msg 1 "new"]] []
    = [example_msg 1 "new"]
  ∧ example_msg 1 "old"
    ∉ apply_ops [OpAddMessage (example_msg 1 "old");
                 OpPrependMessages [example_msg 1 "new"]] [].
Proof.
  assert (apply_ops [OpAddMessage (example_msg 1 "old");
                     OpPrependMessages [example_msg 1 "new"]] []
          = [example_msg 1 "new"]) as Hrun by reflexivity.
  rewrite Hrun. split; [apply (addMessage_elem (example_msg 1 "old") [])|].
  split; [done|]. split; [done|].
  intros Hin%list_elem_of_singleton.
  apply (f_equal Msg.content) in Hin. discriminate Hin.
Qed.

(** ** Message events *)

(** [not_lowered] is a preorder. *)
#[global] Instance not_lowered_refl : Reflexive not_lowered.
Proof. intros [x|]; simpl; [lia|done]. Qed.

#[global] Instance not_lowered_trans : Transitive not_lowered.
Proof. intros [x|] [y|] [z|]; simpl; try done. lia. Qed.

Section dispatch_facts.
Implicit Types (event : Ev.t) (w : World).

Lemma dispatchEvent_message event w :
  Ev.type event = "message" →
  dispatchEvent event w = handleMessageEvent event (log_dispatch event w).
Proof. intros H. unfold dispatchEvent. by rewrite H. Qed.

Lemma dispatchEvent_update_message event w :
  Ev.type event = "update_message" →
  dispatchEvent event w = handleUpdateMessageEvent event (log_dispatch event w).
Proof. intros H. unfold dispatchEvent. by rewrite H. Qed.

Lemma for_each_stable {A B} (f : World → B)
    (body : A → World → World * Completion) xs w :
  (∀ x w, f (body x w).1 = f w) → f (for_each body xs w).1 = f w.
Proof.
  intros Hbody. revert w. induction xs as [|x xs IH]; intros w; simpl; [done|].
  specialize (Hbody x w). destruct (body x w) as [w' [|e]]; simpl in *.
  - by rewrite IH.
  - done.
Qed.

Lemma clearTypistTimeout_control key userId w :
  control (clearTypistTimeout key userId w) = control w.
Proof. unfold clearTypistTimeout. by case_match. Qed.

Lemma removeTypist_control key userId w :
  control (removeTypist key userId w) = control w.
Proof.
  unfold removeTypist.
  transitivity (control (clearTypistTimeout key userId w));
    [done|apply clearTypistTimeout_control].
Qed.

Lemma addTypist_control key typist w :
  control (addTypist key typist w) = control w.
Proof.
  unfold addTypist, setTypistTimeout.
  transitivity (control (clearTypistTimeout key (Typist.user_id typist)
                           (update_typing (add_to_map key typist) w)));
    [done|by rewrite clearTypistTimeout_control].
Qed.

Lemma handleMessageEvent_control event w :
  control (handleMessageEvent event w).1 = control w.
Proof. unfold handleMessageEvent. by case_match. Qed.

Lemma handleUpdateMessageEvent_control event w :
  control (handleUpdateMessageEvent event w).1 = control w.
Proof. unfold handleUpdateMessageEvent. by case_match. Qed.

Lemma handleDeleteMessageEvent_control event w :
  control (handleDeleteMessageEvent event w).1 = control w.
Proof.
  unfold handleDeleteMessageEvent. case_match; [|done].
  by apply for_each_stable.
Qed.

Lemma handleTypingEvent_control event w :
  control (handleTypingEvent event w).1 = control w.
Proof.
  unfold handleTypingEvent. repeat case_match; simpl; try done.
  - apply addTypist_control.
  - apply removeTypist_control.
Qed.

Lemma handlePresenceEvent_control event w :
  control (handlePresenceEvent event w).1 = control w.
Proof.
  unfold handlePresenceEvent. case_match; [|done].
  apply for_each_stable. intros [userIdStr [st|]] w'; done.
Qed.

Lemma dispatchEvent_control event w :
  control (dispatchEvent event w).1 = control (log_dispatch event w).
Proof.
  unfold dispatchEvent. repeat case_decide.
  - by rewrite handleMessageEvent_control.
  - by rewrite handleUpdateMessageEvent_control.
  - by rewrite handleDeleteMessageEvent_control.
  - by rewrite handleTypingEvent_control.
  - by rewrite handlePresenceEvent_control.
  - done.
Qed.

Lemma for_each_normal {A} (body : A → World → World * Completion) xs w :
  (∀ x w, (body x w).2 = Normal) → (for_each body xs w).2 = Normal.
Proof.
  intros Hbody. revert w. induction xs as [|x xs IH]; intros w; simpl; [done|].
  specialize (Hbody x w). destruct (body x w) as [w' [|e]]; simpl in *; [|done].
  apply IH.
Qed.

Lemma for_each_app {A} (body : A → World → World * Completion) xs ys w :
  for_each body (xs ++ ys) w
  = match for_each body xs w with
    | (w', Normal) => for_each body ys w'
    | (w', Throw e) => (w', Throw e)
    end.
Proof.
  revert w. induction xs as [|x xs IH]; intros w; simpl; [done|].
  destruct (body x w) as [w' [|e]]; [apply IH|done].
Qed.

Lemma presence_entries_normal entries w :
  (for_each
     (λ '(userIdStr, data) w,
        match data with
        | None =>
            (w, Throw (TypeError
              "Cannot read properties of null (reading 'status')"))
        | Some st =>
            (update_presence
               (setPresence (parseInt userIdStr) (status_or_offline st)) w,
             Normal)
        end) entries w).2 = Normal
  ↔ forallb (λ entry : string * option (option string),
               bool_decide (is_Some entry.2)) entries = true.
Proof.
  revert w. induction entries as [|[k [st|]] entries IH]; intros w; simpl.
  - done.
  - by rewrite IH.
  - split; done.
Qed.

(** A handler throws exactly on the events that are not well formed. *)
Lemma dispatchEvent_normal_iff event w :
  (dispatchEvent event w).2 = Normal ↔ well_formed event = true.
Proof.
  unfold dispatchEvent, well_formed.
  destruct (decide (Ev.type event = "message")) as [Ht|_].
  { unfold handleMessageEvent. destruct (Ev.message event); simpl; split; done. }
  destruct (decide (Ev.type event = "update_message")) as [Ht|_].
  { rewrite Ht. unfold handleUpdateMessageEvent. case_match; simpl; split; done. }
  destruct (decide (Ev.type event = "delete_message")) as [Ht|_].
  { unfold handleDeleteMessageEvent. destruct (Ev.message_ids event); simpl.
    - split; [done|]. intros _. by apply for_each_normal.
    - split; done. }
  destruct (decide (Ev.type event = "typing")) as [Ht|_].
  { rewrite Ht. unfold handleTypingEvent. repeat case_match; simpl; split; done. }
  destruct (decide (Ev.type event = "presence")) as [Ht|_]; [|done].
  unfold handlePresenceEvent. destruct (Ev.presence event); simpl; [|done].
  apply presence_entries_normal.
Qed.

Lemma deliver_control event w :
  control (deliver event w).1
  = control (log_dispatch event
               (set_lastEventId
                  (Math_max (Handler.lastEventId (handler w)) (Ev.id event)) w)).
Proof. unfold deliver. by rewrite dispatchEvent_control. Qed.

Lemma Math_max_not_lowered base id : not_lowered base (Math_max base id).
Proof. destruct base as [x|], id as [y|]; simpl; try done. lia. Qed.

Lemma max_id_le base events : not_lowered base (max_id base events).
Proof.
  revert base. induction events as [|e events IH]; intros base; simpl; [done|].
  etransitivity; [|apply IH]. apply Math_max_not_lowered.
Qed.

Lemma max_id_app base xs ys :
  max_id base (xs ++ ys) = max_id (max_id base xs) ys.
Proof. unfold max_id. apply foldl_app. Qed.

(** A batch of well-formed events is delivered to the end. *)
Lemma deliver_all events w :
  forallb well_formed events = true →
  ∃ w', for_each deliver events w = (w', Normal)
    ∧ handler w'
      = handler (set_lastEventId (max_id (Handler.lastEventId (handler w)) events) w)
    ∧ Trace.dispatched (trace w') = Trace.dispatched (trace w) ++ events
    ∧ Trace.fetched (trace w') = Trace.fetched (trace w)
    ∧ Trace.console (trace w') = Trace.console (trace w)
    ∧ Page.inflight (page w') = Page.inflight (page w)
    ∧ Page.next_request (page w') = Page.next_request (page w)
    ∧ Page.reloaded (page w') = Page.reloaded (page w).
Proof.
  revert w. induction events as [|e events IH]; intros w; simpl.
  - intros _. exists w. rewrite app_nil_r. by destruct w as [[] ? ? ?].
  - intros [He Hes]%andb_prop.
    pose proof (proj2 (dispatchEvent_normal_iff e
      (set_lastEventId (Math_max (Handler.lastEventId (handler w)) (Ev.id e)) w)) He)
      as Hn.
    pose proof (deliver_control e w) as Hc. unfold deliver in *.
    destruct (dispatchEvent e _) as [w1 c]; simpl in *. subst c.
    destruct (IH w1 Hes) as (w' & -> & Hh & Hd & Hf & Hco & Hi & Hr & Hl).
    exists w'. split; [done|]. unfold control in Hc.
    injection Hc as Hc1 Hc2 Hc3 Hc4 Hc5.
    rewrite Hh, Hd, Hf, Hco, Hi, Hr, Hl, Hc1, Hc2, Hc3, Hc4, Hc5. simpl.
    by rewrite <- app_assoc.
Qed.

(** Whatever the batch, the loop only raises [lastEventId], dispatches a
    prefix of the batch, and leaves the rest of the control state alone. *)
Lemma deliver_any events w :
  ∃ n, (n ≤ length events)%nat
    ∧ handler (for_each deliver events w).1
      = handler (set_lastEventId
                   (max_id (Handler.lastEventId (handler w)) (take n events)) w)
    ∧ Trace.dispatched (trace (for_each deliver events w).1)
      = Trace.dispatched (trace w) ++ take n events
    ∧ Trace.fetched (trace (for_each deliver events w).1) = Trace.fetched (trace w)
    ∧ Trace.console (trace (for_each deliver events w).1) = Trace.console (trace w)
    ∧ Page.inflight (page (for_each deliver events w).1) = Page.inflight (page w)
    ∧ Page.next_request (page (for_each deliver events w).1)
      = Page.next_request (page w)
    ∧ Page.reloaded (page (for_each deliver events w).1) = Page.reloaded (page w).
Proof.
  revert w. induction events as [|e events IH]; intros w; simpl.
  - exists 0%nat. simpl. rewrite app_nil_r. by destruct w as [[] ? ? ?].
  - pose proof (deliver_control e w) as Hc.
    destruct (deliver e w) as [w1 [|err]]; simpl in *;
      unfold control in Hc; injection Hc as Hc1 Hc2 Hc3 Hc4 Hc5.
    + destruct (IH w1) as (n & Hn & Hh & Hd & Hf & Hco & Hi & Hr & Hl).
      exists (S n). split; [lia|].
      rewrite Hh, Hd, Hf, Hco, Hi, Hr, Hl, Hc1, Hc2, Hc3, Hc4, Hc5. simpl.
      by rewrite <- app_assoc.
    + exists 1%nat. split; [lia|].
      rewrite Hc1, Hc2, Hc3, Hc4, Hc5. simpl. by rewrite take_0.
Qed.
End dispatch_facts.

(** C1, as the code has it.  [handleMessageEvent] applies no visibility
    test: for every [message] event that carries a message, the converted
    message is added to the store, whoever the local viewer is and whatever
    the recipients are. *)
Theorem message_event_always_stored (event : Ev.t) (raw : Raw.t) (w : World) :
  Ev.type event = "message" →
  Ev.message event = Some raw →
  ∃ w', dispatchEvent event w = (w', Normal)
        ∧ Stores.messages (stores w')
          = addMessage (toTheaterMessage (Stores.users (stores w)) raw)
                       (Stores.messages (stores w))
        ∧ toTheaterMessage (Stores.users (stores w)) raw ∈ Stores.messages (stores w').
Proof.
  intros Htype Hmsg. rewrite dispatchEvent_message by done.
  unfold handleMessageEvent. rewrite Hmsg. eexists. split; [done|].
  split; [done|]. apply addMessage_elem.
Qed.

Lemma message_event_always_stored_witness :
  ∃ w', dispatchEvent (message_event 9 (example_raw 1 7 "hello" JsNull)) (initial ∅)
        = (w', Normal)
        ∧ Stores.messages (stores w') = addMessage (example_msg 1 "hello") []
        ∧ example_msg 1 "hello" ∈ Stores.messages (stores w').
Proof.
  apply (message_event_always_stored
           (message_event 9 (example_raw 1 7 "hello" JsNull))
           (example_raw 1 7 "hello" JsNull) (initial ∅)); reflexivity.
Defined.

(** C1 as stated fails: a whisper from user 7 to user 10 is not visible to
    viewer 99, and the handler stores it all the same. *)
Lemma invisible_message_is_stored :
  visible_to (Directory.mk (λ _, None) (λ _ _, None) (λ _, None)) 99
    (toTheaterMessage ∅
       (example_raw 1 7 "secret" (JsVal (Whisper.mk (Some [10]) None))))
  = false
  ∧ toTheaterMessage ∅
      (example_raw 1 7 "secret" (JsVal (Whisper.mk (Some [10]) None)))
    ∈ Stores.messages
        (stores
           (dispatchEvent
              (message_event 9
                 (example_raw 1 7 "secret" (JsVal (Whisper.mk (Some [10]) None))))
              (initial ∅)).1).
Proof.
  split; [reflexivity|]. apply (addMessage_elem _ []).
Qed.

(** C3 on the code: the same [message] event delivered twice leaves two
    more copies of its message in the store, not one. *)
Theorem message_event_twice_stores_two_copies
    (event : Ev.t) (raw : Raw.t) (w : World) :
  Ev.type event = "message" →
  Ev.message event = Some raw →
  copies (Raw.id raw)
    (Stores.messages (stores (dispatchEvent event (dispatchEvent event w).1).1))
  = copies (Raw.id raw) (Stores.messages (stores w))
    ++ [toTheaterMessage (Stores.users (stores w)) raw;
        toTheaterMessage (Stores.users (stores w)) raw].
Proof.
  intros Htype Hmsg. rewrite !dispatchEvent_message by done.
  unfold handleMessageEvent. rewrite Hmsg. simpl.
  rewrite !copies_addMessage, <- app_assoc. f_equal.
  unfold copies. rewrite !filter_cons, !filter_nil.
  by rewrite decide_True.
Qed.

Lemma message_event_twice_stores_two_copies_witness :
  copies 1
    (Stores.messages
       (stores (dispatchEvent (message_event 9 (example_raw 1 7 "hello" JsNull))
                  (dispatchEvent (message_event 9 (example_raw 1 7 "hello" JsNull))
                                 (initial ∅)).1).1))
  = [example_msg 1 "hello"; example_msg 1 "hello"].
Proof.
  apply (message_event_twice_stores_two_copies
           (message_event 9 (example_raw 1 7 "hello" JsNull))
           (example_raw 1 7 "hello" JsNull) (initial ∅)); reflexivity.
Defined.

(** C8.  An [update_message] event completes normally and writes the
    message list only.  Position by position the stored message stays what
    it was up to [content], [rendered_content] and [topic], and stays
    exactly what it was unless its id is the event's [message_id]; when no
    stored message has that id the list is unchanged. *)
Theorem update_message_event_frame (event : Ev.t) (w : World) :
  Ev.type event = "update_message" →
  ∃ w', dispatchEvent event w = (w', Normal)
    ∧ handler w' = handler w
    ∧ page w' = page w
    ∧ Stores.typing (stores w') = Stores.typing (stores w)
    ∧ Stores.timeouts (stores w') = Stores.timeouts (stores w)
    ∧ Stores.presence (stores w') = Stores.presence (stores w)
    ∧ Stores.users (stores w') = Stores.users (stores w)
    ∧ Forall2 (λ m m', same_but_patched m m'
                       ∧ (Some (Msg.id m) ≠ Ev.message_id event → m' = m))
              (Stores.messages (stores w)) (Stores.messages (stores w'))
    ∧ ((∀ m, m ∈ Stores.messages (stores w) → Some (Msg.id m) ≠ Ev.message_id event)
       → Stores.messages (stores w') = Stores.messages (stores w)).
Proof.
  intros Htype. rewrite dispatchEvent_update_message by done.
  unfold handleUpdateMessageEvent. destruct (Upd.has_keys (update_fields event)).
  - eexists. split; [done|]. repeat (split; [done|]). simpl. split.
    + apply updateMessage_pointwise.
    + apply updateMessage_absent.
  - eexists. split; [done|]. repeat (split; [done|]). simpl. split; [|done].
    apply Forall2_same_length_lookup. split; [done|].
    intros i m m' Hm Hm'. assert (m' = m) as -> by congruence.
    split; [by destruct m|done].
Qed.

Lemma update_message_event_frame_witness :
  ∃ w', dispatchEvent (update_event 9 2 "edited")
          (with_messages [example_msg 1 "one"; example_msg 2 "two"]) = (w', Normal)
    ∧ Forall2 (λ m m', same_but_patched m m' ∧ (Some (Msg.id m) ≠ Some 2 → m' = m))
              [example_msg 1 "one"; example_msg 2 "two"]
              (Stores.messages (stores w')).
Proof.
  destruct (update_message_event_frame (update_event 9 2 "edited")
              (with_messages [example_msg 1 "one"; example_msg 2 "two"]) eq_refl)
    as (w' & Hrun & _ & _ & _ & _ & _ & _ & Hall & _).
  exists w'. split; [exact Hrun|exact Hall].
Defined.

(** C9.  [toTheaterMessage] marks a message as a whisper exactly when its
    [whisper_recipients] is neither [null] nor [undefined]; for an object,
    the empty one included, it returns a message with [isWhisper] set, the
    recipients kept and a label, and the [message] event that carries it
    completes normally and stores that message. *)
Theorem present_whisper_recipients_is_whisper
    (users : gmap Z UserInfo.t) (raw : Raw.t) (r : Whisper.t) :
  Raw.whisper_recipients raw = JsVal r →
  Msg.isWhisper (toTheaterMessage users raw) = true
  ∧ Msg.whisper_recipients (toTheaterMessage users raw) = JsVal r
  ∧ Msg.whisperRecipientsText (toTheaterMessage users raw)
    = Some (formatWhisperRecipientsWithNames users (JsVal r))
  ∧ (r = Whisper.mk None None ∨ r = Whisper.mk (Some []) (Some []) →
     Msg.whisperRecipientsText (toTheaterMessage users raw) = Some "whisper")
  ∧ ∀ id w, (dispatchEvent (message_event id raw) w).2 = Normal
            ∧ toTheaterMessage (Stores.users (stores w)) raw
              ∈ Stores.messages (stores (dispatchEvent (message_event id raw) w).1).
Proof.
  intros Hr. unfold toTheaterMessage at 1 2 3 4. simpl. rewrite Hr. simpl.
  repeat (split; [done|]). split.
  - by intros [-> | ->].
  - intros id w. split; [done|]. apply addMessage_elem.
Qed.

Lemma present_whisper_recipients_is_whisper_witness :
  Msg.isWhisper
    (toTheaterMessage ∅ (example_raw 1 7 "psst" (JsVal (Whisper.mk None None))))
  = true
  ∧ Msg.whisperRecipientsText
      (toTheaterMessage ∅ (example_raw 1 7 "psst" (JsVal (Whisper.mk None None))))
    = Some "whisper".
Proof.
  destruct (present_whisper_recipients_is_whisper ∅
              (example_raw 1 7 "psst" (JsVal (Whisper.mk None None)))
              (Whisper.mk None None) eq_refl) as (H1 & _ & _ & H4 & _).
  split; [exact H1|]. apply H4. by left.
Defined.

(** Conversely, without recipients the message is no whisper. *)
Lemma absent_whisper_recipients_is_no_whisper
    (users : gmap Z UserInfo.t) (raw : Raw.t) :
  Raw.whisper_recipients raw = JsNull ∨ Raw.whisper_recipients raw = JsUndefined →
  Msg.isWhisper (toTheaterMessage users raw) = false
  ∧ Msg.whisper_recipients (toTheaterMessage users raw) = JsNull
  ∧ Msg.whisperRecipientsText (toTheaterMessage users raw) = None.
Proof. intros [Hr|Hr]; simpl; by rewrite Hr. Qed.

(** Under the resolver of the spec, a whisper with no recipients is visible
    to its sender and to nobody else. *)
Lemma empty_whisper_visible_to_sender_only
    (dir : Directory.t) (users : gmap Z UserInfo.t) (raw : Raw.t) (viewer : Z) :
  Raw.whisper_recipients raw = JsVal (Whisper.mk None None)
  ∨ Raw.whisper_recipients raw = JsVal (Whisper.mk (Some []) (Some [])) →
  visible_to dir viewer (toTheaterMessage users raw)
  = bool_decide (viewer = Raw.sender_id raw).
Proof.
  intros [Hr|Hr]; unfold visible_to, recipients_of; simpl; rewrite Hr; simpl;
    rewrite !orb_false_r; apply bool_decide_ext; set_solver.
Qed.

(** ** The poll loop *)

Section poll_facts.
Implicit Types (event : Ev.t) (w : World) (o : PollOutcome).

Lemma poll_lastEventId w : lastEventId (poll w) = lastEventId w.
Proof. unfold poll, fetch. by repeat case_match. Qed.

Lemma poll_catch_lastEventId error w :
  lastEventId (poll_catch error w) = lastEventId w.
Proof. unfold poll_catch, setTimeout. by repeat case_match. Qed.

Lemma poll_catch_fetched error w : fetched (poll_catch error w) = fetched w.
Proof. unfold poll_catch, setTimeout. by repeat case_match. Qed.

Lemma poll_catch_dispatched error w :
  dispatched (poll_catch error w) = dispatched w.
Proof. unfold poll_catch, setTimeout. by repeat case_match. Qed.

Lemma poll_dispatched w : dispatched (poll w) = dispatched w.
Proof. unfold poll, fetch. by repeat case_match. Qed.

Lemma deliver_all_lastEventId events w :
  forallb well_formed events = true →
  lastEventId (for_each deliver events w).1 = max_id (lastEventId w) events.
Proof.
  intros (w' & Hrun & Hh & _)%(deliver_all _ w). rewrite Hrun. simpl.
  unfold lastEventId. by rewrite Hh.
Qed.

Lemma deliver_any_lastEventId events w :
  not_lowered (lastEventId w) (lastEventId (for_each deliver events w).1).
Proof.
  destruct (deliver_any events w) as (n & _ & Hh & _).
  unfold lastEventId. rewrite Hh. simpl. apply max_id_le.
Qed.

(** One answer, whatever it is, never lowers [lastEventId]. *)
Lemma poll_response_lastEventId_le o w :
  not_lowered (lastEventId w) (lastEventId (poll_response o w)).
Proof.
  destruct o as [error|status body]; simpl.
  - by rewrite poll_catch_lastEventId.
  - destruct (ok status); simpl.
    + destruct body as [| |events].
      * by rewrite poll_catch_lastEventId.
      * by rewrite poll_catch_lastEventId.
      * pose proof (deliver_any_lastEventId (default [] events) w) as Hle.
        destruct (for_each deliver (default [] events) w) as [w' [|error]];
          simpl in Hle.
        -- case_match; [by rewrite poll_lastEventId|done].
        -- by rewrite poll_catch_lastEventId.
    + case_decide; [done|by rewrite poll_catch_lastEventId].
Qed.

Lemma poll_response_batch status events w :
  ok status = true →
  forallb well_formed events = true →
  ∃ w', for_each deliver events w = (w', Normal)
    ∧ poll_response (Response status (JsonObject (Some events))) w
      = if Handler.isPolling (handler w') then poll w' else w'.
Proof.
  intros Hok Hwf. destruct (deliver_all events w Hwf) as (w' & Hrun & _).
  exists w'. split; [done|]. simpl. by rewrite Hok, Hrun.
Qed.
End poll_facts.

Lemma poll_response_batch_effect (status : Z) (events : list Ev.t) (w : World) :
  ok status = true →
  forallb well_formed events = true →
  dispatched (poll_response (Response status (JsonObject (Some events))) w)
  = dispatched w ++ events
  ∧ lastEventId (poll_response (Response status (JsonObject (Some events))) w)
    = max_id (lastEventId w) events.
Proof.
  intros Hok Hwf.
  destruct (poll_response_batch status events w Hok Hwf) as (w' & Hrun & ->).
  destruct (deliver_all events w Hwf) as (w2 & Hrun2 & Hh & Hd & _).
  assert (w2 = w') as -> by congruence.
  split.
  - case_match; [rewrite poll_dispatched|]; exact Hd.
  - case_match; [rewrite poll_lastEventId|]; unfold lastEventId; by rewrite Hh.
Qed.

(** C2, as the code has it.  The loop over [data.events] does not sort: a
    batch of well-formed events is dispatched once each in the order of
    arrival, and afterwards [lastEventId] is the [Math.max] of its old value
    and the ids of the batch. *)
Theorem batch_dispatched_in_arrival_order
    (status : Z) (events : list Ev.t) (w : World) :
  ok status = true →
  forallb well_formed events = true →
  dispatched (poll_response (Response status (JsonObject (Some events))) w)
  = dispatched w ++ events
  ∧ lastEventId (poll_response (Response status (JsonObject (Some events))) w)
    = max_id (lastEventId w) events.
Proof. apply poll_response_batch_effect. Qed.

Lemma batch_dispatched_in_arrival_order_witness :
  Ev.id <$> dispatched
    (poll_response
       (Response 200 (JsonObject (Some [bare_event 5 "heartbeat";
                                        bare_event 3 "heartbeat";
                                        bare_event 4 "heartbeat"])))
       polling_page)
  = [Some 5; Some 3; Some 4]
  ∧ lastEventId
      (poll_response
         (Response 200 (JsonObject (Some [bare_event 5 "heartbeat";
                                          bare_event 3 "heartbeat";
                                          bare_event 4 "heartbeat"])))
         polling_page)
    = Num 5.
Proof.
  destruct (batch_dispatched_in_arrival_order 200
              [bare_event 5 "heartbeat"; bare_event 3 "heartbeat";
               bare_event 4 "heartbeat"] polling_page eq_refl eq_refl)
    as [Hd Hl].
  split; [by rewrite Hd|by rewrite Hl].
Defined.

(** C2 as stated fails: a batch that arrives with the ids 5, 3, 4 is
    dispatched in that order, which is not ascending. *)
Lemma batch_not_sorted_before_dispatch :
  Ev.id <$> dispatched
    (step (Respond 1 (batch_response [bare_event 5 "heartbeat";
                                      bare_event 3 "heartbeat";
                                      bare_event 4 "heartbeat"]))
          polling_page)
  = [Some 5; Some 3; Some 4]
  ∧ ¬ StronglySorted Z.le
        (omap Ev.id (dispatched
           (step (Respond 1 (batch_response [bare_event 5 "heartbeat";
                                             bare_event 3 "heartbeat";
                                             bare_event 4 "heartbeat"]))
                 polling_page))).
Proof.
  assert (dispatched
            (step (Respond 1 (batch_response [bare_event 5 "heartbeat";
                                              bare_event 3 "heartbeat";
                                              bare_event 4 "heartbeat"]))
                  polling_page)
          = [bare_event 5 "heartbeat"; bare_event 3 "heartbeat";
             bare_event 4 "heartbeat"]) as -> by (vm_compute; reflexivity).
  split; [done|]. simpl.
  intros [Hall _]%StronglySorted_cons.
  apply Forall_cons in Hall as [Hle _]. lia.
Qed.

Section loop_facts.
Implicit Types (w : World) (i : Input).

Lemma control_lastEventId w w' :
  control w' = control w → lastEventId w' = lastEventId w.
Proof.
  intros Hc. exact (f_equal (λ c, Handler.lastEventId c.1.1.1.1) Hc).
Qed.

Lemma removeTypist_lastEventId key userId w :
  lastEventId (removeTypist key userId w) = lastEventId w.
Proof. apply control_lastEventId, removeTypist_control. Qed.

Lemma addTypist_lastEventId key typist w :
  lastEventId (addTypist key typist w) = lastEventId w.
Proof. apply control_lastEventId, addTypist_control. Qed.

Lemma run_callback_lastEventId cb w :
  lastEventId (run_callback cb w) = lastEventId w.
Proof.
  destruct cb; simpl; [apply removeTypist_lastEventId|apply poll_lastEventId].
Qed.

Lemma run_timers_lastEventId fuel t w :
  lastEventId (run_timers fuel t w) = lastEventId w.
Proof.
  revert w. induction fuel as [|fuel IH]; intros w; simpl; [done|].
  destruct (next_due t (Page.timers (page w))) as [[h [deadline cb]]|]; [|done].
  by rewrite IH, run_callback_lastEventId.
Qed.

Lemma elapse_lastEventId dt w : lastEventId (elapse dt w) = lastEventId w.
Proof.
  unfold elapse.
  transitivity (lastEventId (run_timers (size (Page.timers (page w)))
                               (Page.clock (page w) + Z.max 0 dt) w));
    [done|apply run_timers_lastEventId].
Qed.

Lemma cleanupEventHandler_lastEventId w :
  lastEventId (cleanupEventHandler w) = lastEventId w.
Proof. unfold cleanupEventHandler, fetch. by repeat case_match. Qed.

Lemma step_lastEventId_le i w :
  same_queue i = true → not_lowered (lastEventId w) (lastEventId (step i w)).
Proof.
  intros Hi. unfold step. destruct (Page.reloaded (page w)); [done|].
  destruct i as [rid o|dt|q e| |key typist|key userId]; try done.
  - case_decide; [|done].
    etransitivity; [|apply poll_response_lastEventId_le]. done.
  - by rewrite elapse_lastEventId.
  - by rewrite cleanupEventHandler_lastEventId.
  - by rewrite addTypist_lastEventId.
  - by rewrite removeTypist_lastEventId.
Qed.

Lemma run_lastEventId_le inputs w :
  forallb same_queue inputs = true →
  not_lowered (lastEventId w) (lastEventId (run inputs w)).
Proof.
  revert w. induction inputs as [|i inputs IH]; intros w; simpl; [done|].
  intros [Hi His]%andb_prop.
  etransitivity; [by apply step_lastEventId_le|by apply IH].
Qed.

(** After [window.location.reload()] nothing runs. *)
Lemma run_reloaded inputs w :
  Page.reloaded (page w) = true → run inputs w = w.
Proof.
  intros Hr. induction inputs as [|i inputs IH]; [done|].
  change (run inputs (step i w) = w).
  replace (step i w) with w; [exact IH|]. unfold step. by rewrite Hr.
Qed.
End loop_facts.

(** While every event delivered has its id, [lastEventId] stays a number. *)
Lemma max_id_number (x : Z) (events : list Ev.t) :
  Forall (λ event, is_Some (Ev.id event)) events →
  ∃ y, max_id (Num x) events = Num y.
Proof.
  intros Hall. revert x. induction Hall as [|e events [id He] _ IH]; intros x.
  - by exists x.
  - simpl. rewrite He. simpl. apply IH.
Qed.

Lemma max_id_NaN (events : list Ev.t) : max_id NaN events = NaN.
Proof. induction events as [|e events IH]; [done|]. simpl. exact IH. Qed.

Lemma poll_response_number (o : PollOutcome) (w : World) (x : Z) :
  match o with
  | Response _ (JsonObject (Some events)) =>
      forallb (λ event, bool_decide (is_Some (Ev.id event))) events = true
  | _ => True
  end →
  lastEventId w = Num x →
  ∃ y, lastEventId (poll_response o w) = Num y.
Proof.
  intros Hids Hw.
  assert (∀ error, ∃ y, lastEventId (poll_catch error w) = Num y) as Hcatch.
  { intros error. exists x. by rewrite poll_catch_lastEventId. }
  destruct o as [error|status body]; simpl; [apply Hcatch|].
  destruct (ok status); simpl.
  - destruct body as [| |events]; try apply Hcatch.
    assert (Forall (λ event, is_Some (Ev.id event)) (default [] events))
      as Hall.
    { destruct events as [events|]; [|by constructor]. simpl.
      apply Forall_forall. intros event Hin.
      eapply forallb_forall in Hids; [|by apply list_elem_of_In].
      by apply bool_decide_eq_true in Hids. }
    destruct (deliver_any (default [] events) w) as (n & _ & Hh & _).
    destruct (max_id_number x (take n (default [] events))) as [y Hy];
      [by apply Forall_take|].
    assert (lastEventId (for_each deliver (default [] events) w).1 = Num y)
      as Hloop.
    { unfold lastEventId in *. rewrite Hh. simpl. by rewrite Hw. }
    destruct (for_each deliver (default [] events) w) as [w' [|error]];
      simpl in Hloop; exists y.
    + destruct (Handler.isPolling (handler w')); [|done].
      by rewrite poll_lastEventId.
    + by rewrite poll_catch_lastEventId.
  - case_decide; [by exists x|apply Hcatch].
Qed.

Lemma run_number (inputs : list Input) (w : World) (x : Z) :
  forallb same_queue inputs = true →
  forallb with_ids inputs = true →
  lastEventId w = Num x →
  ∃ y, lastEventId (run inputs w) = Num y ∧ x ≤ y.
Proof.
  intros Hsame Hids Hw.
  pose proof (run_lastEventId_le inputs w Hsame) as Hle.
  assert (∃ y, lastEventId (run inputs w) = Num y) as [y Hy].
  { clear Hle. revert w x Hw Hsame Hids.
    induction inputs as [|i inputs IH]; intros w x Hw Hsame Hids; simpl.
    { by exists x. }
    simpl in Hsame, Hids.
    apply andb_prop in Hsame as [Hi Hsame]. apply andb_prop in Hids as [Hid Hids].
    assert (∃ y, lastEventId (step i w) = Num y) as [y Hy].
    { unfold step. destruct (Page.reloaded (page w)); [by exists x|].
      destruct i as [rid o|dt|q e| |key typist|key userId]; try done.
      - case_decide; [|by exists x].
        apply (poll_response_number o _ x); [|done].
        by destruct o as [error|status [| |[events|]]].
      - exists x. by rewrite elapse_lastEventId.
      - exists x. by rewrite cleanupEventHandler_lastEventId.
      - exists x. by rewrite addTypist_lastEventId.
      - exists x. by rewrite removeTypist_lastEventId. }
    by apply (IH (step i w) y). }
  exists y. split; [done|]. by rewrite Hw, Hy in Hle.
Qed.

(** C4, as the code has it.  Over any sequence of answers, timer expiries
    and store calls that does not register a queue anew, [lastEventId] is
    a number that never decreases as long as every event delivered has its
    [id].  An event without [id] makes it [NaN], through [Math.max], and
    from [NaN] it never comes back to a number.  A rejected request, an
    answer that is not OK and a body that does not parse leave it
    unchanged; a batch of well-formed events makes it the [Math.max] of its
    old value and the ids of the batch. *)
Theorem lastEventId_monotone :
  (∀ inputs w x,
     forallb same_queue inputs = true → forallb with_ids inputs = true →
     lastEventId w = Num x →
     ∃ y, lastEventId (run inputs w) = Num y ∧ x ≤ y)
  ∧ (∀ inputs w, forallb same_queue inputs = true →
                 not_lowered (lastEventId w) (lastEventId (run inputs w)))
  ∧ (∀ o w, not_lowered (lastEventId w) (lastEventId (poll_response o w)))
  ∧ (∀ error w, lastEventId (poll_response (Rejected error) w) = lastEventId w)
  ∧ (∀ status body w, ok status = false →
       lastEventId (poll_response (Response status body) w) = lastEventId w)
  ∧ (∀ status w,
       lastEventId (poll_response (Response status NotJson) w) = lastEventId w)
  ∧ (∀ status events w, ok status = true → forallb well_formed events = true →
       lastEventId (poll_response (Response status (JsonObject (Some events))) w)
       = max_id (lastEventId w) events).
Proof.
  split; [exact run_number|].
  split; [exact run_lastEventId_le|].
  split; [exact poll_response_lastEventId_le|].
  split; [intros error w; apply poll_catch_lastEventId|].
  split; [|split].
  - intros status body w Hok. simpl. rewrite Hok. simpl.
    case_decide; [done|apply poll_catch_lastEventId].
  - intros status w. simpl. destruct (ok status); simpl.
    + apply poll_catch_lastEventId.
    + case_decide; [done|apply poll_catch_lastEventId].
  - intros status events w Hok Hwf.
    by apply poll_response_batch_effect.
Qed.

Lemma lastEventId_monotone_witness :
  (∃ y, lastEventId
          (run [Respond 1 (Rejected (TypeError "Failed to fetch")); Elapse 5000;
                Respond 2 (batch_response [bare_event 5 "heartbeat";
                                           bare_event 3 "heartbeat"]);
                Respond 3 (Response 502 NotJson); Elapse 5000;
                Respond 4 (batch_response [bare_event 4 "heartbeat"])]
               polling_page)
        = Num y ∧ 0 ≤ y)
  ∧ lastEventId (poll_response (Response 502 NotJson) polling_page)
    = lastEventId polling_page
  ∧ lastEventId
      (poll_response (Response 200 (JsonObject (Some [bare_event 5 "heartbeat";
                                                      bare_event 3 "heartbeat"])))
                     polling_page)
    = Num 5.
Proof.
  destruct lastEventId_monotone as (Hrun & _ & _ & _ & Hbad & _ & Hbatch).
  split; [apply Hrun; reflexivity|].
  split; [apply Hbad; reflexivity|].
  rewrite Hbatch by reflexivity. reflexivity.
Defined.

(** C4 as stated fails: a batch whose second event has no [id] leaves
    [lastEventId] at [NaN], which is not at least its old value 0 and is
    not the largest id seen, 5; the next poll asks with [NaN]. *)
Lemma lastEventId_lost_without_event_id :
  lastEventId polling_page = Num 0
  ∧ lastEventId
      (step (Respond 1 (batch_response [bare_event 5 "heartbeat";
                                        event_without_id "heartbeat"]))
            polling_page)
    = NaN
  ∧ ¬ number_le (lastEventId polling_page)
        (lastEventId
           (step (Respond 1 (batch_response [bare_event 5 "heartbeat";
                                             event_without_id "heartbeat"]))
                 polling_page))
  ∧ fetched
      (step (Respond 1 (batch_response [bare_event 5 "heartbeat";
                                        event_without_id "heartbeat"]))
            polling_page)
    = [GetEvents "queue-1" (Num 0); GetEvents "queue-1" NaN].
Proof.
  assert (lastEventId
            (step (Respond 1 (batch_response [bare_event 5 "heartbeat";
                                              event_without_id "heartbeat"]))
                  polling_page) = NaN) as Hnan by (vm_compute; reflexivity).
  split; [reflexivity|]. split; [exact Hnan|]. split.
  - rewrite Hnan. simpl. tauto.
  - vm_compute. reflexivity.
Qed.

(** The loop of the witness above, run: the rejected poll and the 502 are
    retried after five seconds with the same [last_event_id], and the
    batches raise it to 5, where it stays. *)
Example poll_loop_trace :
  fetched
    (run [Respond 1 (Rejected (TypeError "Failed to fetch")); Elapse 5000;
          Respond 2 (batch_response [bare_event 5 "heartbeat";
                                     bare_event 3 "heartbeat"]);
          Respond 3 (Response 502 NotJson); Elapse 5000;
          Respond 4 (batch_response [bare_event 4 "heartbeat"])]
         polling_page)
  = [GetEvents "queue-1" (Num 0); GetEvents "queue-1" (Num 0);
     GetEvents "queue-1" (Num 5); GetEvents "queue-1" (Num 5);
     GetEvents "queue-1" (Num 5)].
Proof. vm_compute. reflexivity. Qed.

(** C5.  When the awaited poll is answered with status 400, the handler
    logs, calls [window.location.reload()] and returns: it issues no
    request and sets no retry timer, its variables are unchanged, and
    whatever happens afterwards no request is issued again. *)
Theorem queue_expired_stops_polling
    (rid : positive) (body : Body) (w : World) (inputs : list Input) :
  Page.reloaded (page w) = false →
  rid ∈ Page.inflight (page w) →
  fetched (step (Respond rid (Response 400 body)) w) = fetched w
  ∧ Page.timers (page (step (Respond rid (Response 400 body)) w))
    = Page.timers (page w)
  ∧ Page.inflight (page (step (Respond rid (Response 400 body)) w))
    = Page.inflight (page w) ∖ {[rid]}
  ∧ handler (step (Respond rid (Response 400 body)) w) = handler w
  ∧ console (step (Respond rid (Response 400 body)) w)
    = console w ++ ["Event queue expired, reloading..."]
  ∧ Page.reloaded (page (step (Respond rid (Response 400 body)) w)) = true
  ∧ fetched (run inputs (step (Respond rid (Response 400 body)) w)) = fetched w.
Proof.
  intros Hr Hin.
  assert (step (Respond rid (Response 400 body)) w
          = reload (console_error "Event queue expired, reloading..."
                      (update_inflight (λ s, s ∖ {[rid]}) w))) as Hstep.
  { unfold step. rewrite Hr. by rewrite decide_True. }
  rewrite run_reloaded by (by rewrite Hstep). by rewrite Hstep.
Qed.

Lemma queue_expired_stops_polling_witness :
  fetched (step (Respond 1 (Response 400 NotJson)) polling_page)
  = [GetEvents "queue-1" (Num 0)]
  ∧ Page.reloaded (page (step (Respond 1 (Response 400 NotJson)) polling_page))
    = true
  ∧ fetched (run [Elapse 5000; Initialize "queue-1" 0; Elapse 60000]
                 (step (Respond 1 (Response 400 NotJson)) polling_page))
    = [GetEvents "queue-1" (Num 0)].
Proof.
  destruct (queue_expired_stops_polling 1 NotJson polling_page
              [Elapse 5000; Initialize "queue-1" 0; Elapse 60000])
    as (H1 & _ & _ & _ & _ & H6 & H7).
  - reflexivity.
  - vm_compute. reflexivity.
  - split; [exact H1|]. split; [exact H6|exact H7].
Defined.

(** Nor would [startPolling] poll the expired queue again: [isPolling]
    is still set. *)
Lemma startPolling_while_polling (w : World) :
  isPolling w = true → startPolling w = w.
Proof.
  unfold isPolling, startPolling. intros ->. by case_match.
Qed.

(** ** Malformed events *)

Section malformed_facts.
Implicit Types (event : Ev.t) (w : World).

Lemma presence_entries_throw entries w error :
  (for_each
     (λ '(userIdStr, data) w,
        match data with
        | None =>
            (w, Throw (TypeError
              "Cannot read properties of null (reading 'status')"))
        | Some st =>
            (update_presence
               (setPresence (parseInt userIdStr) (status_or_offline st)) w,
             Normal)
        end) entries w).2 = Throw error →
  JsError.name error = "TypeError".
Proof.
  revert w. induction entries as [|[k [st|]] entries IH]; intros w; simpl.
  - done.
  - apply IH.
  - by intros [= <-].
Qed.

(** What a handler throws is a [TypeError]. *)
Lemma dispatchEvent_throws_TypeError event w error :
  (dispatchEvent event w).2 = Throw error → JsError.name error = "TypeError".
Proof.
  unfold dispatchEvent.
  destruct (decide (Ev.type event = "message")) as [Ht|_].
  { unfold handleMessageEvent. destruct (Ev.message event); simpl; [done|].
    by intros [= <-]. }
  destruct (decide (Ev.type event = "update_message")) as [Ht|_].
  { unfold handleUpdateMessageEvent. by case_match. }
  destruct (decide (Ev.type event = "delete_message")) as [Ht|_].
  { unfold handleDeleteMessageEvent. destruct (Ev.message_ids event); simpl.
    - by rewrite for_each_normal.
    - by intros [= <-]. }
  destruct (decide (Ev.type event = "typing")) as [Ht|_].
  { unfold handleTypingEvent. by repeat case_match. }
  destruct (decide (Ev.type event = "presence")) as [Ht|_]; [|done].
  unfold handlePresenceEvent. destruct (Ev.presence event); simpl; [|done].
  apply presence_entries_throw.
Qed.

Lemma poll_catch_error error w :
  JsError.name error = "TypeError" →
  poll_catch error w
  = let w' := console_error ("Event poll error: " +:+ JsError.message error) w in
    if Handler.isPolling (handler w) then (setTimeout CbPoll 5000 w').2 else w'.
Proof. intros Hn. unfold poll_catch. by rewrite Hn. Qed.
End malformed_facts.

(** C6, as the code has it.  The loop over the batch has no handler of its
    own: when an event that is not well formed follows well-formed ones,
    its [TypeError] ends the loop and reaches the [catch] of [poll].  The
    events before it and the event itself have been dispatched, the events
    after it are not; one line is logged, no request is issued, and while
    polling is on, a new poll is set to run after 5000 ms. *)
Theorem malformed_event_ends_batch
    (status : Z) (before after : list Ev.t) (bad : Ev.t) (w : World) :
  ok status = true →
  forallb well_formed before = true →
  well_formed bad = false →
  ∃ w1 w2 error,
    for_each deliver before w = (w1, Normal)
    ∧ deliver bad w1 = (w2, Throw error)
    ∧ JsError.name error = "TypeError"
    ∧ poll_response (Response status (JsonObject (Some (before ++ bad :: after)))) w
      = poll_catch error w2
    ∧ dispatched
        (poll_response (Response status (JsonObject (Some (before ++ bad :: after)))) w)
      = dispatched w ++ before ++ [bad]
    ∧ console
        (poll_response (Response status (JsonObject (Some (before ++ bad :: after)))) w)
      = console w ++ ["Event poll error: " +:+ JsError.message error]
    ∧ fetched
        (poll_response (Response status (JsonObject (Some (before ++ bad :: after)))) w)
      = fetched w
    ∧ stores
        (poll_response (Response status (JsonObject (Some (before ++ bad :: after)))) w)
      = stores w2
    ∧ Page.timers
        (page (poll_response
                 (Response status (JsonObject (Some (before ++ bad :: after)))) w))
      = if isPolling w
        then <[Page.next_timer (page w2) := (Page.clock (page w2) + 5000, CbPoll)]>
               (Page.timers (page w2))
        else Page.timers (page w2).
Proof.
  intros Hok Hwf Hbad.
  destruct (deliver_all before w Hwf)
    as (w1 & Hrun & Hh1 & Hd1 & Hf1 & Hc1 & _).
  pose proof (deliver_control bad w1) as Hctl.
  destruct (deliver bad w1) as [w2 c] eqn:Hdel.
  assert (∃ error, c = Throw error) as [error ->].
  { destruct c as [|error]; [|by eexists].
    assert ((deliver bad w1).2 = Normal) as Hn by (by rewrite Hdel).
    unfold deliver in Hn. apply dispatchEvent_normal_iff in Hn. congruence. }
  assert (JsError.name error = "TypeError") as Hname.
  { assert ((deliver bad w1).2 = Throw error) as Ht by (by rewrite Hdel).
    unfold deliver in Ht. by apply dispatchEvent_throws_TypeError in Ht. }
  exists w1, w2, error. split; [done|]. split; [done|]. split; [done|].
  assert (poll_response
            (Response status (JsonObject (Some (before ++ bad :: after)))) w
          = poll_catch error w2) as ->.
  { simpl. rewrite Hok. simpl. rewrite for_each_app, Hrun. simpl.
    by rewrite Hdel. }
  split; [done|].
  simpl in Hctl. unfold control in Hctl.
  injection Hctl as Hh2 Ht2 _ _ _.
  rewrite poll_catch_error by done. unfold isPolling.
  assert (Handler.isPolling (handler w2) = Handler.isPolling (handler w)) as ->.
  { by rewrite Hh2, Hh1. }
  unfold dispatched, console, fetched. cbv zeta.
  destruct (Handler.isPolling (handler w)); simpl; rewrite Ht2; simpl;
    rewrite Hd1, Hf1, Hc1, <- app_assoc; done.
Qed.

Lemma malformed_event_ends_batch_witness :
  dispatched
    (poll_response
       (Response 200
          (JsonObject (Some ([bare_event 5 "heartbeat"]
                             ++ bare_event 6 "message"
                             :: [message_event 7 (example_raw 1 7 "hello" JsNull)]))))
       polling_page)
  = [bare_event 5 "heartbeat"; bare_event 6 "message"]
  ∧ fetched
      (poll_response
         (Response 200
            (JsonObject (Some ([bare_event 5 "heartbeat"]
                               ++ bare_event 6 "message"
                               :: [message_event 7 (example_raw 1 7 "hello" JsNull)]))))
         polling_page)
    = [GetEvents "queue-1" (Num 0)].
Proof.
  destruct (malformed_event_ends_batch 200 [bare_event 5 "heartbeat"]
              [message_event 7 (example_raw 1 7 "hello" JsNull)]
              (bare_event 6 "message") polling_page eq_refl eq_refl eq_refl)
    as (w1 & w2 & error & _ & _ & _ & _ & Hd & _ & Hf & _).
  split; [exact Hd|exact Hf].
Defined.

(** C6 as stated fails: in a batch of a [message] event without a message
    and a sound [message] event after it, the second is never dispatched
    and its message is not stored. *)
Lemma malformed_event_halts_batch :
  dispatched
    (step (Respond 1
             (batch_response [bare_event 6 "message";
                              message_event 7 (example_raw 1 7 "hello" JsNull)]))
          polling_page)
  = [bare_event 6 "message"]
  ∧ Stores.messages
      (stores
         (step (Respond 1
                  (batch_response [bare_event 6 "message";
                                   message_event 7 (example_raw 1 7 "hello" JsNull)]))
               polling_page))
    = [].
Proof. split; vm_compute; reflexivity. Qed.

(** ** The typing store *)

Section timeout_keys.
Lemma has_colon_app s1 s2 :
  has_colon (s1 +:+ s2) = has_colon s1 || has_colon s2.
Proof.
  induction s1 as [|c s1 IH]; simpl; [done|]. by rewrite IH, orb_assoc.
Qed.

Lemma pretty_N_char_no_colon x : pretty_N_char x ≠ ":"%char.
Proof. unfold pretty_N_char. by repeat case_match. Qed.

Lemma pretty_N_go_no_colon x s :
  has_colon s = false → has_colon (pretty_N_go x s) = false.
Proof.
  revert s. induction (N.lt_wf_0 x) as [x _ IH]; intros s Hs.
  destruct (decide (0 < x)%N) as [Hx|Hx].
  - rewrite pretty_N_go_step by done. apply IH.
    + by apply N.div_lt.
    + simpl. rewrite Hs, orb_false_r.
      apply bool_decide_eq_false_2, pretty_N_char_no_colon.
  - assert (x = 0%N) as -> by lia. by rewrite pretty_N_go_0.
Qed.

Lemma pretty_N_no_colon (x : N) : has_colon (pretty x) = false.
Proof.
  unfold pretty, pretty_N. case_decide; [done|]. by apply pretty_N_go_no_colon.
Qed.

Lemma pretty_Z_no_colon (x : Z) : has_colon (pretty x) = false.
Proof.
  unfold pretty, pretty_Z. destruct x as [|p|p]; [done| |].
  - apply pretty_N_no_colon.
  - rewrite has_colon_app. simpl. apply pretty_N_no_colon.
Qed.

Lemma split_at_last_colon k1 k2 s1 s2 :
  has_colon s1 = false → has_colon s2 = false →
  k1 +:+ String ":" s1 = k2 +:+ String ":" s2 → k1 = k2 ∧ s1 = s2.
Proof.
  intros H1 H2. revert k2.
  induction k1 as [|c1 k1 IH]; intros [|c2 k2]; simpl.
  - by intros [= ->].
  - intros [= <- ->]. rewrite has_colon_app in H1. simpl in H1.
    by rewrite orb_true_r in H1.
  - intros [= -> <-]. rewrite has_colon_app in H2. simpl in H2.
    by rewrite orb_true_r in H2.
  - intros [= -> Heq]. by destruct (IH _ Heq) as [-> ->].
Qed.

(** A timeout key names one typist of one scene. *)
Lemma timeoutKey_inj key1 userId1 key2 userId2 :
  timeoutKey key1 userId1 = timeoutKey key2 userId2 →
  key1 = key2 ∧ userId1 = userId2.
Proof.
  unfold timeoutKey. intros Heq.
  apply (split_at_last_colon key1 key2 (pretty userId1) (pretty userId2))
    in Heq as [-> Hp]; [|apply pretty_Z_no_colon..].
  split; [done|]. by apply (inj pretty).
Qed.
End timeout_keys.

Section typing_facts.
Implicit Types (w : World) (key : string) (userId : Z) (typist : Typist.t).

Local Abbreviation timers w := (Page.timers (page w)).
Local Abbreviation timeouts w := (Stores.timeouts (stores w)).
Local Abbreviation typing w := (Stores.typing (stores w)).
Local Abbreviation next_timer w := (Page.next_timer (page w)).
Local Abbreviation clock w := (Page.clock (page w)).
Local Abbreviation reloaded w := (Page.reloaded (page w)).

(** What the three store functions write. *)
Lemma clearTypistTimeout_spec key userId w :
  timers (clearTypistTimeout key userId w)
  = match timeouts w !! timeoutKey key userId with
    | Some h => delete h (timers w)
    | None => timers w
    end
  ∧ timeouts (clearTypistTimeout key userId w)
    = delete (timeoutKey key userId) (timeouts w)
  ∧ typing (clearTypistTimeout key userId w) = typing w
  ∧ next_timer (clearTypistTimeout key userId w) = next_timer w
  ∧ clock (clearTypistTimeout key userId w) = clock w
  ∧ reloaded (clearTypistTimeout key userId w) = reloaded w.
Proof.
  unfold clearTypistTimeout.
  destruct (timeouts w !! timeoutKey key userId) as [h|] eqn:Hh; simpl.
  - done.
  - by rewrite delete_id.
Qed.

Lemma removeTypist_spec key userId w :
  timers (removeTypist key userId w)
  = match timeouts w !! timeoutKey key userId with
    | Some h => delete h (timers w)
    | None => timers w
    end
  ∧ timeouts (removeTypist key userId w)
    = delete (timeoutKey key userId) (timeouts w)
  ∧ typing (removeTypist key userId w) = remove_from_map key userId (typing w)
  ∧ next_timer (removeTypist key userId w) = next_timer w
  ∧ clock (removeTypist key userId w) = clock w
  ∧ reloaded (removeTypist key userId w) = reloaded w.
Proof.
  destruct (clearTypistTimeout_spec key userId w) as (H1 & H2 & H3 & H4 & H5 & H6).
  unfold removeTypist. simpl. by rewrite H1, H2, H3, H4, H5, H6.
Qed.

Lemma addTypist_spec key typist w :
  timers (addTypist key typist w)
  = <[next_timer w := (clock w + 15000, CbRemoveTypist key (Typist.user_id typist))]>
      (match timeouts w !! timeoutKey key (Typist.user_id typist) with
       | Some h => delete h (timers w)
       | None => timers w
       end)
  ∧ timeouts (addTypist key typist w)
    = <[timeoutKey key (Typist.user_id typist) := next_timer w]> (timeouts w)
  ∧ typing (addTypist key typist w) = add_to_map key typist (typing w)
  ∧ next_timer (addTypist key typist w) = Pos.succ (next_timer w)
  ∧ clock (addTypist key typist w) = clock w
  ∧ reloaded (addTypist key typist w) = reloaded w.
Proof.
  destruct (clearTypistTimeout_spec key (Typist.user_id typist)
              (update_typing (add_to_map key typist) w))
    as (H1 & H2 & H3 & H4 & H5 & H6).
  unfold addTypist, setTypistTimeout, setTimeout. simpl in *.
  rewrite H1, H2, H3, H4, H5, H6. by rewrite insert_delete_eq.
Qed.

Lemma poll_typing_frame w : typing_view (poll w) = typing_view w.
Proof. unfold poll, fetch. by repeat case_match. Qed.

(** The handle invariant is kept. *)
Lemma typing_ok_delete tk w w' :
  typing_ok w →
  timers w' = match timeouts w !! tk with
              | Some h => delete h (timers w)
              | None => timers w
              end →
  timeouts w' = delete tk (timeouts w) →
  next_timer w' = next_timer w →
  typing_ok w'.
Proof.
  intros (I1 & I2 & I4) HT HO HN. unfold typing_ok. rewrite HT, HO, HN.
  split; [|split].
  - intros h d key userId Hh.
    assert (timers w !! h = Some (d, CbRemoveTypist key userId)) as Hh'.
    { destruct (timeouts w !! tk); [|done].
      by apply lookup_delete_Some in Hh as [_ ?]. }
    pose proof (I1 _ _ _ _ Hh') as Hreg.
    destruct (decide (timeoutKey key userId = tk)) as [<-|Hne].
    + rewrite Hreg in Hh. by rewrite lookup_delete_eq in Hh.
    + by rewrite lookup_delete_ne.
  - intros tk' h [_ Hh]%lookup_delete_Some. by eapply I2.
  - intros tk1 tk2 h [_ H1]%lookup_delete_Some [_ H2]%lookup_delete_Some.
    by eapply I4.
Qed.

Lemma clearTypistTimeout_ok key userId w :
  typing_ok w → typing_ok (clearTypistTimeout key userId w).
Proof.
  intros Hok.
  destruct (clearTypistTimeout_spec key userId w) as (H1 & H2 & _ & H4 & _).
  by eapply typing_ok_delete.
Qed.

Lemma removeTypist_ok key userId w :
  typing_ok w → typing_ok (removeTypist key userId w).
Proof.
  intros Hok.
  destruct (removeTypist_spec key userId w) as (H1 & H2 & _ & H4 & _).
  by eapply typing_ok_delete.
Qed.

Lemma addTypist_ok key typist w :
  typing_ok w → typing_ok (addTypist key typist w).
Proof.
  intros Hok.
  pose proof (clearTypistTimeout_ok key (Typist.user_id typist) w Hok)
    as (I1 & I2 & I4).
  destruct (clearTypistTimeout_spec key (Typist.user_id typist) w)
    as (C1 & C2 & _ & C4 & _).
  destruct (addTypist_spec key typist w) as (H1 & H2 & _ & H4 & _).
  unfold typing_ok. rewrite H1, H2, H4.
  rewrite C1, C2, C4 in *. clear C1 C2 C4 H1 H2 H4.
  set (tk := timeoutKey key (Typist.user_id typist)) in *.
  split; [|split].
  - intros h d key' userId' Hh.
    destruct (decide (h = next_timer w)) as [->|Hne].
    + rewrite lookup_insert_eq in Hh. injection Hh as _ <- <-.
      by rewrite lookup_insert_eq.
    + rewrite lookup_insert_ne in Hh by done.
      apply I1 in Hh. apply lookup_delete_Some in Hh as [Htk Hh].
      by rewrite lookup_insert_ne.
  - intros tk' h Hh. destruct (decide (tk' = tk)) as [->|Hne].
    + rewrite lookup_insert_eq in Hh. injection Hh as <-. lia.
    + rewrite lookup_insert_ne in Hh by done.
      assert (h < next_timer w)%positive; [|lia].
      apply (I2 tk'). by rewrite lookup_delete_ne.
  - intros tk1 tk2 h Hh1 Hh2.
    assert (∀ tk', tk' ≠ tk → timeouts w !! tk' ≠ Some (next_timer w)) as Hfresh.
    { intros tk' Hne Hh. assert (next_timer w < next_timer w)%positive; [|lia].
      apply (I2 tk'). by rewrite lookup_delete_ne. }
    destruct (decide (tk1 = tk)) as [->|Hne1];
      destruct (decide (tk2 = tk)) as [->|Hne2]; [done| | |].
    + rewrite lookup_insert_eq in Hh1. injection Hh1 as <-.
      rewrite lookup_insert_ne in Hh2 by done. by destruct (Hfresh tk2).
    + rewrite lookup_insert_eq in Hh2. injection Hh2 as <-.
      rewrite lookup_insert_ne in Hh1 by done. by destruct (Hfresh tk1).
    + rewrite lookup_insert_ne in Hh1, Hh2 by done.
      apply (I4 tk1 tk2 h); by rewrite lookup_delete_ne.
Qed.
End typing_facts.

Section typist_lists.
Implicit Types (l : list Typist.t) (m : gmap string (list Typist.t)).

Lemma has_typist_app userId l1 l2 :
  has_typist userId (l1 ++ l2) = has_typist userId l1 || has_typist userId l2.
Proof. unfold has_typist. apply existsb_app. Qed.

Lemma has_typist_filter_ne userId userId' l :
  userId ≠ userId' →
  has_typist userId (filter (λ t, Typist.user_id t ≠ userId') l)
  = has_typist userId l.
Proof.
  intros Hne. induction l as [|t l IH]; simpl; [done|].
  rewrite filter_cons. case_decide as Ht; simpl.
  - by rewrite IH.
  - rewrite IH. rewrite bool_decide_eq_false_2; [done|]. congruence.
Qed.

Lemma has_typist_filter_eq userId l :
  has_typist userId (filter (λ t, Typist.user_id t ≠ userId) l) = false.
Proof.
  induction l as [|t l IH]; simpl; [done|].
  rewrite filter_cons. case_decide as Ht; simpl; [|done].
  by rewrite IH, bool_decide_eq_false_2.
Qed.

(** [userId] is listed under [key] in the map. *)
Lemma listed_add_same key typist m :
  has_typist (Typist.user_id typist) (default [] (add_to_map key typist m !! key))
  = true.
Proof.
  unfold add_to_map.
  destruct (has_typist (Typist.user_id typist) (default [] (m !! key))) eqn:Hhas.
  - done.
  - rewrite lookup_insert_eq. simpl. rewrite has_typist_app. simpl.
    by rewrite bool_decide_eq_true_2, orb_true_r.
Qed.

Lemma listed_add_other key userId key' typist m :
  ¬ (key' = key ∧ Typist.user_id typist = userId) →
  has_typist userId (default [] (add_to_map key' typist m !! key))
  = has_typist userId (default [] (m !! key)).
Proof.
  intros Hne. unfold add_to_map. case_match; [done|].
  destruct (decide (key' = key)) as [->|Hk].
  - rewrite lookup_insert_eq. simpl. rewrite has_typist_app. simpl.
    rewrite bool_decide_eq_false_2 by naive_solver. by rewrite !orb_false_r.
  - by rewrite lookup_insert_ne.
Qed.

Lemma listed_remove_same key userId m :
  has_typist userId (default [] (remove_from_map key userId m !! key)) = false.
Proof.
  unfold remove_from_map. destruct (m !! key) as [existing|] eqn:Hm.
  - case_decide.
    + by rewrite lookup_delete_eq.
    + rewrite lookup_insert_eq. simpl. apply has_typist_filter_eq.
  - by rewrite Hm.
Qed.

Lemma listed_remove_other key userId key' userId' m :
  ¬ (key' = key ∧ userId' = userId) →
  has_typist userId (default [] (remove_from_map key' userId' m !! key))
  = has_typist userId (default [] (m !! key)).
Proof.
  intros Hne. unfold remove_from_map.
  destruct (m !! key') as [existing|] eqn:Hm; [|done].
  destruct (decide (key' = key)) as [->|Hk].
  - assert (userId ≠ userId') as Hu by naive_solver.
    rewrite Hm. simpl. case_decide as Hlen.
    + rewrite lookup_delete_eq. simpl.
      rewrite <- (has_typist_filter_ne userId userId') by done.
      apply length_zero_iff_nil in Hlen. by rewrite Hlen.
    + rewrite lookup_insert_eq. simpl. by apply has_typist_filter_ne.
  - case_decide; [by rewrite lookup_delete_ne|by rewrite lookup_insert_ne].
Qed.

(** Removing never lists anybody. *)
Lemma listed_remove_false key userId key' userId' m :
  has_typist userId (default [] (m !! key)) = false →
  has_typist userId (default [] (remove_from_map key' userId' m !! key)) = false.
Proof.
  intros Hnot.
  destruct (decide (key' = key ∧ userId' = userId)) as [[-> ->]|Hne].
  - apply listed_remove_same.
  - by rewrite listed_remove_other.
Qed.
End typist_lists.

Section due_timers.
Implicit Types (timers : gmap positive (Z * TimerCallback)).

Lemma pick_due_Some t l x :
  foldr (pick_due t) None l = Some x → x ∈ l ∧ x.2.1 ≤ t.
Proof.
  revert x. induction l as [|y l IH]; intros x; simpl; [done|].
  unfold pick_due at 1. case_decide as Hy.
  - destruct (foldr (pick_due t) None l) as [z|].
    + destruct (IH z eq_refl) as [Hz Hzt]. case_match; intros [= <-].
      * split; [by left|done].
      * split; [by right|done].
    + intros [= <-]. split; [by left|done].
  - intros Hx. destruct (IH x Hx) as [? ?]. split; [by right|done].
Qed.

Lemma pick_due_None t l x :
  foldr (pick_due t) None l = None → x ∈ l → t < x.2.1.
Proof.
  induction l as [|y l IH]; simpl; [by intros _ ?%elem_of_nil|].
  unfold pick_due at 1. case_decide as Hy.
  - destruct (foldr (pick_due t) None l); [by case_match|done].
  - intros Hn [->|Hx]%elem_of_cons; [lia|by apply IH].
Qed.

Lemma next_due_Some t timers h d cb :
  next_due t timers = Some (h, (d, cb)) → timers !! h = Some (d, cb) ∧ d ≤ t.
Proof.
  intros [Hin Hd]%pick_due_Some. by apply elem_of_map_to_list in Hin.
Qed.

Lemma next_due_None t timers h d cb :
  next_due t timers = None → timers !! h = Some (d, cb) → t < d.
Proof.
  intros Hn Hh. apply (pick_due_None t _ (h, (d, cb)) Hn).
  by apply elem_of_map_to_list.
Qed.
End due_timers.

Section expiry.
Implicit Types (w : World) (key : string) (userId : Z).

Local Abbreviation timers w := (Page.timers (page w)).
Local Abbreviation timeouts w := (Stores.timeouts (stores w)).
Local Abbreviation typing w := (Stores.typing (stores w)).
Local Abbreviation next_timer w := (Page.next_timer (page w)).
Local Abbreviation clock w := (Page.clock (page w)).
Local Abbreviation reloaded w := (Page.reloaded (page w)).

(** One timer runs: it leaves the queue, and nothing enters it. *)
Lemma fire_spec w h d cb :
  typing_ok w →
  timers w !! h = Some (d, cb) →
  typing_ok (run_callback cb
               (update_timers (delete h) (set_clock (Z.max (clock w) d) w)))
  ∧ timers (run_callback cb
              (update_timers (delete h) (set_clock (Z.max (clock w) d) w)))
    = delete h (timers w)
  ∧ reloaded (run_callback cb
                (update_timers (delete h) (set_clock (Z.max (clock w) d) w)))
    = reloaded w
  ∧ typing (run_callback cb
              (update_timers (delete h) (set_clock (Z.max (clock w) d) w)))
    = match cb with
      | CbRemoveTypist key userId => remove_from_map key userId (typing w)
      | CbPoll => typing w
      end.
Proof.
  intros Hok Hh.
  set (w0 := update_timers (delete h) (set_clock (Z.max (clock w) d) w)).
  assert (typing_ok w0) as Hok0.
  { destruct Hok as (I1 & I2 & I4). split; [|split]; simpl.
    - intros h' d' key userId [_ Hh']%lookup_delete_Some. by eapply I1.
    - exact I2.
    - exact I4. }
  destruct cb as [key userId|]; unfold run_callback.
  - destruct (removeTypist_spec key userId w0) as (H1 & _ & H3 & _ & _ & H6).
    split; [by apply removeTypist_ok|]. rewrite H1, H3, H6.
    destruct Hok as (I1 & _).
    assert (timeouts w0 !! timeoutKey key userId = Some h) as -> by (by eapply I1).
    assert (timers w0 = delete h (timers w)) as -> by done.
    by rewrite delete_delete_eq.
  - pose proof (poll_typing_frame w0) as Hv. unfold typing_view in Hv.
    injection Hv as H1 H2 H3 H4 _ H6.
    split; [|by rewrite H1, H3, H6].
    destruct Hok0 as (I1 & I2 & I4). unfold typing_ok.
    by rewrite H1, H2, H4.
Qed.

(** The timers due at [t] all run; the typist's own timer runs exactly if
    its deadline has come, and then the typist is removed. *)
Lemma run_timers_spec key userId deadline fuel t w :
  typing_ok w →
  (size (timers w) ≤ fuel)%nat →
  typing_ok (run_timers fuel t w)
  ∧ reloaded (run_timers fuel t w) = reloaded w
  ∧ (armed key userId deadline w → t < deadline →
     armed key userId deadline (run_timers fuel t w))
  ∧ (armed key userId deadline w → deadline ≤ t →
     is_typing key userId (run_timers fuel t w) = false)
  ∧ (is_typing key userId w = false →
     is_typing key userId (run_timers fuel t w) = false).
Proof.
  revert w. induction fuel as [|fuel IH]; intros w Hok Hsize.
  - simpl. split; [done|]. split; [done|]. split; [done|]. split; [|done].
    intros [[h Hh] _] _.
    assert (timers w = ∅) as Hempty by (apply map_size_empty_inv; lia).
    rewrite Hempty in Hh. by rewrite lookup_empty in Hh.
  - simpl. destruct (next_due t (timers w)) as [[h [d cb]]|] eqn:Hdue.
    + apply next_due_Some in Hdue as [Hh Hd].
      destruct (fire_spec w h d cb Hok Hh) as (Hok1 & HT & HR & HM).
      set (w1 := run_callback cb
                   (update_timers (delete h) (set_clock (Z.max (clock w) d) w)))
        in *.
      assert (size (timers w1) ≤ fuel)%nat as Hsize1.
      { rewrite HT. pose proof (map_size_delete_Some h (timers w)) as Hs.
        rewrite Hs by eauto. lia. }
      destruct (IH w1 Hok1 Hsize1) as (Hok' & HR' & Harm & Hfire & Hgone).
      split; [done|]. split; [congruence|].
      assert (is_typing key userId w = false → is_typing key userId w1 = false)
        as Hgone1.
      { unfold is_typing, getTypists. rewrite HM. intros Hnot.
        destruct cb; [by apply listed_remove_false|done]. }
      assert (armed key userId deadline w →
              cb ≠ CbRemoveTypist key userId →
              armed key userId deadline w1) as Harm1.
      { intros [[h' Hh'] Hshown] Hcb. split.
        - exists h'. rewrite HT. rewrite lookup_delete_ne; [done|].
          intros ->. congruence.
        - unfold is_typing, getTypists in *. rewrite HM.
          destruct cb as [key' userId'|]; [|done].
          rewrite listed_remove_other; [done|]. intros [-> ->]. done. }
      assert (armed key userId deadline w →
              cb = CbRemoveTypist key userId →
              d = deadline ∧ is_typing key userId w1 = false) as Hself.
      { intros [[h' Hh'] _] ->. destruct Hok as (I1 & _).
        pose proof (I1 _ _ _ _ Hh) as E1. pose proof (I1 _ _ _ _ Hh') as E2.
        assert (h' = h) as -> by congruence. split; [congruence|].
        unfold is_typing, getTypists. rewrite HM. apply listed_remove_same. }
      split; [|split].
      * intros Ha Ht. apply Harm; [|done]. apply Harm1; [done|].
        intros Hcb. destruct (Hself Ha Hcb) as [-> _]. lia.
      * intros Ha Ht.
        destruct (decide (cb = CbRemoveTypist key userId)) as [Hcb|Hcb].
        -- apply Hgone. by apply Hself.
        -- apply Hfire; [by apply Harm1|done].
      * intros Hnot. by apply Hgone, Hgone1.
    + split; [done|]. split; [done|]. split; [done|]. split; [|done].
      intros [[h Hh] _] Ht. pose proof (next_due_None _ _ _ _ _ Hdue Hh). lia.
Qed.
Lemma elapse_clock dt w : clock (elapse dt w) = clock w + Z.max 0 dt.
Proof. done. Qed.

Lemma elapse_expiry key userId deadline dt w :
  expiry_state key userId deadline w →
  expiry_state key userId deadline (elapse dt w).
Proof.
  intros (Hok & Hr & Hcase).
  destruct (run_timers_spec key userId deadline (size (timers w))
              (clock w + Z.max 0 dt) w Hok (le_n _))
    as (Hok' & Hr' & Harm & Hfire & Hgone).
  unfold elapse. split; [exact Hok'|]. split; [by rewrite <- Hr|].
  destruct Hcase as [[Ha Hc]|[Hg Hc]].
  - destruct (decide (clock w + Z.max 0 dt < deadline)) as [Hlt|Hge].
    + left. split; [by apply Harm|done].
    + right. split; [apply Hfire; [done|lia]|simpl; lia].
  - right. split; [by apply Hgone|simpl; lia].
Qed.

Lemma addTypist_other_expiry key userId deadline key' typist w :
  ¬ (key' = key ∧ Typist.user_id typist = userId) →
  expiry_state key userId deadline w →
  expiry_state key userId deadline (addTypist key' typist w).
Proof.
  intros Hne (Hok & Hr & Hcase).
  destruct (addTypist_spec key' typist w) as (HT & HO & HM & HN & HC & HR).
  split; [by apply addTypist_ok|]. split; [by rewrite HR|].
  assert (is_typing key userId (addTypist key' typist w) = is_typing key userId w)
    as Hshown.
  { unfold is_typing, getTypists. rewrite HM. by apply listed_add_other. }
  rewrite HC. destruct Hcase as [[[[h Hh] Ha] Hc]|[Hg Hc]].
  - left. split; [|done]. split; [|by rewrite Hshown].
    exists h. rewrite HT. destruct Hok as (I1 & I2 & I4).
    pose proof (I1 _ _ _ _ Hh) as Hreg.
    rewrite lookup_insert_ne.
    2:{ apply I2 in Hreg. lia. }
    destruct (timeouts w !! timeoutKey key' (Typist.user_id typist))
      as [h'|] eqn:Hreg'; [|done].
    rewrite lookup_delete_ne; [done|]. intros ->.
    pose proof (I4 _ _ _ Hreg Hreg') as Hk. apply timeoutKey_inj in Hk.
    destruct Hk as [-> ->]. by apply Hne.
  - right. by rewrite Hshown.
Qed.

Lemma removeTypist_other_expiry key userId deadline key' userId' w :
  ¬ (key' = key ∧ userId' = userId) →
  expiry_state key userId deadline w →
  expiry_state key userId deadline (removeTypist key' userId' w).
Proof.
  intros Hne (Hok & Hr & Hcase).
  destruct (removeTypist_spec key' userId' w) as (HT & HO & HM & HN & HC & HR).
  split; [by apply removeTypist_ok|]. split; [by rewrite HR|].
  assert (is_typing key userId (removeTypist key' userId' w)
          = is_typing key userId w) as Hshown.
  { unfold is_typing, getTypists. rewrite HM. by apply listed_remove_other. }
  rewrite HC. destruct Hcase as [[[[h Hh] Ha] Hc]|[Hg Hc]].
  - left. split; [|done]. split; [|by rewrite Hshown].
    exists h. rewrite HT. destruct Hok as (I1 & I2 & I4).
    pose proof (I1 _ _ _ _ Hh) as Hreg.
    destruct (timeouts w !! timeoutKey key' userId') as [h'|] eqn:Hreg'; [|done].
    rewrite lookup_delete_ne; [done|]. intros ->.
    pose proof (I4 _ _ _ Hreg Hreg') as Hk. apply timeoutKey_inj in Hk.
    destruct Hk as [-> ->]. by apply Hne.
  - right. by rewrite Hshown.
Qed.

(** A typing start arms the expiry, 15000 ms from now, and only that one. *)
Lemma addTypist_arms key typist w :
  typing_ok w →
  reloaded w = false →
  expiry_state key (Typist.user_id typist) (clock w + 15000)
    (addTypist key typist w)
  ∧ timers (addTypist key typist w) !! next_timer w
    = Some (clock w + 15000, CbRemoveTypist key (Typist.user_id typist))
  ∧ ∀ h d, timers (addTypist key typist w) !! h
           = Some (d, CbRemoveTypist key (Typist.user_id typist)) →
           h = next_timer w ∧ d = clock w + 15000.
Proof.
  intros Hok Hr.
  destruct (addTypist_spec key typist w) as (HT & HO & HM & HN & HC & HR).
  pose proof (addTypist_ok key typist w Hok) as Hok'.
  assert (timers (addTypist key typist w) !! next_timer w
          = Some (clock w + 15000, CbRemoveTypist key (Typist.user_id typist)))
    as Hnew by (by rewrite HT, lookup_insert_eq).
  split; [|split; [done|]].
  - split; [done|]. split; [by rewrite HR|]. left. rewrite HC. split; [|lia].
    split; [by eexists|].
    unfold is_typing, getTypists. rewrite HM. apply listed_add_same.
  - intros h d Hh. destruct Hok' as (I1 & _).
    pose proof (I1 _ _ _ _ Hh) as E1. pose proof (I1 _ _ _ _ Hnew) as E2.
    assert (h = next_timer w) as -> by congruence. split; [done|congruence].
Qed.
End expiry.

Section views.
Implicit Types (w : World) (event : Ev.t).

Lemma typing_ok_view w w' :
  typing_view w' = typing_view w → typing_ok w → typing_ok w'.
Proof.
  unfold typing_view. intros [= H1 H2 _ H4 _ _]. unfold typing_ok.
  by rewrite H1, H2, H4.
Qed.

Lemma expiry_state_view key userId deadline w w' :
  typing_view w' = typing_view w →
  expiry_state key userId deadline w → expiry_state key userId deadline w'.
Proof.
  intros Hv (Hok & Hr & Hcase). split; [by eapply typing_ok_view|].
  unfold typing_view in Hv. injection Hv as H1 H2 H3 H4 H5 H6.
  unfold armed, is_typing, getTypists in *. by rewrite H1, H3, H5, H6.
Qed.

Lemma handleMessageEvent_view event w :
  typing_view (handleMessageEvent event w).1 = typing_view w.
Proof. unfold handleMessageEvent. by case_match. Qed.

Lemma handleUpdateMessageEvent_view event w :
  typing_view (handleUpdateMessageEvent event w).1 = typing_view w.
Proof. unfold handleUpdateMessageEvent. by case_match. Qed.

Lemma handleDeleteMessageEvent_view event w :
  typing_view (handleDeleteMessageEvent event w).1 = typing_view w.
Proof.
  unfold handleDeleteMessageEvent. case_match; [|done]. by apply for_each_stable.
Qed.

Lemma handlePresenceEvent_view event w :
  typing_view (handlePresenceEvent event w).1 = typing_view w.
Proof.
  unfold handlePresenceEvent. case_match; [|done].
  apply for_each_stable. intros [userIdStr [st|]] w'; done.
Qed.

Lemma cleanupEventHandler_view w :
  typing_view (cleanupEventHandler w) = typing_view w.
Proof. unfold cleanupEventHandler, fetch. by repeat case_match. Qed.

Lemma initializeEventHandler_view queueId initialEventId w :
  typing_view (initializeEventHandler queueId initialEventId w) = typing_view w.
Proof.
  unfold initializeEventHandler, startPolling. repeat case_match; try done.
  by rewrite poll_typing_frame.
Qed.

(** The retry timer of [poll] takes a fresh handle. *)
Lemma retry_ok w : typing_ok w → typing_ok (setTimeout CbPoll 5000 w).2.
Proof.
  intros (I1 & I2 & I4). split; [|split]; simpl.
  - intros h d key userId Hh.
    destruct (decide (h = Page.next_timer (page w))) as [->|Hne].
    + by rewrite lookup_insert_eq in Hh.
    + rewrite lookup_insert_ne in Hh by done. by eapply I1.
  - intros tk h Hh. apply I2 in Hh. lia.
  - exact I4.
Qed.

Lemma retry_expiry key userId deadline w :
  expiry_state key userId deadline w →
  expiry_state key userId deadline (setTimeout CbPoll 5000 w).2.
Proof.
  intros (Hok & Hr & Hcase). split; [by apply retry_ok|]. split; [done|].
  destruct Hcase as [[[[h Hh] Ha] Hc]|Hgone]; [left|by right].
  split; [|done]. split; [|done]. exists h. simpl.
  destruct Hok as (I1 & I2 & _).
  rewrite lookup_insert_ne; [done|]. apply I1, I2 in Hh. lia.
Qed.

Lemma elapse_ok dt w : typing_ok w → typing_ok (elapse dt w).
Proof.
  intros Hok.
  by destruct (run_timers_spec "" 0 0 (size (Page.timers (page w)))
                 (Page.clock (page w) + Z.max 0 dt) w Hok (le_n _)) as (Hok' & _).
Qed.
End views.

(** A property of the typing store that the store's own functions and the
    timers keep is kept by the whole event loop. *)
Section closure.
Variable P : World → Prop.
Variable Q : string → Z → Prop.
Variable may_reload : Prop.

Hypothesis P_view : ∀ w w', typing_view w' = typing_view w → P w → P w'.
Hypothesis P_add :
  ∀ key typist w, Q key (Typist.user_id typist) → P w → P (addTypist key typist w).
Hypothesis P_remove :
  ∀ key userId w, Q key userId → P w → P (removeTypist key userId w).
Hypothesis P_retry : ∀ w, P w → P (setTimeout CbPoll 5000 w).2.
Hypothesis P_elapse : ∀ dt w, P w → P (elapse dt w).
Hypothesis P_reload : ∀ w, may_reload → P w → P (reload w).

Local Abbreviation allowed_event := (allowed_event Q).
Local Abbreviation allowed_outcome := (allowed_outcome Q may_reload).
Local Abbreviation allowed_input := (allowed_input Q may_reload).

Lemma dispatchEvent_kept event w :
  allowed_event event → P w → P (dispatchEvent event w).1.
Proof.
  intros Hev Hw.
  assert (P (log_dispatch event w)) as Hw' by (by apply (P_view w)).
  unfold dispatchEvent.
  destruct (decide (Ev.type event = "message")) as [Ht|_].
  { eapply P_view; [apply handleMessageEvent_view|done]. }
  destruct (decide (Ev.type event = "update_message")) as [Ht|_].
  { eapply P_view; [apply handleUpdateMessageEvent_view|done]. }
  destruct (decide (Ev.type event = "delete_message")) as [Ht|_].
  { eapply P_view; [apply handleDeleteMessageEvent_view|done]. }
  destruct (decide (Ev.type event = "typing")) as [Ht|_].
  { unfold handleTypingEvent.
    destruct (decide (Ev.message_type event = Some "stream")) as [Hm|Hm].
    - rewrite bool_decide_eq_true_2 by done. simpl.
      destruct (Ev.sender event) as [sender|] eqn:Hs; [|done].
      specialize (Hev sender Ht Hm Hs).
      case_match; simpl; [by apply P_add|by apply P_remove].
    - by rewrite bool_decide_eq_false_2. }
  destruct (decide (Ev.type event = "presence")) as [Ht|_]; [|done].
  eapply P_view; [apply handlePresenceEvent_view|done].
Qed.

Lemma deliver_kept events w :
  Forall allowed_event events → P w → P (for_each deliver events w).1.
Proof.
  intros Hall. revert w. induction Hall as [|event events Hev Hall IH];
    intros w Hw; simpl; [done|].
  assert (P (deliver event w).1) as Hw'.
  { unfold deliver. apply dispatchEvent_kept; [done|]. by apply (P_view w). }
  destruct (deliver event w) as [w' [|error]]; simpl in *; [by apply IH|done].
Qed.

Lemma poll_kept w : P w → P (poll w).
Proof. apply P_view, poll_typing_frame. Qed.

Lemma poll_catch_kept error w : P w → P (poll_catch error w).
Proof.
  intros Hw. unfold poll_catch. case_decide; [done|].
  assert (P (console_error ("Event poll error: " +:+ JsError.message error) w))
    as Hw' by (by apply (P_view w)).
  case_match; [by apply P_retry|done].
Qed.

Lemma poll_response_kept o w : allowed_outcome o → P w → P (poll_response o w).
Proof.
  destruct o as [error|status body]; simpl.
  - intros _. apply poll_catch_kept.
  - intros [Hreload Hbody] Hw. destruct (ok status); simpl.
    + destruct body as [| |[events|]]; try by apply poll_catch_kept.
      * pose proof (deliver_kept events w Hbody Hw) as Hw'. simpl.
        destruct (for_each deliver events w) as [w' [|error]]; simpl in Hw'.
        -- case_match; [by apply poll_kept|done].
        -- by apply poll_catch_kept.
      * simpl. case_match; [by apply poll_kept|done].
    + case_decide.
      * apply P_reload; [by apply Hreload|]. by apply (P_view w).
      * by apply poll_catch_kept.
Qed.

Lemma step_kept i w : allowed_input i → P w → P (step i w).
Proof.
  intros Hi Hw. unfold step. destruct (Page.reloaded (page w)); [done|].
  destruct i as [rid o|dt|q e| |key typist|key userId]; simpl in Hi.
  - case_decide; [|done]. apply poll_response_kept; [done|]. by apply (P_view w).
  - by apply P_elapse.
  - eapply P_view; [apply initializeEventHandler_view|done].
  - eapply P_view; [apply cleanupEventHandler_view|done].
  - by apply P_add.
  - by apply P_remove.
Qed.

Lemma run_kept inputs w : Forall allowed_input inputs → P w → P (run inputs w).
Proof.
  intros Hall. revert w. induction Hall as [|i inputs Hi Hall IH];
    intros w Hw; simpl; [done|].
  apply IH. by apply step_kept.
Qed.
End closure.

(** The handle invariant holds of every world the loaded page can reach. *)
Lemma typing_ok_run (inputs : list Input) (w : World) :
  typing_ok w → typing_ok (run inputs w).
Proof.
  apply (run_kept typing_ok (λ _ _, True) True).
  - apply typing_ok_view.
  - intros key typist w' _. apply addTypist_ok.
  - intros key userId w' _. apply removeTypist_ok.
  - apply retry_ok.
  - apply elapse_ok.
  - by intros w' _ Hok.
  - apply Forall_forall. intros [rid [error|status [| |[events|]]]| | | | |] _;
      simpl; try done.
    split; [done|]. by apply Forall_forall.
Qed.

Lemma unrelated_event_allowed (key : string) (userId : Z) (event : Ev.t) :
  unrelated_event key userId event = true →
  allowed_event (λ key' userId', ¬ (key' = key ∧ userId' = userId)) event.
Proof.
  intros Hev%negb_true_iff%bool_decide_eq_false sender Ht Hm Hs [Hk Hu].
  apply Hev. rewrite Hs. simpl. by rewrite Hu.
Qed.

Lemma unrelated_allowed (key : string) (userId : Z) (i : Input) :
  unrelated key userId i = true →
  allowed_input (λ key' userId', ¬ (key' = key ∧ userId' = userId)) False i.
Proof.
  destruct i as [rid [error|status body]|dt|q e| |key' typist|key' userId'];
    simpl; try done.
  - intros [Hs%negb_true_iff%bool_decide_eq_false Hb]%andb_prop. split; [done|].
    destruct body as [| |[events|]]; try done.
    apply Forall_forall. intros event Hin. apply unrelated_event_allowed.
    by eapply forallb_forall in Hb; [|apply list_elem_of_In].
  - by intros ?%negb_true_iff%bool_decide_eq_false.
  - by intros ?%negb_true_iff%bool_decide_eq_false.
Qed.

Lemma run_expiry (key : string) (userId deadline : Z)
    (inputs : list Input) (w : World) :
  forallb (unrelated key userId) inputs = true →
  expiry_state key userId deadline w →
  expiry_state key userId deadline (run inputs w).
Proof.
  intros Hin.
  apply (run_kept (expiry_state key userId deadline)
           (λ key' userId', ¬ (key' = key ∧ userId' = userId)) False).
  - apply expiry_state_view.
  - intros key' typist w'. apply addTypist_other_expiry.
  - intros key' userId' w'. apply removeTypist_other_expiry.
  - apply retry_expiry.
  - apply elapse_expiry.
  - by intros w' [].
  - apply Forall_forall. intros i Hi. apply unrelated_allowed.
    by eapply forallb_forall in Hin; [|apply list_elem_of_In].
Qed.

(** A [typing] event with [op] "start" is a call of [addTypist]. *)
Lemma typing_start_is_addTypist (event : Ev.t) (sender : Sender.t) (w : World) :
  Ev.type event = "typing" →
  Ev.message_type event = Some "stream" →
  Ev.op event = Some "start" →
  Ev.sender event = Some sender →
  dispatchEvent event w
  = (addTypist (typing_key (Ev.stream_id event) (Ev.topic event))
       {| Typist.user_id := Sender.user_id sender;
          Typist.full_name := default "Someone" (Sender.full_name sender);
          Typist.persona_name := None |}
       (log_dispatch event w), Normal).
Proof.
  intros Ht Hm Ho Hs. unfold dispatchEvent. rewrite Ht. simpl.
  unfold handleTypingEvent. by rewrite Hm, Ho, Hs.
Qed.

Lemma batch_response_runs (events : list Ev.t) (w : World) :
  poll_response (batch_response events) w
  = match for_each deliver events w with
    | (w', Normal) => if Handler.isPolling (handler w') then poll w' else w'
    | (w', Throw error) => poll_catch error w'
    end.
Proof. reflexivity. Qed.

Section typing_start_facts.
Variables (key : string) (userId deadline now : Z).
Implicit Types (w : World) (event : Ev.t).

(** The expiry of the typist stands as [expiry_state] has it, and no time
    has passed. *)
Local Abbreviation pending_at w :=
  (expiry_state key userId deadline w ∧ Page.clock (page w) = now).

(** Neither is touched while a batch is handled. *)
Local Abbreviation ready_at w :=
  (typing_ok w ∧ Page.reloaded (page w) = false ∧ Page.clock (page w) = now).

Lemma view_clock w w' :
  typing_view w' = typing_view w →
  Page.clock (page w') = Page.clock (page w)
  ∧ Page.reloaded (page w') = Page.reloaded (page w).
Proof. unfold typing_view. by intros [= _ _ _ _ -> ->]. Qed.

Lemma deliver_ready events w :
  ready_at w → ready_at (for_each deliver events w).1.
Proof.
  apply (deliver_kept (λ w, ready_at w) (λ _ _, True)).
  - intros w1 w2 Hv (Hok & Hr & Hc). destruct (view_clock _ _ Hv) as [-> ->].
    split; [by apply (typing_ok_view w1)|done].
  - intros key' typist w1 _ (Hok & Hr & Hc).
    destruct (addTypist_spec key' typist w1) as (_ & _ & _ & _ & -> & ->).
    split; [by apply addTypist_ok|done].
  - intros key' userId' w1 _ (Hok & Hr & Hc).
    destruct (removeTypist_spec key' userId' w1) as (_ & _ & _ & _ & -> & ->).
    split; [by apply removeTypist_ok|done].
  - apply Forall_forall. by intros event _ sender _ _ _.
Qed.

Lemma pending_view w w' :
  typing_view w' = typing_view w → pending_at w → pending_at w'.
Proof.
  intros Hv [Hst Hc]. destruct (view_clock _ _ Hv) as [-> _].
  split; [by apply (expiry_state_view _ _ _ w)|done].
Qed.

Lemma deliver_pending events w :
  forallb (unrelated_event key userId) events = true →
  pending_at w → pending_at (for_each deliver events w).1.
Proof.
  intros Hev.
  apply (deliver_kept (λ w, pending_at w)
           (λ key' userId', ¬ (key' = key ∧ userId' = userId))).
  - intros w1 w2. apply pending_view.
  - intros key' typist w1 Hne [Hst Hc].
    destruct (addTypist_spec key' typist w1) as (_ & _ & _ & _ & -> & _).
    split; [by apply addTypist_other_expiry|done].
  - intros key' userId' w1 Hne [Hst Hc].
    destruct (removeTypist_spec key' userId' w1) as (_ & _ & _ & _ & -> & _).
    split; [by apply removeTypist_other_expiry|done].
  - apply Forall_forall. intros event Hin. apply unrelated_event_allowed.
    by eapply forallb_forall in Hev; [|apply list_elem_of_In].
Qed.

Lemma poll_pending w : pending_at w → pending_at (poll w).
Proof. apply pending_view, poll_typing_frame. Qed.

Lemma poll_catch_pending error w :
  pending_at w → pending_at (poll_catch error w).
Proof.
  intros [Hst Hc]. unfold poll_catch. case_decide; [done|].
  assert (pending_at
            (console_error ("Event poll error: " +:+ JsError.message error) w))
    as [Hst' Hc'] by (by apply (pending_view w)).
  case_match; [|done]. split; [by apply retry_expiry|done].
Qed.

(** A pending expiry is the only timer of its typist. *)
Lemma pending_timer w :
  pending_at w → now < deadline →
  is_typing key userId w = true
  ∧ ∃ h, ∀ h' d,
      Page.timers (page w) !! h' = Some (d, CbRemoveTypist key userId)
      ↔ h' = h ∧ d = deadline.
Proof.
  intros [(Hok & _ & Hcase) Hc] Hlt.
  destruct Hcase as [[[[h Hh] Ha] _]|[_ Hge]]; [|lia].
  split; [done|]. exists h. intros h' d. split; [|by intros [-> ->]].
  intros Hh'. destruct Hok as (I1 & _).
  pose proof (I1 _ _ _ _ Hh) as E1. pose proof (I1 _ _ _ _ Hh') as E2.
  assert (h' = h) as -> by congruence. split; [done|congruence].
Qed.
End typing_start_facts.

(** C7.  A typing-start event that the poll loop dispatches, wherever it
    stands in its batch, shows the typist and leaves one expiry timer for
    that key and user, due 15000 ms later, whatever timer an earlier start
    had set.  As long as neither a start nor a stop for that key and user
    follows, in the batch or after it, and the page is not reloaded,
    whatever the poll loop, the other typists and the clock do, the typist
    is shown while the clock is before that deadline and is not shown once
    the clock has reached it. *)
Theorem typist_expires_after_15_seconds
    (key : string) (userId : Z) (event : Ev.t) (before after : list Ev.t)
    (rid : positive) (w : World) (inputs : list Input) :
  typing_ok w →
  Page.reloaded (page w) = false →
  rid ∈ Page.inflight (page w) →
  typing_start key userId event = true →
  forallb well_formed before = true →
  forallb (unrelated_event key userId) after = true →
  forallb (unrelated key userId) inputs = true →
  is_typing key userId
    (step (Respond rid (batch_response (before ++ event :: after))) w) = true
  ∧ (∃ h, ∀ h' d,
       Page.timers
         (page (step (Respond rid (batch_response (before ++ event :: after))) w))
         !! h'
       = Some (d, CbRemoveTypist key userId)
       ↔ h' = h ∧ d = Page.clock (page w) + 15000)
  ∧ (Page.clock
       (page (run inputs
                (step (Respond rid (batch_response (before ++ event :: after)))
                      w)))
     < Page.clock (page w) + 15000 →
     is_typing key userId
       (run inputs
          (step (Respond rid (batch_response (before ++ event :: after))) w))
     = true)
  ∧ (Page.clock (page w) + 15000
     ≤ Page.clock
         (page (run inputs
                  (step (Respond rid (batch_response (before ++ event :: after)))
                        w))) →
     is_typing key userId
       (run inputs
          (step (Respond rid (batch_response (before ++ event :: after))) w))
     = false).
Proof.
  intros Hok Hr Hin Hstart Hwf Hafter Hinputs.
  apply bool_decide_eq_true in Hstart as (Ht & Hm & Ho & Hk & Hs).
  destruct (Ev.sender event) as [sender|] eqn:Hsender; [|done].
  simpl in Hs. injection Hs as Hu.
  set (now := Page.clock (page w)).
  assert (∃ w1,
            step (Respond rid (batch_response (before ++ event :: after))) w = w1
            ∧ expiry_state key userId (now + 15000) w1
            ∧ Page.clock (page w1) = now) as (w1 & -> & Hpending).
  { unfold step. rewrite Hr, decide_True by done.
    rewrite batch_response_runs, for_each_app.
    set (w0 := update_inflight (λ s, s ∖ {[rid]}) w).
    pose proof (deliver_ready now before w0
                  (conj (typing_ok_view w w0 eq_refl Hok) (conj Hr eq_refl)))
      as (Hokb & Hrb & Hcb).
    destruct (deliver_all before w0 Hwf) as (wb & Hrun & _).
    rewrite Hrun in Hokb, Hrb, Hcb |- *. simpl in Hokb, Hrb, Hcb.
    simpl. unfold deliver at 1.
    rewrite (typing_start_is_addTypist event sender _ Ht Hm Ho Hsender).
    rewrite Hk.
    set (typist := {| Typist.user_id := Sender.user_id sender;
                      Typist.full_name := default "Someone" (Sender.full_name sender);
                      Typist.persona_name := None |}).
    set (w' := log_dispatch event _).
    destruct (addTypist_arms key typist w'
                (typing_ok_view wb w' eq_refl Hokb) Hrb) as (Hst & _).
    simpl in Hst. rewrite Hu in Hst.
    change (Page.clock (page w')) with (Page.clock (page wb)) in Hst.
    rewrite Hcb in Hst.
    assert (Page.clock (page (addTypist key typist w')) = now) as Hce.
    { destruct (addTypist_spec key typist w') as (_ & _ & _ & _ & -> & _).
      exact Hcb. }
    pose proof (deliver_pending key userId (now + 15000) now after
                  (addTypist key typist w') Hafter (conj Hst Hce)) as Hloop.
    destruct (for_each deliver after (addTypist key typist w'))
      as [wa [|error]]; simpl in Hloop.
    - destruct (Handler.isPolling (handler wa)).
      + exists (poll wa). split; [done|]. by apply poll_pending.
      + by exists wa.
    - exists (poll_catch error wa). split; [done|]. by apply poll_catch_pending. }
  destruct (pending_timer key userId (now + 15000) now _ Hpending) as [Hshown Htimer];
    [lia|].
  destruct Hpending as [Hst _].
  pose proof (run_expiry _ _ _ inputs _ Hinputs Hst) as (_ & _ & Hcase).
  split; [done|]. split; [done|]. split.
  - intros Hlt. destruct Hcase as [[[_ Ha] _]|[_ Hc]]; [done|lia].
  - intros Hge. destruct Hcase as [[_ Hc]|[Hg _]]; [lia|done].
Qed.

Lemma typing_ok_initial (users : gmap Z UserInfo.t) : typing_ok (initial users).
Proof.
  split; [|split]; simpl.
  - intros h d key userId Hh. by rewrite lookup_empty in Hh.
  - intros tk h Hh. by rewrite lookup_empty in Hh.
  - intros tk1 tk2 h Hh. by rewrite lookup_empty in Hh.
Qed.

Lemma typing_ok_polling_page : typing_ok polling_page.
Proof. apply (typing_ok_run [Initialize "queue-1" 0]), typing_ok_initial. Qed.

Lemma typist_expires_after_15_seconds_witness :
  is_typing "1:X" 5
    (run [Elapse 10000; AddTypist "2:Y" (example_typist 5 "Hamlet");
          Respond 2 (batch_response [typing_event 6 "start" 6]); Elapse 4999]
         (step (Respond 1 (batch_response
                             ([bare_event 3 "heartbeat"]
                              ++ typing_event 4 "start" 5
                              :: [typing_event 5 "stop" 6])))
               polling_page))
  = true
  ∧ is_typing "1:X" 5
      (run [Elapse 10000; AddTypist "2:Y" (example_typist 5 "Hamlet");
            Respond 2 (batch_response [typing_event 6 "start" 6]); Elapse 5000]
           (step (Respond 1 (batch_response
                               ([bare_event 3 "heartbeat"]
                                ++ typing_event 4 "start" 5
                                :: [typing_event 5 "stop" 6])))
                 polling_page))
    = false.
Proof.
  assert (1%positive ∈ Page.inflight (page polling_page)) as Hin.
  { apply (bool_decide_unpack _). vm_compute. reflexivity. }
  split.
  - destruct (typist_expires_after_15_seconds "1:X" 5
                (typing_event 4 "start" 5) [bare_event 3 "heartbeat"]
                [typing_event 5 "stop" 6] 1 polling_page
                [Elapse 10000; AddTypist "2:Y" (example_typist 5 "Hamlet");
                 Respond 2 (batch_response [typing_event 6 "start" 6]);
                 Elapse 4999]
                typing_ok_polling_page eq_refl Hin eq_refl eq_refl eq_refl
                eq_refl) as (_ & _ & Hbefore & _).
    apply Hbefore. vm_compute. reflexivity.
  - destruct (typist_expires_after_15_seconds "1:X" 5
                (typing_event 4 "start" 5) [bare_event 3 "heartbeat"]
                [typing_event 5 "stop" 6] 1 polling_page
                [Elapse 10000; AddTypist "2:Y" (example_typist 5 "Hamlet");
                 Respond 2 (batch_response [typing_event 6 "start" 6]);
                 Elapse 5000]
                typing_ok_polling_page eq_refl Hin eq_refl eq_refl eq_refl
                eq_refl) as (_ & _ & _ & Hafter).
    apply Hafter. vm_compute. discriminate.
Defined.

(** The scenario of the spec, through the event handler: a [typing] start
    for user 5 in stream 1, topic "X", shows the typist until 14999 ms have
    passed and no longer at 15000 ms; a second start after 10000 ms puts the
    expiry off to 25000 ms. *)
Example typing_start_expires :
  getTypists "1:X"
    (run [Elapse 14999]
         (dispatchEvent (typing_event 1 "start" 5) (initial ∅)).1)
  = [example_typist 5 "Hamlet"]
  ∧ getTypists "1:X"
      (run [Elapse 15000]
           (dispatchEvent (typing_event 1 "start" 5) (initial ∅)).1)
    = []
  ∧ getTypists "1:X"
      (run [Elapse 14999]
           (dispatchEvent (typing_event 2 "start" 5)
              (run [Elapse 10000]
                   (dispatchEvent (typing_event 1 "start" 5) (initial ∅)).1)).1)
    = [example_typist 5 "Hamlet"]
  ∧ getTypists "1:X"
      (run [Elapse 15000]
           (dispatchEvent (typing_event 2 "start" 5)
              (run [Elapse 10000]
                   (dispatchEvent (typing_event 1 "start" 5) (initial ∅)).1)).1)
    = [].
Proof. repeat split; vm_compute; reflexivity. Qed.


(** * More properties *)

(** ** The message store, continued *)

Section store_equalities.
Implicit Types (m msg : Msg.t) (s l msgs : list Msg.t) (k : Z).

Lemma copies_elem k m l : m ∈ copies k l ↔ Msg.id m = k ∧ m ∈ l.
Proof. unfold copies. by rewrite list_elem_of_filter. Qed.

(** Two sorted lists with the same messages under every id are equal. *)
Lemma sorted_copies_ext l1 l2 :
  sorted_by_id l1 → sorted_by_id l2 →
  (∀ k, copies k l1 = copies k l2) → l1 = l2.
Proof.
  unfold sorted_by_id. revert l2.
  induction l1 as [|x l1 IH]; intros l2 Hs1 Hs2 Hc.
  - destruct l2 as [|y l2]; [done|].
    specialize (Hc (Msg.id y)). unfold copies in Hc.
    rewrite filter_nil, filter_cons, decide_True in Hc by done. done.
  - destruct l2 as [|y l2].
    { specialize (Hc (Msg.id x)). unfold copies in Hc.
      rewrite filter_nil, filter_cons, decide_True in Hc by done. done. }
    apply StronglySorted_cons in Hs1 as [Hx Hs1].
    apply StronglySorted_cons in Hs2 as [Hy Hs2].
    assert (Msg.id x = Msg.id y) as Hid.
    { assert (x ∈ y :: l2) as Hin.
      { apply (copies_elem (Msg.id x)). rewrite <- Hc. apply copies_elem.
        split; [done|by left]. }
      assert (y ∈ x :: l1) as Hin'.
      { apply (copies_elem (Msg.id y)). rewrite Hc. apply copies_elem.
        split; [done|by left]. }
      apply elem_of_cons in Hin as [->|Hin]; [done|].
      apply elem_of_cons in Hin' as [->|Hin']; [done|].
      eapply Forall_forall in Hx; [|exact Hin'].
      eapply Forall_forall in Hy; [|exact Hin]. simpl in *. lia. }
    pose proof (Hc (Msg.id x)) as Hhead. unfold copies in Hhead.
    rewrite !filter_cons, decide_True, decide_True in Hhead by done.
    injection Hhead as -> Htail. f_equal. apply IH; [done..|].
    intros k. destruct (decide (k = Msg.id y)) as [->|Hne]; [exact Htail|].
    specialize (Hc k). unfold copies in *.
    by rewrite !filter_cons, !decide_False in Hc by done.
Qed.

Lemma copies_removeMessage k id l :
  copies k (removeMessage id l) = if decide (k = id) then [] else copies k l.
Proof.
  unfold copies, removeMessage. induction l as [|x l IH]; simpl.
  - by case_decide.
  - rewrite !filter_cons.
    destruct (decide (Msg.id x ≠ id)) as [Hx|Hx];
      rewrite ?filter_cons, IH; repeat case_decide; subst; done.
Qed.

Lemma copies_empty_iff k l : copies k l = [] ↔ k ∉ Msg.id <$> l.
Proof.
  unfold copies. induction l as [|x l IH].
  - split; [intros _ ?%elem_of_nil|]; done.
  - rewrite filter_cons, fmap_cons, not_elem_of_cons. case_decide as Hx.
    + split; [done|]. by intros [? _].
    + rewrite IH. split; [intros; split; [congruence|done]|by intros [_ ?]].
Qed.

Lemma copies_le_filter k id l :
  copies k (filter (λ m, Msg.id m ≤ id) l)
  = if decide (k ≤ id) then copies k l else [].
Proof.
  unfold copies. induction l as [|x l IH]; simpl; [by case_decide|].
  rewrite !filter_cons.
  destruct (decide (Msg.id x ≤ id)) as [Hx|Hx];
    rewrite ?filter_cons, IH; repeat case_decide; subst; try done; lia.
Qed.

Lemma copies_gt_filter k id l :
  copies k (filter (λ m, id < Msg.id m) l)
  = if decide (id < k) then copies k l else [].
Proof.
  unfold copies. induction l as [|x l IH]; simpl; [by case_decide|].
  rewrite !filter_cons.
  destruct (decide (id < Msg.id x)) as [Hx|Hx];
    rewrite ?filter_cons, IH; repeat case_decide; subst; try done; lia.
Qed.

Lemma copies_singleton k m :
  copies k [m] = if decide (Msg.id m = k) then [m] else [].
Proof. unfold copies. by rewrite filter_cons, filter_nil. Qed.
Lemma copies_NoDup k l :
  NoDup (Msg.id <$> l) → copies k l = take 1 (copies k l).
Proof.
  unfold copies. induction l as [|x l IH]; [done|].
  rewrite fmap_cons, NoDup_cons. intros [Hx Hl]. rewrite filter_cons.
  case_decide as Hk; [|by apply IH]. subst k.
  apply copies_empty_iff in Hx. unfold copies in Hx. by rewrite Hx.
Qed.

Lemma sorted_by_id_filter (P : Msg.t → Prop) `{!∀ m, Decision (P m)} l :
  sorted_by_id l → sorted_by_id (filter P l).
Proof. apply sorted_by_id_sublist, sublist_filter. Qed.

Lemma sorted_around msg s :
  sorted_by_id s →
  sorted_by_id (filter (λ m, Msg.id m ≤ Msg.id msg) s
                ++ msg :: filter (λ m, Msg.id msg < Msg.id m) s).
Proof.
  intros Hs. apply StronglySorted_app. split; [|split].
  - intros x1 x2 [H1 _]%list_elem_of_filter [->|[H2 _]%list_elem_of_filter]%elem_of_cons;
      simpl in *; lia.
  - by apply sorted_by_id_filter.
  - apply StronglySorted_cons. split; [|by apply sorted_by_id_filter].
    apply Forall_forall. intros x [Hx _]%list_elem_of_filter. simpl in *. lia.
Qed.
End store_equalities.

(** X1.  In a sorted store [addMessage] puts the message behind every
    stored message whose id is at most its own and in front of every stored
    message of a larger id; the stored messages keep their order. *)
Theorem addMessage_position (msg : Msg.t) (s : list Msg.t) :
  sorted_by_id s →
  addMessage msg s
  = filter (λ m, Msg.id m ≤ Msg.id msg) s
    ++ msg :: filter (λ m, Msg.id msg < Msg.id m) s.
Proof.
  intros Hs. apply sorted_copies_ext.
  - apply addMessage_sorted.
  - by apply sorted_around.
  - intros k. rewrite copies_addMessage. unfold copies at 3.
    rewrite filter_app, filter_cons.
    fold (copies k (filter (λ m, Msg.id m ≤ Msg.id msg) s)).
    fold (copies k (filter (λ m, Msg.id msg < Msg.id m) s)).
    rewrite copies_le_filter, copies_gt_filter, copies_singleton.
    repeat case_decide; subst; try lia; try done; by rewrite app_nil_r.
Qed.

Lemma addMessage_position_witness :
  addMessage (example_msg 3 "new")
    [example_msg 1 "a"; example_msg 3 "old"; example_msg 5 "c"]
  = [example_msg 1 "a"; example_msg 3 "old"; example_msg 3 "new";
     example_msg 5 "c"].
Proof.
  rewrite (addMessage_position (example_msg 3 "new")
             [example_msg 1 "a"; example_msg 3 "old"; example_msg 5 "c"]).
  - reflexivity.
  - repeat constructor; vm_compute; discriminate.
Defined.

(** X2.  Adding messages whose ids are all in a sorted store without
    duplicate ids changes nothing; hence adding, or prepending, the same
    batch a second time changes nothing. *)
Theorem addMessages_known_is_noop :
  (∀ msgs s, sorted_by_id s → NoDup (Msg.id <$> s) →
             (∀ m, m ∈ msgs → Msg.id m ∈ Msg.id <$> s) →
             addMessages msgs s = s ∧ prependMessages [] s = s)
  ∧ (∀ msgs s, addMessages msgs (addMessages msgs s) = addMessages msgs s)
  ∧ (∀ msgs s,
       prependMessages msgs (prependMessages msgs s) = prependMessages msgs s).
Proof.
  split; [|split].
  - intros msgs s Hs Hnd Hknown. split.
    + apply sorted_copies_ext; [apply addMessages_sorted|done|].
      intros k. rewrite copies_addMessages.
      destruct (copies k s) as [|x c] eqn:Hc.
      * apply copies_empty_iff in Hc. simpl.
        destruct (copies k msgs) as [|y c'] eqn:Hc'; [done|].
        assert (y ∈ copies k msgs) as Hy by (rewrite Hc'; by left).
        apply copies_elem in Hy as [<- Hy]. by destruct Hc; apply Hknown.
      * pose proof (copies_NoDup k s Hnd) as Hn. rewrite Hc in Hn.
        simpl in Hn. injection Hn as ->. done.
    + apply sorted_copies_ext; [apply prependMessages_sorted|done|].
      intros k. rewrite copies_prependMessages. simpl.
      by rewrite <- copies_NoDup.
  - intros msgs s. apply sorted_copies_ext; [apply addMessages_sorted..|].
    intros k. rewrite !copies_addMessages.
    destruct (copies k s ++ copies k msgs) as [|x c] eqn:Hc; [|done].
    apply app_eq_nil in Hc as [_ ->]. done.
  - intros msgs s. apply sorted_copies_ext; [apply prependMessages_sorted..|].
    intros k. rewrite !copies_prependMessages.
    destruct (copies k msgs) as [|x c] eqn:Hc; [|done]. simpl.
    by destruct (copies k s).
Qed.

Lemma addMessages_known_is_noop_witness :
  addMessages [example_msg 3 "again"]
    [example_msg 1 "a"; example_msg 3 "old"; example_msg 5 "c"]
  = [example_msg 1 "a"; example_msg 3 "old"; example_msg 5 "c"].
Proof.
  destruct addMessages_known_is_noop as (Hknown & _ & _).
  apply Hknown.
  - repeat constructor; vm_compute; discriminate.
  - apply (bool_decide_unpack _). vm_compute. reflexivity.
  - intros m ->%list_elem_of_singleton.
    apply (bool_decide_unpack _). vm_compute. reflexivity.
Defined.

(** X3.  [addMessages] and [prependMessages] lose no id and invent none:
    the ids in the store afterwards are those of the store before and those
    of the batch. *)
Theorem addMessages_ids (msgs s : list Msg.t) (k : Z) :
  (k ∈ Msg.id <$> addMessages msgs s ↔ k ∈ Msg.id <$> s ∨ k ∈ Msg.id <$> msgs)
  ∧ (k ∈ Msg.id <$> prependMessages msgs s
     ↔ k ∈ Msg.id <$> s ∨ k ∈ Msg.id <$> msgs).
Proof.
  assert (∀ l, k ∈ Msg.id <$> l ↔ copies k l ≠ []) as Hin.
  { intros l. rewrite copies_empty_iff. split; [by intros ? []|].
    apply dec_stable. }
  rewrite !Hin, copies_addMessages, copies_prependMessages.
  destruct (copies k s), (copies k msgs); simpl; intuition discriminate.
Qed.

(** X4.  In a sorted store that has no message of that id, adding a
    message and then removing its id gives the store back. *)
Theorem removeMessage_addMessage (msg : Msg.t) (s : list Msg.t) :
  sorted_by_id s →
  Msg.id msg ∉ Msg.id <$> s →
  removeMessage (Msg.id msg) (addMessage msg s) = s.
Proof.
  intros Hs Hnew. apply sorted_copies_ext; [|done|].
  - apply removeMessage_sorted, addMessage_sorted.
  - intros k. rewrite copies_removeMessage, copies_addMessage, copies_singleton.
    apply copies_empty_iff in Hnew.
    repeat case_decide; subst; try done. by rewrite app_nil_r.
Qed.

Lemma removeMessage_addMessage_witness :
  removeMessage 3
    (addMessage (example_msg 3 "new") [example_msg 1 "a"; example_msg 5 "c"])
  = [example_msg 1 "a"; example_msg 5 "c"].
Proof.
  apply (removeMessage_addMessage (example_msg 3 "new")
           [example_msg 1 "a"; example_msg 5 "c"]).
  - repeat constructor; vm_compute; discriminate.
  - apply (bool_decide_unpack _). vm_compute. reflexivity.
Defined.

Lemma addMessages_ids_witness :
  3 ∈ Msg.id <$> addMessages [example_msg 3 "new"] [example_msg 1 "a"]
  ∧ 1 ∈ Msg.id <$> prependMessages [example_msg 3 "new"] [example_msg 1 "a"].
Proof.
  split.
  - apply (addMessages_ids [example_msg 3 "new"] [example_msg 1 "a"] 3).
    right. apply (bool_decide_unpack _). vm_compute. reflexivity.
  - apply (addMessages_ids [example_msg 3 "new"] [example_msg 1 "a"] 1).
    left. apply (bool_decide_unpack _). vm_compute. reflexivity.
Defined.

Section delete_facts.
Implicit Types (w : World) (ids : list Z).

Lemma filter_all {A} (P : A → Prop) `{!∀ x, Decision (P x)} (l : list A) :
  (∀ x, x ∈ l → P x) → filter P l = l.
Proof.
  induction l as [|x l IH]; [done|]. intros Hall.
  rewrite filter_cons_True by (apply Hall; by left).
  f_equal. apply IH. intros y Hy. apply Hall. by right.
Qed.

Lemma remove_each_messages ids w :
  Stores.messages
    (stores (for_each (λ id w, (update_messages (removeMessage id) w, Normal))
                      ids w).1)
  = filter (λ m, Msg.id m ∉ ids) (Stores.messages (stores w)).
Proof.
  revert w. induction ids as [|id ids IH]; intros w; simpl.
  - symmetry. apply filter_all. intros m _. apply not_elem_of_nil.
  - rewrite IH. simpl. unfold removeMessage. rewrite list_filter_filter.
    apply list_filter_iff. intros m. rewrite not_elem_of_cons. tauto.
Qed.

Lemma remove_each_frame ids w :
  (λ w, (handler w, page w, trace w, Stores.typing (stores w),
         Stores.timeouts (stores w), Stores.presence (stores w),
         Stores.users (stores w)))
    (for_each (λ id w, (update_messages (removeMessage id) w, Normal)) ids w).1
  = (handler w, page w, trace w, Stores.typing (stores w),
     Stores.timeouts (stores w), Stores.presence (stores w),
     Stores.users (stores w)).
Proof.
  apply (for_each_stable
           (λ w, (handler w, page w, trace w, Stores.typing (stores w),
                  Stores.timeouts (stores w), Stores.presence (stores w),
                  Stores.users (stores w)))).
  done.
Qed.
End delete_facts.

(** X5.  A [delete_message] event with its [message_ids] completes
    normally and leaves exactly the stored messages whose id is not among
    them, in their order; it writes nothing but the message list.  Without
    [message_ids] it throws and the stores are as before. *)
Theorem delete_message_event_removes_ids (event : Ev.t) (w : World) :
  Ev.type event = "delete_message" →
  (∀ ids, Ev.message_ids event = Some ids →
     (dispatchEvent event w).2 = Normal
     ∧ Stores.messages (stores (dispatchEvent event w).1)
       = filter (λ m, Msg.id m ∉ ids) (Stores.messages (stores w))
     ∧ handler (dispatchEvent event w).1 = handler w
     ∧ page (dispatchEvent event w).1 = page w
     ∧ Stores.typing (stores (dispatchEvent event w).1) = Stores.typing (stores w)
     ∧ Stores.presence (stores (dispatchEvent event w).1)
       = Stores.presence (stores w))
  ∧ (Ev.message_ids event = None →
     (∃ error, (dispatchEvent event w).2 = Throw error)
     ∧ stores (dispatchEvent event w).1 = stores w).
Proof.
  intros Ht.
  assert (dispatchEvent event w
          = handleDeleteMessageEvent event (log_dispatch event w)) as ->.
  { unfold dispatchEvent. by rewrite Ht. }
  unfold handleDeleteMessageEvent. split.
  - intros ids ->. split; [by apply for_each_normal|].
    split; [by rewrite remove_each_messages|].
    pose proof (remove_each_frame ids (log_dispatch event w)) as Hf.
    simpl in Hf. injection Hf as H1 H2 _ H4 _ H6 _. by rewrite H1, H2, H4, H6.
  - intros ->. split; [by eexists|done].
Qed.

Lemma delete_message_event_removes_ids_witness :
  Stores.messages
    (stores (dispatchEvent (delete_event 9 [1; 5; 8])
               (with_messages [example_msg 1 "a"; example_msg 3 "b";
                               example_msg 5 "c"])).1)
  = [example_msg 3 "b"].
Proof.
  destruct (delete_message_event_removes_ids (delete_event 9 [1; 5; 8])
              (with_messages [example_msg 1 "a"; example_msg 3 "b";
                              example_msg 5 "c"]) eq_refl) as [Hsome _].
  destruct (Hsome [1; 5; 8] eq_refl) as (_ & -> & _). reflexivity.
Defined.

Section read_facts.
Implicit Types (m : Msg.t) (s : list Msg.t).

Lemma with_isRead_read m : Msg.isRead (with_isRead m) = true.
Proof. done. Qed.

Lemma with_isRead_id m : Msg.id (with_isRead m) = Msg.id m.
Proof. done. Qed.

Lemma with_isRead_fixed m : Msg.isRead m = true → with_isRead m = m.
Proof. destruct m. simpl. by intros ->. Qed.
End read_facts.

(** X6.  [markAsRead] keeps the ids and the order, marks every stored
    message of the id as read and leaves the others as they are; it leaves
    a store alone whose messages of that id are read already, so marking
    twice is marking once, and two markings commute. *)
Theorem markAsRead_marks (id : Z) (s : list Msg.t) :
  Msg.id <$> markAsRead id s = Msg.id <$> s
  ∧ Forall (λ m, Msg.isRead m = true) (copies id (markAsRead id s))
  ∧ (∀ k, k ≠ id → copies k (markAsRead id s) = copies k s)
  ∧ ((∀ m, m ∈ copies id s → Msg.isRead m = true) → markAsRead id s = s)
  ∧ markAsRead id (markAsRead id s) = markAsRead id s
  ∧ ∀ id', markAsRead id (markAsRead id' s) = markAsRead id' (markAsRead id s).
Proof.
  assert (∀ s', (∀ m, m ∈ copies id s' → Msg.isRead m = true) →
                markAsRead id s' = s') as Hfixed.
  { intros s'. induction s' as [|x s' IH]; [done|]. intros Hread. simpl.
    rewrite IH.
    - case_decide as Hx; [|done]. rewrite with_isRead_fixed; [done|].
      apply Hread, copies_elem. split; [done|by left].
    - intros m [Hm Hin]%copies_elem. apply Hread, copies_elem.
      split; [done|by right]. }
  assert (Forall (λ m, Msg.isRead m = true) (copies id (markAsRead id s)))
    as Hall.
  { unfold copies. induction s as [|x s IH]; simpl; [constructor|].
    rewrite filter_cons. destruct (decide (Msg.id x = id)) as [Hx|Hx].
    - rewrite decide_True by done. by constructor.
    - by rewrite decide_False. }
  split; [|split; [done|split; [|split; [apply Hfixed|split]]]].
  - clear Hall. induction s as [|x s IH]; [done|]. simpl.
    f_equal; [by case_decide|exact IH].
  - clear Hall. intros k Hk. unfold copies.
    induction s as [|x s IH]; [done|]. simpl.
    rewrite !filter_cons, IH.
    destruct (decide (Msg.id x = id)) as [Hx|Hx]; [|done].
    rewrite with_isRead_id, !decide_False by congruence. done.
  - apply Hfixed. intros m Hm. eapply Forall_forall in Hall; [exact Hall|done].
  - clear Hall. intros id'.
    induction s as [|x s IH]; [done|]. simpl. rewrite IH. f_equal.
    repeat case_decide; try done; rewrite ?with_isRead_id in *; try done.
    all: by destruct x.
Qed.

Lemma markAsRead_marks_witness :
  markAsRead 3 (markAsRead 3 [example_msg 1 "a"; example_msg 3 "b"])
  = markAsRead 3 [example_msg 1 "a"; example_msg 3 "b"]
  ∧ copies 1 (markAsRead 3 [example_msg 1 "a"; example_msg 3 "b"])
    = [example_msg 1 "a"].
Proof.
  destruct (markAsRead_marks 3 [example_msg 1 "a"; example_msg 3 "b"])
    as (_ & _ & Hother & _ & Hidem & _).
  split; [exact Hidem|]. rewrite Hother; [reflexivity|lia].
Defined.

(** ** Scenes and the stage *)

Section scenes_facts.
Implicit Types (msg : Msg.t) (l : list Msg.t) (g : gmap string (list Msg.t)).

Lemma scenes_step_lookup g msg key :
  default [] (scenes_step g msg !! key)
  = default [] (g !! key)
    ++ (if decide (scene_key msg = Some key) then [msg] else []).
Proof.
  unfold scenes_step. destruct (scene_key msg) as [key'|] eqn:Hk.
  - destruct (decide (key' = key)) as [->|Hne].
    + rewrite decide_True by done.
      destruct (g !! key) as [existing|]; by rewrite lookup_insert_eq.
    + rewrite decide_False by congruence. rewrite app_nil_r.
      destruct (g !! key'); by rewrite lookup_insert_ne.
  - rewrite decide_False by done. by rewrite app_nil_r.
Qed.

Lemma scenes_step_nonempty g msg :
  (∀ key x, g !! key = Some x → x ≠ []) →
  ∀ key x, scenes_step g msg !! key = Some x → x ≠ [].
Proof.
  intros Hg key x. unfold scenes_step.
  destruct (scene_key msg) as [key'|]; [|apply Hg].
  destruct (decide (key' = key)) as [->|Hne].
  - destruct (g !! key) as [existing|]; rewrite lookup_insert_eq;
      intros [= <-]; [by destruct existing|done].
  - destruct (g !! key'); rewrite lookup_insert_ne by done; apply Hg.
Qed.

Lemma scenes_fold_lookup g l key :
  default [] (foldl scenes_step g l !! key)
  = default [] (g !! key) ++ filter (λ m, scene_key m = Some key) l.
Proof.
  revert g. induction l as [|msg l IH]; intros g; simpl.
  - by rewrite app_nil_r.
  - rewrite IH, scenes_step_lookup, filter_cons, <- app_assoc.
    by case_decide.
Qed.

Lemma scenes_fold_nonempty g l :
  (∀ key x, g !! key = Some x → x ≠ []) →
  ∀ key x, foldl scenes_step g l !! key = Some x → x ≠ [].
Proof.
  revert g. induction l as [|msg l IH]; intros g Hg; simpl; [done|].
  by apply IH, scenes_step_nonempty.
Qed.
End scenes_facts.

(** X7.  [scenes] files under each key exactly the stored messages with
    that scene key, in store order, and has no entry for a key without
    messages; so a scene of a store sorted by id is sorted by id. *)
Theorem scenes_lookup (messages : list Msg.t) (key : string) :
  scenes messages !! key
  = match filter (λ m, scene_key m = Some key) messages with
    | [] => None
    | l => Some l
    end
  ∧ (sorted_by_id messages →
     sorted_by_id (default [] (scenes messages !! key))).
Proof.
  pose proof (scenes_fold_lookup ∅ messages key) as Hl.
  rewrite lookup_empty in Hl. simpl in Hl. fold (scenes messages) in Hl.
  split.
  - destruct (scenes messages !! key) as [x|] eqn:Hx; simpl in Hl.
    + rewrite <- Hl. destruct x; [|done].
      assert (∀ k (y : list Msg.t), (∅ : gmap string (list Msg.t)) !! k = Some y
                                    → y ≠ []) as Hempty.
      { intros k y Hy. by rewrite lookup_empty in Hy. }
      by destruct (scenes_fold_nonempty ∅ messages Hempty key [] Hx).
    + by rewrite <- Hl.
  - intros Hs. rewrite Hl. by apply sorted_by_id_filter.
Qed.

Lemma scenes_lookup_witness :
  scenes [example_msg 1 "a"; example_msg 3 "b"] !! "1:X"
  = Some [example_msg 1 "a"; example_msg 3 "b"]
  ∧ sorted_by_id
      (default [] (scenes [example_msg 1 "a"; example_msg 3 "b"] !! "1:X")).
Proof.
  destruct (scenes_lookup [example_msg 1 "a"; example_msg 3 "b"] "1:X")
    as [Hl Hs].
  split; [rewrite Hl; reflexivity|].
  apply Hs. repeat constructor; vm_compute; discriminate.
Defined.

Section stage_facts.
Implicit Types (m msg : Msg.t) (l : list Msg.t) (groups : list MessageGroup.t).

Lemma insert_by_timestamp_perm m l : insert_by_timestamp m l ≡ₚ m :: l.
Proof.
  induction l as [|x l IH]; simpl; [done|].
  case_decide; [done|]. rewrite IH. apply Permutation_swap.
Qed.

Lemma sort_by_timestamp_perm l : sort_by_timestamp l ≡ₚ l.
Proof.
  induction l as [|x l IH]; simpl; [done|].
  fold (sort_by_timestamp l). by rewrite insert_by_timestamp_perm, IH.
Qed.

Lemma insert_by_timestamp_sorted m l :
  StronglySorted (λ a b, Msg.timestamp a ≤ Msg.timestamp b) l →
  StronglySorted (λ a b, Msg.timestamp a ≤ Msg.timestamp b)
                 (insert_by_timestamp m l).
Proof.
  induction l as [|x l IH]; simpl; intros Hs.
  - repeat constructor.
  - apply StronglySorted_cons in Hs as [Hx Hl]. case_decide.
    + apply StronglySorted_cons. split.
      * constructor; [done|].
        eapply Forall_impl; [exact Hx|]. simpl. intros; lia.
      * by apply StronglySorted_cons.
    + apply StronglySorted_cons. split; [|by apply IH].
      rewrite insert_by_timestamp_perm. constructor; [lia|done].
Qed.

Lemma sort_by_timestamp_sorted l :
  StronglySorted (λ a b, Msg.timestamp a ≤ Msg.timestamp b)
                 (sort_by_timestamp l).
Proof.
  induction l as [|x l IH]; simpl; [constructor|].
  by apply insert_by_timestamp_sorted.
Qed.

Lemma sort_by_timestamp_fixed l :
  StronglySorted (λ a b, Msg.timestamp a ≤ Msg.timestamp b) l →
  sort_by_timestamp l = l.
Proof.
  induction l as [|x l IH]; simpl; [done|].
  intros [Hx Hl]%StronglySorted_cons. fold (sort_by_timestamp l).
  rewrite IH by done. destruct l as [|y l]; simpl; [done|].
  apply Forall_cons in Hx as [? _]. by rewrite decide_True.
Qed.

Lemma messageGroups_snoc l msg :
  messageGroups (l ++ [msg]) = group_step (messageGroups l) msg.
Proof. unfold messageGroups. apply foldl_snoc. Qed.

Lemma speakers_alternate_snoc groups g g' :
  speakers_alternate (groups ++ [g]) →
  MessageGroup.speakerName g ≠ MessageGroup.speakerName g' →
  speakers_alternate (groups ++ [g; g']).
Proof.
  induction groups as [|g1 groups IH]; simpl; [done|].
  destruct groups as [|g2 groups]; simpl in *.
  - intros [? _] ?. done.
  - intros [? Hrest] Hne. split; [done|]. by apply IH.
Qed.

Lemma speakers_alternate_last groups g g' :
  speakers_alternate (groups ++ [g]) →
  MessageGroup.speakerName g' = MessageGroup.speakerName g →
  speakers_alternate (groups ++ [g']).
Proof.
  induction groups as [|g1 groups IH]; simpl; [done|].
  destruct groups as [|g2 groups]; simpl in *.
  - intros [? _] ->. done.
  - intros [? Hrest] Heq. split; [done|]. by apply IH.
Qed.
End stage_facts.

(** X8.  [messageGroups] cuts the scene's messages into runs: the groups'
    messages, strung together, are the scene's messages in their order;
    no group is empty; every message of a group has the group's speaker
    name as its character name, and the group's speaker id is the sender of
    its first message; neighbouring groups have different speaker names. *)
Theorem messageGroups_runs (l : list Msg.t) :
  concat (MessageGroup.messages <$> messageGroups l) = l
  ∧ Forall group_ok (messageGroups l)
  ∧ speakers_alternate (messageGroups l).
Proof.
  induction l as [|msg l IH] using rev_ind; [by repeat constructor|].
  destruct IH as (Hcat & Hok & Halt). rewrite messageGroups_snoc.
  unfold group_step. destruct (last (messageGroups l)) as [g|] eqn:Hlast.
  - apply last_Some in Hlast as [groups Hg]. rewrite Hg in *.
    rewrite removelast_last.
    rewrite fmap_app, concat_app in Hcat. simpl in Hcat.
    rewrite app_nil_r in Hcat.
    apply Forall_app in Hok as [Hok Hg_ok]. rewrite Forall_singleton in Hg_ok.
    case_decide as Hname.
    + split; [|split].
      * rewrite fmap_app, concat_app. simpl.
        by rewrite app_nil_r, app_assoc, Hcat.
      * apply Forall_app. split; [done|]. apply Forall_singleton.
        destruct Hg_ok as [(first & rest & Hm & Hid) Hall]. split; simpl.
        -- exists first, (rest ++ [msg]). by rewrite Hm.
        -- apply Forall_app. split; [done|]. by apply Forall_singleton.
      * by eapply speakers_alternate_last.
    + split; [|split].
      * rewrite !fmap_app, !concat_app. simpl.
        by rewrite !app_nil_r, <- Hcat.
      * rewrite !Forall_app. split; [by split; [|apply Forall_singleton]|].
        apply Forall_singleton. split; simpl; [by eexists _, _|].
        by apply Forall_singleton.
      * rewrite <- app_assoc. simpl. by apply speakers_alternate_snoc.
  - apply last_None in Hlast. rewrite Hlast in Hcat. simpl in Hcat. subst l.
    split; [done|]. split; [|done]. apply Forall_singleton.
    split; simpl; [by eexists _, _|]. by apply Forall_singleton.
Qed.

(** X9.  [sceneMessages] holds exactly the stored messages of the stream
    and topic, in non-decreasing order of timestamp; where the store has
    them in that order already, it is the filtered store. *)
Theorem sceneMessages_sorted (streamId : Z) (topic : string)
    (messages : list Msg.t) :
  sceneMessages streamId topic messages
  ≡ₚ filter (λ m, Msg.streamId m = Some streamId ∧ Msg.topic m = Some topic)
            messages
  ∧ StronglySorted (λ a b, Msg.timestamp a ≤ Msg.timestamp b)
                   (sceneMessages streamId topic messages)
  ∧ (StronglySorted (λ a b, Msg.timestamp a ≤ Msg.timestamp b)
       (filter (λ m, Msg.streamId m = Some streamId ∧ Msg.topic m = Some topic)
               messages) →
     sceneMessages streamId topic messages
     = filter (λ m, Msg.streamId m = Some streamId ∧ Msg.topic m = Some topic)
              messages).
Proof.
  split; [apply sort_by_timestamp_perm|].
  split; [apply sort_by_timestamp_sorted|apply sort_by_timestamp_fixed].
Qed.

Lemma sceneMessages_sorted_witness :
  sceneMessages 1 "X" [example_line 1 10 "Hamlet" "a"; example_line 2 20 "Hamlet" "b"]
  = [example_line 1 10 "Hamlet" "a"; example_line 2 20 "Hamlet" "b"].
Proof.
  destruct (sceneMessages_sorted 1 "X"
              [example_line 1 10 "Hamlet" "a"; example_line 2 20 "Hamlet" "b"])
    as (_ & _ & Hfixed).
  rewrite Hfixed; [reflexivity|].
  repeat constructor; vm_compute; discriminate.
Defined.

(** ** The typing store, continued *)

Section typing_invariant.
Implicit Types (w : World) (key : string) (userId : Z) (typist : Typist.t)
  (m : gmap string (list Typist.t)).

Local Abbreviation timers w := (Page.timers (page w)).
Local Abbreviation timeouts w := (Stores.timeouts (stores w)).
Local Abbreviation typing w := (Stores.typing (stores w)).
Local Abbreviation next_timer w := (Page.next_timer (page w)).
Local Abbreviation clock w := (Page.clock (page w)).

Lemma has_typist_elem userId (l : list Typist.t) :
  has_typist userId l = true ↔ userId ∈ Typist.user_id <$> l.
Proof.
  unfold has_typist. induction l as [|t l IH]; simpl.
  - split; [done|by intros ?%elem_of_nil].
  - rewrite orb_true_iff, IH, bool_decide_eq_true, elem_of_cons.
    split; (intros [?|?]; [left|right]); done.
Qed.

Lemma lists_ok_add key typist m : lists_ok m → lists_ok (add_to_map key typist m).
Proof.
  intros Hm key' l. unfold add_to_map.
  destruct (has_typist (Typist.user_id typist) (default [] (m !! key))) eqn:Hhas;
    [apply Hm|].
  destruct (decide (key = key')) as [->|Hne].
  - rewrite lookup_insert_eq. intros [= <-]. split; [by destruct (default _ _)|].
    rewrite fmap_app. apply NoDup_app. split; [|split].
    + destruct (m !! key') as [l0|] eqn:Hl0; simpl; [by apply (Hm key')|constructor].
    + intros u Hu ->%list_elem_of_singleton.
      apply has_typist_elem in Hu. congruence.
    + apply NoDup_singleton.
  - rewrite lookup_insert_ne by done. apply Hm.
Qed.

Lemma lists_ok_remove key userId m :
  lists_ok m → lists_ok (remove_from_map key userId m).
Proof.
  intros Hm key' l. unfold remove_from_map.
  destruct (m !! key) as [existing|] eqn:Hex; [|apply Hm].
  case_decide as Hlen.
  - intros [_ Hl]%lookup_delete_Some. by apply (Hm key').
  - destruct (decide (key = key')) as [->|Hne].
    + rewrite lookup_insert_eq. intros [= <-]. split.
      * intros Hnil. by rewrite Hnil in Hlen.
      * eapply sublist_NoDup; [apply (proj2 (Hm key' existing Hex))|].
        apply fmap_sublist, sublist_filter.
    + rewrite lookup_insert_ne by done. apply Hm.
Qed.
(** A registered handle other than the one of [key] and [userId] is not
    the one that a call for [key] and [userId] clears. *)
Lemma other_handle_kept w key userId key' userId' h d :
  typing_ok w →
  ¬ (key' = key ∧ userId' = userId) →
  timers w !! h = Some (d, CbRemoveTypist key' userId') →
  match timeouts w !! timeoutKey key userId with
  | Some h0 => delete h0 (timers w)
  | None => timers w
  end !! h = Some (d, CbRemoveTypist key' userId').
Proof.
  intros (I1 & I2 & I4) Hne Hh.
  destruct (timeouts w !! timeoutKey key userId) as [h0|] eqn:Hreg; [|done].
  rewrite lookup_delete_ne; [done|]. intros ->.
  pose proof (I4 _ _ _ (I1 _ _ _ _ Hh) Hreg) as Hk.
  apply timeoutKey_inj in Hk. by apply Hne.
Qed.

Lemma timed_add key typist w :
  typists_timed w → typists_timed (addTypist key typist w).
Proof.
  intros (Hok & Hlists & Hshown & Hpending).
  destruct (addTypist_spec key typist w) as (HT & HO & HM & HN & HC & HR).
  split; [by apply addTypist_ok|]. split; [rewrite HM; by apply lists_ok_add|].
  unfold is_typing, getTypists in *. rewrite HT, HM, HC. split.
  - intros key' userId' Hty.
    destruct (decide (key' = key ∧ userId' = Typist.user_id typist))
      as [[-> ->]|Hne].
    + exists (next_timer w), (clock w + 15000).
      by rewrite lookup_insert_eq.
    + rewrite listed_add_other in Hty by (intros [-> <-]; by apply Hne).
      destruct (Hshown _ _ Hty) as (h & d & Hh & Hd). exists h, d.
      split; [|done]. rewrite lookup_insert_ne.
      * by apply other_handle_kept.
      * destruct Hok as (I1 & I2 & _). apply I1, I2 in Hh. lia.
  - intros h d key' userId' Hh.
    destruct (decide (key' = key ∧ userId' = Typist.user_id typist))
      as [[-> ->]|Hne]; [apply listed_add_same|].
    rewrite listed_add_other by (intros [-> <-]; by apply Hne).
    destruct (decide (h = next_timer w)) as [->|Hh'].
    + rewrite lookup_insert_eq in Hh. injection Hh as _ <- <-. by destruct Hne.
    + rewrite lookup_insert_ne in Hh by done. apply (Hpending h d).
      destruct (timeouts w !! _); [|done].
      by apply lookup_delete_Some in Hh as [_ ?].
Qed.

Lemma timed_remove key userId w :
  typists_timed w → typists_timed (removeTypist key userId w).
Proof.
  intros (Hok & Hlists & Hshown & Hpending).
  destruct (removeTypist_spec key userId w) as (HT & HO & HM & HN & HC & HR).
  split; [by apply removeTypist_ok|].
  split; [rewrite HM; by apply lists_ok_remove|].
  unfold is_typing, getTypists in *. rewrite HT, HM, HC. split.
  - intros key' userId' Hty.
    assert (¬ (key' = key ∧ userId' = userId)) as Hne.
    { intros [-> ->]. by rewrite listed_remove_same in Hty. }
    rewrite listed_remove_other in Hty by (intros [-> ->]; by apply Hne).
    destruct (Hshown _ _ Hty) as (h & d & Hh & Hd). exists h, d.
    split; [|done]. by apply other_handle_kept.
  - intros h d key' userId' Hh.
    assert (timers w !! h = Some (d, CbRemoveTypist key' userId')) as Hold.
    { destruct (timeouts w !! _); [|done].
      by apply lookup_delete_Some in Hh as [_ ?]. }
    assert (¬ (key' = key ∧ userId' = userId)) as Hne.
    { intros [-> ->]. destruct Hok as (I1 & _).
      rewrite (I1 _ _ _ _ Hold) in Hh. by rewrite lookup_delete_eq in Hh. }
    rewrite listed_remove_other by (intros [-> ->]; by apply Hne).
    by apply (Hpending h d).
Qed.

Lemma timed_retry w : typists_timed w → typists_timed (setTimeout CbPoll 5000 w).2.
Proof.
  intros (Hok & Hlists & Hshown & Hpending).
  split; [by apply retry_ok|]. split; [done|]. split.
  - intros key userId Hty. destruct (Hshown _ _ Hty) as (h & d & Hh & Hd).
    exists h, d. split; [|done]. simpl. rewrite lookup_insert_ne; [done|].
    destruct Hok as (I1 & I2 & _). apply I1, I2 in Hh. lia.
  - intros h d key userId. simpl.
    destruct (decide (h = next_timer w)) as [->|Hh'].
    + by rewrite lookup_insert_eq.
    + rewrite lookup_insert_ne by done. apply Hpending.
Qed.

Lemma timed_view w w' :
  typing_view w' = typing_view w → typists_timed w → typists_timed w'.
Proof.
  intros Hv (Hok & Hrest). split; [by eapply typing_ok_view|].
  unfold typing_view in Hv. injection Hv as H1 H2 H3 H4 H5 H6.
  unfold is_typing, getTypists in *. by rewrite H1, H3, H5.
Qed.

Lemma fire_clock w h c cb :
  clock (run_callback cb (update_timers (delete h) (set_clock c w))) = c.
Proof.
  destruct cb as [key userId|]; unfold run_callback.
  - destruct (removeTypist_spec key userId
                (update_timers (delete h) (set_clock c w)))
      as (_ & _ & _ & _ & HC & _).
    by rewrite HC.
  - pose proof (poll_typing_frame (update_timers (delete h) (set_clock c w)))
      as Hv. unfold typing_view in Hv. injection Hv as _ _ _ _ HC _.
    by rewrite HC.
Qed.

Lemma timed_fire w h d cb :
  typists_timed w →
  timers w !! h = Some (d, cb) →
  typists_timed (run_callback cb
                   (update_timers (delete h) (set_clock (Z.max (clock w) d) w))).
Proof.
  intros (Hok & Hlists & Hshown & Hpending) Hh.
  destruct (fire_spec w h d cb Hok Hh) as (Hok1 & HT & _ & HM).
  pose proof (fire_clock w h (Z.max (clock w) d) cb) as HC.
  split; [done|]. unfold is_typing, getTypists in *. rewrite HT, HM, HC.
  destruct cb as [key0 userId0|].
  - split; [by apply lists_ok_remove|]. split.
    + intros key userId Hty.
      assert (¬ (key = key0 ∧ userId = userId0)) as Hne.
      { intros [-> ->]. by rewrite listed_remove_same in Hty. }
      rewrite listed_remove_other in Hty by (intros [-> ->]; by apply Hne).
      destruct (Hshown _ _ Hty) as (h' & d' & Hh' & Hd'). exists h', d'.
      split; [|lia]. rewrite lookup_delete_ne; [done|].
      intros ->. rewrite Hh in Hh'. injection Hh' as _ -> ->. by apply Hne.
    + intros h' d' key userId [Hne' Hh']%lookup_delete_Some.
      rewrite listed_remove_other; [by apply (Hpending h' d')|].
      intros [-> ->]. destruct Hok as (I1 & _).
      pose proof (I1 _ _ _ _ Hh) as E1. pose proof (I1 _ _ _ _ Hh') as E2.
      congruence.
  - split; [done|]. split.
    + intros key userId Hty.
      destruct (Hshown _ _ Hty) as (h' & d' & Hh' & Hd'). exists h', d'.
      split; [|lia]. rewrite lookup_delete_ne; [done|]. intros ->. congruence.
    + intros h' d' key userId [_ Hh']%lookup_delete_Some.
      by apply (Hpending h' d').
Qed.

Lemma run_timers_timed fuel t w :
  clock w ≤ t →
  typists_timed w →
  typists_timed (run_timers fuel t w) ∧ clock (run_timers fuel t w) ≤ t.
Proof.
  revert w. induction fuel as [|fuel IH]; intros w Hc Hw; simpl; [done|].
  destruct (next_due t (timers w)) as [[h [d cb]]|] eqn:Hdue; [|done].
  apply next_due_Some in Hdue as [Hh Hd]. apply IH.
  - rewrite fire_clock. lia.
  - by apply timed_fire.
Qed.

Lemma timed_elapse dt w : typists_timed w → typists_timed (elapse dt w).
Proof.
  intros Hw.
  destruct (run_timers_timed (size (timers w)) (clock w + Z.max 0 dt) w)
    as [(Hok & Hlists & Hshown & Hpending) Hc]; [lia|done|].
  unfold elapse. split; [done|]. split; [done|]. split; [|done].
  intros key userId Hty. destruct (Hshown key userId Hty) as (h & d & Hh & Hd).
  exists h, d. split; [done|]. simpl in *. lia.
Qed.
End typing_invariant.

(** X10.  Whatever the poll loop, the typists and the clock do from the
    loaded page on: no key of the typing map has an empty list, no list
    names a user twice, every typist shown has a pending expiry timer that
    is due at most 15000 ms from now, and every pending expiry timer is
    that of a typist shown. *)
Theorem typists_always_timed (users : gmap Z UserInfo.t) (inputs : list Input) :
  typists_timed (run inputs (initial users)).
Proof.
  apply (run_kept typists_timed (λ _ _, True) True).
  - apply timed_view.
  - intros key typist w _. apply timed_add.
  - intros key userId w _. apply timed_remove.
  - apply timed_retry.
  - apply timed_elapse.
  - by intros w _ Hw.
  - apply Forall_forall. intros [rid [error|status [| |[events|]]]| | | | |] _;
      simpl; try done.
    split; [done|]. by apply Forall_forall.
  - split; [apply typing_ok_initial|]. split; [|split].
    + intros key l Hl. simpl in Hl. by rewrite lookup_empty in Hl.
    + intros key userId. unfold is_typing, getTypists. simpl.
      by rewrite lookup_empty.
    + intros h d key userId Hh. simpl in Hh. by rewrite lookup_empty in Hh.
Qed.

(** X11.  A typing stop removes the typist and the typist's pending expiry
    timer, and touches no other typist and no other typist's timer. *)
Theorem typing_stop_cancels (key : string) (userId : Z) (w : World) :
  typing_ok w →
  Page.reloaded (page w) = false →
  is_typing key userId (step (RemoveTypist key userId) w) = false
  ∧ (∀ h d, Page.timers (page (step (RemoveTypist key userId) w)) !! h
            ≠ Some (d, CbRemoveTypist key userId))
  ∧ Stores.timeouts (stores (step (RemoveTypist key userId) w))
      !! timeoutKey key userId = None
  ∧ ∀ key' userId', ¬ (key' = key ∧ userId' = userId) →
      is_typing key' userId' (step (RemoveTypist key userId) w)
      = is_typing key' userId' w
      ∧ ∀ h d, Page.timers (page (step (RemoveTypist key userId) w)) !! h
               = Some (d, CbRemoveTypist key' userId')
               ↔ Page.timers (page w) !! h = Some (d, CbRemoveTypist key' userId').
Proof.
  intros Hok Hr.
  assert (step (RemoveTypist key userId) w = removeTypist key userId w) as ->.
  { unfold step. by rewrite Hr. }
  destruct (removeTypist_spec key userId w) as (HT & HO & HM & _).
  unfold is_typing, getTypists. rewrite HT, HO, HM.
  split; [apply listed_remove_same|]. split; [|split; [apply lookup_delete_eq|]].
  - intros h d Hh.
    assert (Page.timers (page w) !! h = Some (d, CbRemoveTypist key userId))
      as Hold.
    { destruct (Stores.timeouts (stores w) !! _); [|done].
      by apply lookup_delete_Some in Hh as [_ ?]. }
    destruct Hok as (I1 & _). rewrite (I1 _ _ _ _ Hold) in Hh.
    by rewrite lookup_delete_eq in Hh.
  - intros key' userId' Hne.
    split; [apply listed_remove_other; intros [-> ->]; by apply Hne|].
    intros h d. split.
    + intros Hh. destruct (Stores.timeouts (stores w) !! _); [|done].
      by apply lookup_delete_Some in Hh as [_ ?].
    + by apply other_handle_kept.
Qed.

Lemma typing_stop_cancels_witness :
  is_typing "1:X" 5
    (step (RemoveTypist "1:X" 5)
          (step (AddTypist "1:X" (example_typist 5 "Hamlet")) polling_page))
  = false
  ∧ Page.timers
      (page (step (RemoveTypist "1:X" 5)
                  (step (AddTypist "1:X" (example_typist 5 "Hamlet"))
                        polling_page)))
    = ∅.
Proof.
  destruct (typing_stop_cancels "1:X" 5
              (step (AddTypist "1:X" (example_typist 5 "Hamlet")) polling_page))
    as (Hgone & _).
  - apply (typing_ok_run [AddTypist "1:X" (example_typist 5 "Hamlet")]),
      typing_ok_polling_page.
  - reflexivity.
  - split; [exact Hgone|]. vm_compute. reflexivity.
Defined.

Section clear_facts.
Implicit Types (w : World) (hs : list positive).

Lemma clear_all_timers hs w h :
  Page.timers (page (foldr clearTimeout w hs)) !! h
  = if decide (h ∈ hs) then None else Page.timers (page w) !! h.
Proof.
  induction hs as [|h0 hs IH].
  - by destruct (decide (h ∈ [])) as [?%elem_of_nil|].
  - simpl. destruct (decide (h = h0)) as [->|Hne].
    + rewrite lookup_delete_eq, decide_True; [done|by left].
    + rewrite lookup_delete_ne, IH by done.
      apply decide_ext. rewrite elem_of_cons.
      split; [by right|by intros [?|?]].
Qed.

Lemma clear_all_frame hs w :
  control (foldr clearTimeout w hs) = control w
  ∧ Stores.messages (stores (foldr clearTimeout w hs)) = Stores.messages (stores w)
  ∧ Stores.presence (stores (foldr clearTimeout w hs)) = Stores.presence (stores w)
  ∧ Page.clock (page (foldr clearTimeout w hs)) = Page.clock (page w)
  ∧ Page.next_timer (page (foldr clearTimeout w hs)) = Page.next_timer (page w).
Proof.
  induction hs as [|h0 hs IH]; simpl; [done|].
  destruct IH as (H1 & H2 & H3 & H4 & H5). unfold control in *. simpl.
  injection H1 as -> -> -> -> ->. by rewrite H2, H3, H4, H5.
Qed.
End clear_facts.

(** X12.  [clear()] of the typing store empties the typing map and the
    handle table and leaves no expiry timer pending; it sets no timer, and
    writes nothing else. *)
Theorem typing_clear_clears (w : World) :
  typing_ok w →
  Stores.typing (stores (typing_clear w)) = ∅
  ∧ Stores.timeouts (stores (typing_clear w)) = ∅
  ∧ (∀ h d key userId,
       Page.timers (page (typing_clear w)) !! h
       ≠ Some (d, CbRemoveTypist key userId))
  ∧ (∀ h x, Page.timers (page (typing_clear w)) !! h = Some x →
            Page.timers (page w) !! h = Some x)
  ∧ control (typing_clear w) = control w
  ∧ Stores.messages (stores (typing_clear w)) = Stores.messages (stores w)
  ∧ Stores.presence (stores (typing_clear w)) = Stores.presence (stores w)
  ∧ typists_timed (typing_clear w).
Proof.
  intros Hok. pose proof Hok as (I1 & I2 & I4).
  set (hs := (map_to_list (Stores.timeouts (stores w))).*2).
  assert (∀ h x, Page.timers (page (typing_clear w)) !! h = Some x →
                 Page.timers (page w) !! h = Some x ∧ h ∉ hs) as Hkept.
  { intros h x. unfold typing_clear. simpl. fold hs.
    rewrite clear_all_timers. by case_decide. }
  assert (∀ h d key userId,
            Page.timers (page (typing_clear w)) !! h
            ≠ Some (d, CbRemoveTypist key userId)) as Hnone.
  { intros h d key userId Hh. apply Hkept in Hh as [Hh Hnot]. apply Hnot.
    apply list_elem_of_fmap. exists (timeoutKey key userId, h).
    split; [done|]. by apply elem_of_map_to_list, (I1 _ d). }
  destruct (clear_all_frame hs w) as (H1 & H2 & H3 & H4 & H5).
  split; [done|]. split; [done|]. split; [done|].
  split; [intros h x Hh; by apply Hkept in Hh as [? _]|].
  split; [exact H1|]. split; [exact H2|]. split; [exact H3|].
  split; [|split; [|split]].
  - split; [|split]; simpl.
    + intros h d key userId Hh. by destruct (Hnone h d key userId).
    + intros tk h Hh. by rewrite lookup_empty in Hh.
    + intros tk1 tk2 h Hh. by rewrite lookup_empty in Hh.
  - intros key l Hl. simpl in Hl. by rewrite lookup_empty in Hl.
  - intros key userId. unfold is_typing, getTypists. simpl.
    by rewrite lookup_empty.
  - intros h d key userId Hh. by destruct (Hnone h d key userId).
Qed.

Lemma typing_clear_clears_witness :
  Stores.typing
    (stores (typing_clear
               (step (AddTypist "1:X" (example_typist 5 "Hamlet")) polling_page)))
  = ∅
  ∧ Page.timers
      (page (typing_clear
               (step (AddTypist "1:X" (example_typist 5 "Hamlet")) polling_page)))
    = ∅.
Proof.
  destruct (typing_clear_clears
              (step (AddTypist "1:X" (example_typist 5 "Hamlet")) polling_page))
    as (Hempty & _).
  - apply (typing_ok_run [AddTypist "1:X" (example_typist 5 "Hamlet")]),
      typing_ok_polling_page.
  - split; [exact Hempty|]. vm_compute. reflexivity.
Defined.

(** ** The event loop, continued *)

Section steady_facts.
Implicit Types (w : World) (event : Ev.t).

Lemma clearTypistTimeout_steady key userId w :
  steady_view (clearTypistTimeout key userId w) = steady_view w.
Proof. unfold clearTypistTimeout. by case_match. Qed.

Lemma removeTypist_steady key userId w :
  steady_view (removeTypist key userId w) = steady_view w.
Proof.
  unfold removeTypist.
  transitivity (steady_view (clearTypistTimeout key userId w));
    [done|apply clearTypistTimeout_steady].
Qed.

Lemma addTypist_steady key typist w :
  steady_view (addTypist key typist w) = steady_view w.
Proof.
  unfold addTypist, setTypistTimeout.
  transitivity (steady_view (clearTypistTimeout key (Typist.user_id typist)
                               (update_typing (add_to_map key typist) w)));
    [done|by rewrite clearTypistTimeout_steady].
Qed.

Lemma poll_steady w : steady_view (poll w) = steady_view w.
Proof. unfold poll, fetch. by repeat case_match. Qed.

Lemma run_timers_steady fuel t w :
  steady_view (run_timers fuel t w) = steady_view w.
Proof.
  revert w. induction fuel as [|fuel IH]; intros w; simpl; [done|].
  destruct (next_due t (Page.timers (page w))) as [[h [deadline cb]]|]; [|done].
  rewrite IH. destruct cb as [key userId|]; simpl.
  - by rewrite removeTypist_steady.
  - by rewrite poll_steady.
Qed.

Lemma elapse_steady dt w : steady_view (elapse dt w) = steady_view w.
Proof.
  unfold elapse.
  transitivity (steady_view (run_timers (size (Page.timers (page w)))
                               (Page.clock (page w) + Z.max 0 dt) w));
    [done|apply run_timers_steady].
Qed.
End steady_facts.

Section idle_facts.
Implicit Types (w : World) (o : PollOutcome).

Lemma steady_isPolling w w' :
  steady_view w' = steady_view w → isPolling w' = isPolling w.
Proof. unfold steady_view, isPolling. congruence. Qed.

Lemma removeTypist_fetched key userId w :
  fetched (removeTypist key userId w) = fetched w.
Proof.
  pose proof (removeTypist_control key userId w) as Hc.
  unfold control in Hc. unfold fetched. congruence.
Qed.

Lemma addTypist_fetched key typist w :
  fetched (addTypist key typist w) = fetched w.
Proof.
  pose proof (addTypist_control key typist w) as Hc.
  unfold control in Hc. unfold fetched. congruence.
Qed.

Lemma poll_idle w : isPolling w = false → poll w = w.
Proof. unfold isPolling, poll. by intros ->. Qed.

Lemma poll_catch_handler error w : handler (poll_catch error w) = handler w.
Proof. unfold poll_catch, setTimeout. by repeat case_match. Qed.

Lemma deliver_loop_handler events w :
  isPolling (for_each deliver events w).1 = isPolling w
  ∧ eventQueueId (for_each deliver events w).1 = eventQueueId w
  ∧ fetched (for_each deliver events w).1 = fetched w.
Proof.
  destruct (deliver_any events w) as (n & _ & Hh & _ & Hf & _).
  unfold isPolling, eventQueueId, fetched. by rewrite Hh, Hf.
Qed.

Lemma poll_response_idle o w :
  isPolling w = false →
  isPolling (poll_response o w) = false ∧ fetched (poll_response o w) = fetched w.
Proof.
  intros Hidle.
  assert (∀ w' error, isPolling w' = false → fetched w' = fetched w →
            isPolling (poll_catch error w') = false
            ∧ fetched (poll_catch error w') = fetched w) as Hcatch.
  { intros w' error Hi Hf. split.
    - unfold isPolling. by rewrite poll_catch_handler.
    - by rewrite poll_catch_fetched. }
  destruct o as [error|status body]; simpl; [by apply Hcatch|].
  destruct (ok status); simpl.
  - destruct body as [| |events]; try by apply Hcatch.
    destruct (deliver_loop_handler (default [] events) w) as (Hp & _ & Hf).
    destruct (for_each deliver (default [] events) w) as [w' [|error]];
      simpl in *.
    + rewrite Hidle in Hp. unfold isPolling in Hp. by rewrite Hp.
    + apply Hcatch; [by rewrite Hp|done].
  - case_decide; [done|by apply Hcatch].
Qed.

Lemma run_timers_idle fuel t w :
  isPolling w = false → fetched (run_timers fuel t w) = fetched w.
Proof.
  revert w. induction fuel as [|fuel IH]; intros w Hidle; simpl; [done|].
  destruct (next_due t (Page.timers (page w))) as [[h [deadline cb]]|]; [|done].
  destruct cb as [key userId|]; simpl.
  - rewrite IH.
    + by rewrite removeTypist_fetched.
    + by rewrite (steady_isPolling _ _ (removeTypist_steady key userId _)).
  - rewrite poll_idle by done. by rewrite IH.
Qed.

Lemma cleanupEventHandler_idle w :
  isPolling (cleanupEventHandler w) = false
  ∧ polls (cleanupEventHandler w) = polls w.
Proof.
  unfold cleanupEventHandler, polls, fetched, fetch.
  repeat case_match; simpl; rewrite ?filter_app, ?app_nil_r; done.
Qed.

Lemma step_idle i w :
  same_queue i = true → isPolling w = false →
  isPolling (step i w) = false ∧ polls (step i w) = polls w.
Proof.
  intros Hi Hidle. unfold step. destruct (Page.reloaded (page w)); [done|].
  destruct i as [rid o|dt|q e| |key typist|key userId]; try done.
  - case_decide; [|done].
    destruct (poll_response_idle o (update_inflight (λ s, s ∖ {[rid]}) w))
      as [Hp Hf]; [done|].
    split; [done|]. unfold polls. by rewrite Hf.
  - split.
    + by rewrite (steady_isPolling _ _ (elapse_steady dt w)).
    + unfold polls, elapse.
      change (fetched (set_clock ?t ?w')) with (fetched w').
      by rewrite run_timers_idle.
  - destruct (cleanupEventHandler_idle w) as [Hp Hf]. by rewrite Hf.
  - split.
    + by rewrite (steady_isPolling _ _ (addTypist_steady key typist w)).
    + unfold polls. by rewrite addTypist_fetched.
  - split.
    + by rewrite (steady_isPolling _ _ (removeTypist_steady key userId w)).
    + unfold polls. by rewrite removeTypist_fetched.
Qed.

Lemma run_idle inputs w :
  forallb same_queue inputs = true → isPolling w = false →
  isPolling (run inputs w) = false ∧ polls (run inputs w) = polls w.
Proof.
  revert w. induction inputs as [|i inputs IH]; intros w Hall Hidle; simpl;
    [done|].
  simpl in Hall. apply andb_prop in Hall as [Hi Hall].
  destruct (step_idle i w Hi Hidle) as [Hp Hf].
  destruct (IH (step i w) Hall Hp) as [Hp' Hf']. by rewrite Hf', Hf.
Qed.
End idle_facts.

(** X13. Once [cleanupEventHandler] has run, the handler issues no further
    poll request, whatever answers arrive, timers fire or typing calls are
    made, until [initializeEventHandler] is called again; unless the page
    had been reloaded before, [isPolling] stays off. *)
Theorem cleanup_ends_polling (w : World) (inputs : list Input) :
  forallb same_queue inputs = true →
  polls (run inputs (step Cleanup w)) = polls w
  ∧ (Page.reloaded (page w) = false →
     isPolling (run inputs (step Cleanup w)) = false).
Proof.
  intros Hall. unfold step.
  destruct (Page.reloaded (page w)) eqn:Hr.
  - rewrite run_reloaded by done. done.
  - destruct (cleanupEventHandler_idle w) as [Hp Hf].
    destruct (run_idle inputs (cleanupEventHandler w) Hall Hp) as [Hp' Hf'].
    by rewrite Hf', Hf.
Qed.

Lemma cleanup_ends_polling_witness :
  forallb same_queue [Elapse 6000; AddTypist "5:a" (Typist.mk 7 "Ann" None)] = true
  ∧ polls (run [Elapse 6000; AddTypist "5:a" (Typist.mk 7 "Ann" None)]
             (step Cleanup backing_off_page))
    = polls backing_off_page
  ∧ (Page.reloaded (page backing_off_page) = false →
     isPolling (run [Elapse 6000; AddTypist "5:a" (Typist.mk 7 "Ann" None)]
                  (step Cleanup backing_off_page)) = false).
Proof.
  split; [reflexivity|].
  apply (cleanup_ends_polling backing_off_page
           [Elapse 6000; AddTypist "5:a" (Typist.mk 7 "Ann" None)]).
  reflexivity.
Defined.

Section acknowledged_facts.
Implicit Types (w : World) (o : PollOutcome).

Lemma max_id_cases (base : JsNumber) (events : list Ev.t) :
  match max_id base events with
  | Num y =>
      ∃ x, base = Num x ∧ x ≤ y
           ∧ Forall (λ event, ∃ id, Ev.id event = Some id ∧ id ≤ y) events
  | NaN => base = NaN ∨ Exists (λ event, Ev.id event = None) events
  end.
Proof.
  revert base. induction events as [|e events IH]; intros base; simpl.
  - destruct base as [x|]; [|by left]. exists x. split; [done|]. split; [lia|].
    constructor.
  - specialize (IH (Math_max base (Ev.id e))).
    destruct (max_id (Math_max base (Ev.id e)) events) as [y|].
    + destruct IH as (x' & Hbase & Hle & Hall).
      destruct base as [x|], (Ev.id e) as [id|] eqn:He; try done.
      simpl in Hbase. injection Hbase as <-.
      exists x. split; [done|]. split; [lia|].
      constructor; [|done]. exists id. split; [done|lia].
    + destruct IH as [Hbase|Hex].
      * destruct base as [x|]; [|by left]. right.
        destruct (Ev.id e) as [id|] eqn:He; [done|]. by apply Exists_cons_hd.
      * right. by apply Exists_cons_tl.
Qed.

Lemma acknowledged_same w w' :
  lastEventId w' = lastEventId w → dispatched w' = dispatched w →
  acknowledged w → acknowledged w'.
Proof. unfold acknowledged. by intros -> ->. Qed.

Lemma steady_acknowledged w w' :
  steady_view w' = steady_view w → acknowledged w → acknowledged w'.
Proof.
  intros Hv. apply acknowledged_same.
  - unfold steady_view in Hv. unfold lastEventId. congruence.
  - unfold steady_view in Hv. unfold dispatched. congruence.
Qed.

Lemma deliver_loop_acknowledged events w :
  acknowledged w → acknowledged (for_each deliver events w).1.
Proof.
  intros Hw. destruct (deliver_any events w) as (n & _ & Hh & Hd & _).
  unfold acknowledged, lastEventId, dispatched in *. rewrite Hh, Hd. simpl.
  pose proof (max_id_cases (Handler.lastEventId (handler w)) (take n events))
    as Hcases.
  destruct (max_id (Handler.lastEventId (handler w)) (take n events)) as [y|].
  - destruct Hcases as (x & Hbase & Hle & Hall). rewrite Hbase in Hw.
    apply Forall_app. split; [|done].
    eapply Forall_impl; [apply Hw|]. simpl. intros event (id & He & Hid).
    exists id. split; [done|lia].
  - apply Exists_app. destruct Hcases as [Hbase|Hex]; [|by right].
    left. by rewrite Hbase in Hw.
Qed.

Lemma poll_acknowledged w : acknowledged w → acknowledged (poll w).
Proof. apply acknowledged_same; [apply poll_lastEventId|apply poll_dispatched]. Qed.

Lemma poll_catch_acknowledged error w :
  acknowledged w → acknowledged (poll_catch error w).
Proof.
  apply acknowledged_same;
    [apply poll_catch_lastEventId|apply poll_catch_dispatched].
Qed.

Lemma poll_response_acknowledged o w :
  acknowledged w → acknowledged (poll_response o w).
Proof.
  intros Hw. destruct o as [error|status body]; simpl;
    [by apply poll_catch_acknowledged|].
  destruct (ok status); simpl.
  - destruct body as [| |events]; try by apply poll_catch_acknowledged.
    pose proof (deliver_loop_acknowledged (default [] events) w Hw) as Hw'.
    destruct (for_each deliver (default [] events) w) as [w' [|error]];
      simpl in Hw'.
    + case_match; [by apply poll_acknowledged|done].
    + by apply poll_catch_acknowledged.
  - case_decide; [done|by apply poll_catch_acknowledged].
Qed.

Lemma step_acknowledged i w :
  same_queue i = true → acknowledged w → acknowledged (step i w).
Proof.
  intros Hi Hw. unfold step. destruct (Page.reloaded (page w)); [done|].
  destruct i as [rid o|dt|q e| |key typist|key userId]; try done.
  - case_decide; [|done]. by apply poll_response_acknowledged.
  - eapply steady_acknowledged; [apply elapse_steady|done].
  - revert Hw. apply acknowledged_same.
    + unfold cleanupEventHandler, fetch. by repeat case_match.
    + unfold cleanupEventHandler, fetch. by repeat case_match.
  - eapply steady_acknowledged; [apply addTypist_steady|done].
  - eapply steady_acknowledged; [apply removeTypist_steady|done].
Qed.
End acknowledged_facts.

(** X14. As long as the handler is not registered anew: while
    [lastEventId] is a number, every event that was ever passed to
    [dispatchEvent] has an id, and none a larger one, whatever the batches
    were and wherever a batch was cut short; and [lastEventId] is [NaN]
    only when an event without id has been dispatched. *)
Theorem dispatched_events_acknowledged (w : World) (inputs : list Input) :
  acknowledged w →
  forallb same_queue inputs = true →
  acknowledged (run inputs w).
Proof.
  revert w. induction inputs as [|i inputs IH]; intros w Hw Hall; simpl;
    [done|].
  simpl in Hall. apply andb_prop in Hall as [Hi Hall].
  apply IH; [|done]. by apply step_acknowledged.
Qed.

Lemma dispatched_events_acknowledged_witness :
  acknowledged polling_page
  ∧ forallb same_queue
      [Respond 1 (batch_response [update_event 5 1 "x"; update_event 3 2 "y"]);
       Elapse 10] = true
  ∧ acknowledged
      (run [Respond 1 (batch_response [update_event 5 1 "x"; update_event 3 2 "y"]);
            Elapse 10] polling_page).
Proof.
  assert (acknowledged polling_page) as Hw by (vm_compute; constructor).
  split; [exact Hw|]. split; [reflexivity|].
  apply (dispatched_events_acknowledged polling_page
           [Respond 1 (batch_response [update_event 5 1 "x"; update_event 3 2 "y"]);
            Elapse 10]); [exact Hw|reflexivity].
Defined.

Section cast_facts.
Implicit Types (w : World) (o : PollOutcome) (cast : gmap Z CastMember.t).
Implicit Types (event : Ev.t).

Local Abbreviation presence w := (Stores.presence (stores w)).

Lemma same_cast_refl cast : same_cast cast cast.
Proof. intros userId. by destruct (cast !! userId) as [[]|]. Qed.

Lemma same_cast_trans cast1 cast2 cast3 :
  same_cast cast1 cast2 → same_cast cast2 cast3 → same_cast cast1 cast3.
Proof.
  intros H12 H23 userId. specialize (H12 userId). specialize (H23 userId).
  destruct (cast1 !! userId) as [m1|], (cast2 !! userId) as [m2|],
    (cast3 !! userId) as [m3|]; try done.
  rewrite H23, H12. by destruct m1.
Qed.

Lemma setPresence_same_cast userId status cast :
  same_cast cast (setPresence userId status cast).
Proof.
  unfold setPresence. destruct userId as [userId|]; [|apply same_cast_refl].
  destruct (cast !! userId) as [member|] eqn:Hm; [|apply same_cast_refl].
  intros userId'. destruct (decide (userId' = userId)) as [->|Hne].
  - by rewrite Hm, lookup_insert_eq.
  - rewrite lookup_insert_ne by done. apply same_cast_refl.
Qed.

Lemma steady_presence w w' :
  steady_view w' = steady_view w → presence w' = presence w.
Proof. unfold steady_view. congruence. Qed.

Lemma handleTypingEvent_steady event w :
  steady_view (handleTypingEvent event w).1 = steady_view w.
Proof.
  unfold handleTypingEvent. repeat case_match; simpl; try done.
  - apply addTypist_steady.
  - apply removeTypist_steady.
Qed.

Lemma for_each_same_cast {A} (body : A → World → World * Completion) xs w :
  (∀ x w, same_cast (presence w) (presence (body x w).1)) →
  same_cast (presence w) (presence (for_each body xs w).1).
Proof.
  intros Hbody. revert w. induction xs as [|x xs IH]; intros w; simpl;
    [apply same_cast_refl|].
  specialize (Hbody x w). destruct (body x w) as [w' [|e]]; simpl in *.
  - eapply same_cast_trans; [apply Hbody|apply IH].
  - done.
Qed.

Lemma handlePresenceEvent_same_cast event w :
  same_cast (presence w) (presence (handlePresenceEvent event w).1).
Proof.
  unfold handlePresenceEvent.
  destruct (Ev.presence event) as [entries|]; [|apply same_cast_refl].
  apply for_each_same_cast. intros [userIdStr [st|]] w'; simpl.
  - apply setPresence_same_cast.
  - apply same_cast_refl.
Qed.

Lemma dispatchEvent_same_cast event w :
  same_cast (presence w) (presence (dispatchEvent event w).1).
Proof.
  unfold dispatchEvent. repeat case_decide.
  - unfold handleMessageEvent. case_match; apply same_cast_refl.
  - unfold handleUpdateMessageEvent. case_match; apply same_cast_refl.
  - unfold handleDeleteMessageEvent. case_match; [|apply same_cast_refl].
    apply (for_each_same_cast _ _ (log_dispatch event w)).
    intros id w'. apply same_cast_refl.
  - rewrite (steady_presence _ _ (handleTypingEvent_steady event _)).
    apply same_cast_refl.
  - apply (handlePresenceEvent_same_cast event (log_dispatch event w)).
  - apply same_cast_refl.
Qed.

Lemma deliver_same_cast event w :
  same_cast (presence w) (presence (deliver event w).1).
Proof.
  apply (dispatchEvent_same_cast event
           (set_lastEventId
              (Math_max (Handler.lastEventId (handler w)) (Ev.id event)) w)).
Qed.

Lemma poll_presence w : presence (poll w) = presence w.
Proof. apply steady_presence, poll_steady. Qed.

Lemma poll_catch_presence error w : presence (poll_catch error w) = presence w.
Proof. unfold poll_catch, setTimeout. by repeat case_match. Qed.

Lemma poll_response_same_cast o w :
  same_cast (presence w) (presence (poll_response o w)).
Proof.
  destruct o as [error|status body]; simpl.
  { rewrite poll_catch_presence. apply same_cast_refl. }
  destruct (ok status); simpl.
  - destruct body as [| |events];
      try (rewrite poll_catch_presence; apply same_cast_refl).
    pose proof (for_each_same_cast deliver (default [] events) w) as Hloop.
    destruct (for_each deliver (default [] events) w) as [w' [|error]];
      simpl in Hloop.
    + assert (presence (if Handler.isPolling (handler w') then poll w' else w')
              = presence w') as -> by (case_match; [apply poll_presence|done]).
      apply Hloop, deliver_same_cast.
    + rewrite poll_catch_presence. apply Hloop, deliver_same_cast.
  - case_decide; [apply same_cast_refl|].
    rewrite poll_catch_presence. apply same_cast_refl.
Qed.

Lemma step_same_cast i w : same_cast (presence w) (presence (step i w)).
Proof.
  unfold step. destruct (Page.reloaded (page w)); [apply same_cast_refl|].
  destruct i as [rid o|dt|q e| |key typist|key userId].
  - case_decide; [|apply same_cast_refl].
    apply (poll_response_same_cast o (update_inflight (λ s, s ∖ {[rid]}) w)).
  - rewrite (steady_presence _ _ (elapse_steady dt w)). apply same_cast_refl.
  - assert (presence (initializeEventHandler q e w) = presence w) as ->.
    { unfold initializeEventHandler, startPolling. repeat case_match; try done.
      by rewrite poll_presence. }
    apply same_cast_refl.
  - assert (presence (cleanupEventHandler w) = presence w) as ->.
    { unfold cleanupEventHandler, fetch. by repeat case_match. }
    apply same_cast_refl.
  - rewrite (steady_presence _ _ (addTypist_steady key typist w)).
    apply same_cast_refl.
  - rewrite (steady_presence _ _ (removeTypist_steady key userId w)).
    apply same_cast_refl.
Qed.
End cast_facts.

(** X15. The event loop never adds a cast member and never removes one:
    whatever arrives, the presence store holds the same user ids as before,
    and each member differs from what it was in nothing but its status. *)
Theorem events_change_only_status (inputs : list Input) (w : World) :
  same_cast (Stores.presence (stores w)) (Stores.presence (stores (run inputs w))).
Proof.
  revert w. induction inputs as [|i inputs IH]; intros w; simpl.
  - apply same_cast_refl.
  - eapply same_cast_trans; [apply step_same_cast|apply IH].
Qed.

Section one_poll_facts.
Implicit Types (w : World) (o : PollOutcome) (event : Ev.t).

(** Closes a goal that assumes polling off where the code has just read
    [isPolling] as true. *)
Local Ltac polling_is_on :=
  match goal with
  | Hoff : isPolling _ = false |- _ =>
      unfold isPolling in Hoff; simpl in Hoff; congruence
  end.

Lemma one_poll_of_quiet w : quiet w → one_poll w.
Proof.
  intros [Hi Hn]. repeat split.
  - intros r1 r2 H1. rewrite Hi in H1. by apply elem_of_empty in H1.
  - intros h1 h2 d1 d2 H1. by destruct (Hn h1 d1).
  - intros r h d _. apply Hn.
  - done.
  - apply Hn.
Qed.

Lemma one_poll_shrink w w' :
  Page.inflight (page w') = Page.inflight (page w) →
  isPolling w' = isPolling w →
  no_new_retry w w' →
  one_poll w → one_poll w'.
Proof.
  intros Hi Hp Ht (H1 & H2 & H3 & H4). repeat split.
  - rewrite Hi. apply H1.
  - intros h1 h2 d1 d2 Hl1 Hl2. eapply H2; by apply Ht.
  - rewrite Hi. intros r h d Hr Hl. by apply (H3 r h d Hr), Ht.
  - rewrite Hi. apply H4. by rewrite <- Hp.
  - intros h d Hl. rewrite Hp in H. destruct (H4 H) as [_ Hn].
    by apply (Hn h d), Ht.
Qed.

Lemma no_new_retry_refl w : no_new_retry w w.
Proof. by intros h d. Qed.

Lemma no_new_retry_trans w1 w2 w3 :
  no_new_retry w1 w2 → no_new_retry w2 w3 → no_new_retry w1 w3.
Proof. intros H12 H23 h d Hl. by apply H12, H23. Qed.

Lemma no_new_retry_view w w' :
  typing_view w' = typing_view w → no_new_retry w w'.
Proof.
  intros Hv h d.
  assert (Page.timers (page w') = Page.timers (page w)) as ->
    by (unfold typing_view in Hv; congruence).
  done.
Qed.

Lemma no_new_retry_remove key userId w :
  no_new_retry w (removeTypist key userId w).
Proof.
  intros h d. destruct (removeTypist_spec key userId w) as (-> & _).
  case_match; [|done]. by intros [_ ?]%lookup_delete_Some.
Qed.

Lemma no_new_retry_add key typist w :
  no_new_retry w (addTypist key typist w).
Proof.
  intros h d. destruct (addTypist_spec key typist w) as (-> & _).
  intros [[_ [=]]|[_ Hl]]%lookup_insert_Some.
  revert Hl. case_match; [|done]. by intros [_ ?]%lookup_delete_Some.
Qed.

Lemma removeTypist_inflight key userId w :
  Page.inflight (page (removeTypist key userId w)) = Page.inflight (page w).
Proof.
  pose proof (removeTypist_control key userId w) as Hc.
  unfold control in Hc. congruence.
Qed.

Lemma addTypist_inflight key typist w :
  Page.inflight (page (addTypist key typist w)) = Page.inflight (page w).
Proof.
  pose proof (addTypist_control key typist w) as Hc.
  unfold control in Hc. congruence.
Qed.

Lemma deliver_loop_quiet events w :
  quiet w → quiet (for_each deliver events w).1.
Proof.
  intros [Hi Hn]. split.
  - destruct (deliver_any events w) as (n & _ & _ & _ & _ & _ & -> & _). done.
  - assert (no_new_retry w (for_each deliver events w).1) as Hle.
    { apply (deliver_kept (no_new_retry w) (λ _ _, True)).
      - intros w1 w2 Hv Hw1.
        eapply no_new_retry_trans; [apply Hw1|by apply no_new_retry_view].
      - intros key typist w1 _ Hw1.
        eapply no_new_retry_trans; [apply Hw1|apply no_new_retry_add].
      - intros key userId w1 _ Hw1.
        eapply no_new_retry_trans; [apply Hw1|apply no_new_retry_remove].
      - apply Forall_forall. by intros event _ sender _ _ _.
      - apply no_new_retry_refl. }
    intros h d Hl. by apply (Hn h d), Hle.
Qed.

Lemma quiet_poll w : quiet w → one_poll (poll w).
Proof.
  intros [Hi Hn]. unfold poll.
  destruct (Handler.isPolling (handler w)) eqn:Hp; simpl;
    [|by apply one_poll_of_quiet].
  destruct (queue_id w) as [q|]; [|by apply one_poll_of_quiet].
  repeat split; simpl.
  - rewrite Hi, (right_id_L ∅ (∪)).
    by intros r1 r2 ->%elem_of_singleton ->%elem_of_singleton.
  - intros h1 h2 d1 d2 H1. by destruct (Hn h1 d1).
  - intros r h d _. apply Hn.
  - polling_is_on.
  - apply Hn.
Qed.

Lemma quiet_catch error w : quiet w → one_poll (poll_catch error w).
Proof.
  intros [Hi Hn]. unfold poll_catch.
  case_decide; [by apply one_poll_of_quiet|]. simpl.
  destruct (Handler.isPolling (handler w)) eqn:Hp; [|by apply one_poll_of_quiet].
  repeat split; simpl.
  - intros r1 r2 H1. rewrite Hi in H1. by apply elem_of_empty in H1.
  - intros h1 h2 d1 d2 [[<- _]|[_ H1]]%lookup_insert_Some
      [[<- _]|[_ H2]]%lookup_insert_Some; try done.
    + by destruct (Hn h2 d2).
    + by destruct (Hn h1 d1).
    + by destruct (Hn h1 d1).
  - intros r h d Hr. rewrite Hi in Hr. by apply elem_of_empty in Hr.
  - polling_is_on.
  - polling_is_on.
Qed.

Lemma poll_response_quiet o w : quiet w → one_poll (poll_response o w).
Proof.
  intros Hq. destruct o as [error|status body]; simpl;
    [by apply quiet_catch|].
  destruct (ok status); simpl.
  - destruct body as [| |events]; try by apply quiet_catch.
    pose proof (deliver_loop_quiet (default [] events) w Hq) as Hq'.
    destruct (for_each deliver (default [] events) w) as [w' [|error]];
      simpl in Hq'.
    + case_match; [by apply quiet_poll|by apply one_poll_of_quiet].
    + by apply quiet_catch.
  - case_decide; [by apply one_poll_of_quiet|by apply quiet_catch].
Qed.

Lemma answered_quiet rid w :
  one_poll w → rid ∈ Page.inflight (page w) →
  quiet (update_inflight (λ s, s ∖ {[rid]}) w).
Proof.
  intros (H1 & _ & H3 & _) Hr. split; simpl.
  - apply set_eq. intros r. rewrite elem_of_difference, elem_of_singleton.
    split; [|by intros ?%elem_of_empty].
    intros [Hin Hne]. destruct Hne. by apply H1.
  - intros h d. by apply (H3 rid).
Qed.

Lemma fire_one_poll w h d cb :
  one_poll w → Page.timers (page w) !! h = Some (d, cb) →
  one_poll (run_callback cb
              (update_timers (delete h)
                 (set_clock (Z.max (Page.clock (page w)) d) w))).
Proof.
  intros Hw Hl. destruct cb as [key userId|]; simpl.
  - eapply one_poll_shrink; [..|apply Hw].
    + by rewrite removeTypist_inflight.
    + by rewrite (steady_isPolling _ _ (removeTypist_steady key userId _)).
    + intros h' d' Hl'%no_new_retry_remove. simpl in Hl'.
      by apply lookup_delete_Some in Hl' as [_ ?].
  - apply quiet_poll. destruct Hw as (_ & H2 & H3 & _). split; simpl.
    + apply set_eq. intros r. split; [|by intros ?%elem_of_empty].
      intros Hr. by destruct (H3 r h d Hr).
    + intros h' d' [Hne Hl']%lookup_delete_Some.
      destruct Hne. by apply (H2 h h' d d').
Qed.

Lemma run_timers_one_poll fuel t w :
  one_poll w → one_poll (run_timers fuel t w).
Proof.
  revert w. induction fuel as [|fuel IH]; intros w Hw; simpl; [done|].
  destruct (next_due t (Page.timers (page w))) as [[h [d cb]]|] eqn:Hdue;
    [|done].
  apply next_due_Some in Hdue as [Hl _].
  by apply IH, fire_one_poll.
Qed.

Lemma step_one_poll i w :
  no_cleanup i = true → one_poll w → one_poll (step i w).
Proof.
  intros Hi Hw. unfold step. destruct (Page.reloaded (page w)); [done|].
  destruct i as [rid o|dt|q e| |key typist|key userId]; try done.
  - case_decide; [|done]. by apply poll_response_quiet, answered_quiet.
  - unfold elapse.
    pose proof (run_timers_one_poll (size (Page.timers (page w)))
                  (Page.clock (page w) + Z.max 0 dt) w Hw) as Hw'.
    revert Hw'. apply one_poll_shrink; try done. by intros h d.
  - unfold initializeEventHandler, startPolling.
    set (w1 := set_lastEventId (Num e) (set_eventQueueId (Some q) w)).
    assert (one_poll w1) as Hw1.
    { revert Hw. apply one_poll_shrink; try done. by intros h d. }
    destruct (queue_id w1); [|done].
    destruct (Handler.isPolling (handler w1)) eqn:Hp; [done|].
    apply quiet_poll. destruct Hw1 as (_ & _ & _ & H4).
    destruct (H4 Hp) as [Hi1 Hn1]. by split.
  - eapply one_poll_shrink; [..|apply Hw].
    + apply addTypist_inflight.
    + apply steady_isPolling, addTypist_steady.
    + apply no_new_retry_add.
  - eapply one_poll_shrink; [..|apply Hw].
    + apply removeTypist_inflight.
    + apply steady_isPolling, removeTypist_steady.
    + apply no_new_retry_remove.
Qed.
End one_poll_facts.

(** X16. From the page as loaded, and as long as [cleanupEventHandler] is
    not called, at most one poll is pending at any time: one request
    awaited or one retry scheduled, never both and never two of a kind;
    and none at all while polling is off. *)
Theorem polls_never_overlap (users : gmap Z UserInfo.t) (inputs : list Input) :
  forallb no_cleanup inputs = true →
  one_poll (run inputs (initial users)).
Proof.
  assert (one_poll (initial users)) as Hw.
  { apply one_poll_of_quiet. split; [done|]. intros h d. simpl.
    by rewrite lookup_empty. }
  revert Hw. generalize (initial users).
  induction inputs as [|i inputs IH]; intros w Hw Hall; simpl; [done|].
  simpl in Hall. apply andb_prop in Hall as [Hi Hall].
  apply IH; [|done]. by apply step_one_poll.
Qed.

Lemma polls_never_overlap_witness :
  forallb no_cleanup
    [Initialize "queue-1" 0;
     Respond 1 (Rejected (JsError.mk "TypeError" "Failed to fetch"));
     Initialize "queue-1" 0; Elapse 5000] = true
  ∧ one_poll
      (run [Initialize "queue-1" 0;
            Respond 1 (Rejected (JsError.mk "TypeError" "Failed to fetch"));
            Initialize "queue-1" 0; Elapse 5000] (initial ∅)).
Proof.
  split; [reflexivity|].
  apply (polls_never_overlap ∅
           [Initialize "queue-1" 0;
            Respond 1 (Rejected (JsError.mk "TypeError" "Failed to fetch"));
            Initialize "queue-1" 0; Elapse 5000]).
  reflexivity.
Defined.

Section retry_facts.
Implicit Types (w : World) (o : PollOutcome).

Lemma poll_fetched q w :
  isPolling w = true → queue_id w = Some q →
  fetched (poll w) = fetched w ++ [GetEvents q (lastEventId w)].
Proof. unfold poll, isPolling. by intros -> ->. Qed.

Lemma steady_queue_id w w' :
  steady_view w' = steady_view w →
  queue_id w' = queue_id w ∧ lastEventId w' = lastEventId w.
Proof.
  unfold steady_view, queue_id, lastEventId. intros Hv.
  assert (Handler.eventQueueId (handler w') = Handler.eventQueueId (handler w))
    as -> by congruence.
  split; [done|congruence].
Qed.

(** With no retry scheduled, the timers that run issue no request. *)
Lemma run_timers_no_retry fuel t w :
  (∀ h d, Page.timers (page w) !! h ≠ Some (d, CbPoll)) →
  fetched (run_timers fuel t w) = fetched w.
Proof.
  revert w. induction fuel as [|fuel IH]; intros w Hn; simpl; [done|].
  destruct (next_due t (Page.timers (page w))) as [[h [d cb]]|] eqn:Hdue;
    [|done].
  apply next_due_Some in Hdue as [Hl _].
  destruct cb as [key userId|]; [|by destruct (Hn h d)]. simpl.
  rewrite IH; [by rewrite removeTypist_fetched|].
  intros h' d' Hl'%no_new_retry_remove. simpl in Hl'.
  apply lookup_delete_Some in Hl' as [_ Hl']. by destruct (Hn h' d').
Qed.

(** The one scheduled retry runs when its deadline has come, and issues
    the one request. *)
Lemma run_timers_retry q retry deadline fuel t w :
  typing_ok w →
  (size (Page.timers (page w)) ≤ fuel)%nat →
  Page.timers (page w) !! retry = Some (deadline, CbPoll) →
  (∀ h d, Page.timers (page w) !! h = Some (d, CbPoll) → h = retry) →
  isPolling w = true →
  queue_id w = Some q →
  fetched (run_timers fuel t w)
  = if decide (deadline ≤ t)
    then fetched w ++ [GetEvents q (lastEventId w)]
    else fetched w.
Proof.
  revert w. induction fuel as [|fuel IH]; intros w Hok Hsize Hr Huniq Hp Hq.
  { assert (Page.timers (page w) = ∅) as Hempty
      by (apply map_size_empty_inv; lia).
    rewrite Hempty in Hr. by rewrite lookup_empty in Hr. }
  simpl. destruct (next_due t (Page.timers (page w))) as [[h [d cb]]|] eqn:Hdue.
  - apply next_due_Some in Hdue as [Hl Hd].
    destruct (fire_spec w h d cb Hok Hl) as (Hok1 & HT & _).
    destruct cb as [key userId|].
    + assert (h ≠ retry) as Hne by (intros ->; congruence).
      cbn [run_callback] in *.
      set (w0 := update_timers (delete h)
                   (set_clock (Z.max (Page.clock (page w)) d) w)) in *.
      destruct (steady_queue_id w0 (removeTypist key userId w0)
                  (removeTypist_steady key userId w0)) as [Hq1 Hl1].
      rewrite (IH (removeTypist key userId w0)); try done.
      * rewrite removeTypist_fetched, Hl1. done.
      * rewrite HT. pose proof (map_size_delete_Some h (Page.timers (page w)))
          as Hs. rewrite Hs by eauto. lia.
      * rewrite HT. by rewrite lookup_delete_ne.
      * intros h' d'. rewrite HT. intros [_ Hl']%lookup_delete_Some.
        by apply (Huniq h' d').
      * by rewrite (steady_isPolling _ _ (removeTypist_steady key userId w0)).
      * by rewrite Hq1.
    + assert (h = retry) as -> by (by apply (Huniq h d)).
      assert (d = deadline) as -> by congruence.
      rewrite decide_True by done. cbn [run_callback] in *.
      rewrite run_timers_no_retry.
      * by rewrite (poll_fetched q).
      * intros h' d'. rewrite HT. intros [Hne Hl']%lookup_delete_Some.
        destruct Hne. symmetry. by apply (Huniq h' d').
  - pose proof (next_due_None _ _ _ _ _ Hdue Hr). by rewrite decide_False by lia.
Qed.

Lemma poll_catch_retry error w :
  JsError.name error ≠ "AbortError" → isPolling w = true →
  poll_catch error w
  = (setTimeout CbPoll 5000
       (console_error ("Event poll error: " +:+ JsError.message error) w)).2.
Proof.
  intros Hname Hp. unfold poll_catch. rewrite decide_False by done.
  unfold isPolling in Hp. simpl. by rewrite Hp.
Qed.
End retry_facts.

(** X17. When the awaited poll request fails with anything but an abort,
    the handler waits: for less than 5000 ms it issues no request, and
    once 5000 ms have passed it has issued exactly one, a poll of the same
    queue with the same [last_event_id]. *)
Theorem failed_poll_retried_after_5_seconds
    (users : gmap Z UserInfo.t) (inputs : list Input)
    (rid : positive) (error : JsError.t) (q : string) (dt : Z) :
  forallb no_cleanup inputs = true →
  Page.reloaded (page (run inputs (initial users))) = false →
  rid ∈ Page.inflight (page (run inputs (initial users))) →
  queue_id (run inputs (initial users)) = Some q →
  JsError.name error ≠ "AbortError" →
  fetched (run [Respond rid (Rejected error); Elapse dt]
             (run inputs (initial users)))
  = if decide (5000 ≤ dt)
    then fetched (run inputs (initial users))
         ++ [GetEvents q (lastEventId (run inputs (initial users)))]
    else fetched (run inputs (initial users)).
Proof.
  intros Hall Hr Hin Hq Hname.
  assert (one_poll (run inputs (initial users))) as Hone.
  { assert (one_poll (initial users)) as Hw.
    { apply one_poll_of_quiet. split; [done|]. intros h d. simpl.
      by rewrite lookup_empty. }
    revert Hw Hall. generalize (initial users). clear.
    induction inputs as [|i inputs IH]; intros w Hw Hall; simpl; [done|].
    simpl in Hall. apply andb_prop in Hall as [Hi Hall].
    apply IH; [|done]. by apply step_one_poll. }
  pose proof (typing_ok_run inputs _ (typing_ok_initial users)) as Hok.
  revert Hr Hin Hq Hone Hok. generalize (run inputs (initial users)).
  intros w Hr Hin Hq Hone Hok.
  assert (isPolling w = true) as Hp.
  { destruct (isPolling w) eqn:Hp; [done|].
    destruct Hone as (_ & _ & _ & H4). destruct (H4 Hp) as [Hi _].
    rewrite Hi in Hin. by apply elem_of_empty in Hin. }
  simpl. unfold step at 2. rewrite Hr. rewrite decide_True by done.
  simpl. rewrite poll_catch_retry by done.
  set (w1 := (setTimeout CbPoll 5000 _).2).
  assert (Page.reloaded (page w1) = false) as Hr1 by done.
  unfold step. rewrite Hr1. unfold elapse.
  change (fetched (set_clock ?t ?w')) with (fetched w').
  rewrite (run_timers_retry q (Page.next_timer (page w))
             (Page.clock (page w) + 5000)); try done.
  - change (Page.clock (page w1)) with (Page.clock (page w)).
    destruct (decide (5000 ≤ dt)).
    + by rewrite decide_True by lia.
    + by rewrite decide_False by lia.
  - apply retry_ok. by apply (typing_ok_view w).
  - simpl. apply lookup_insert_eq.
  - simpl. intros h d [[-> _]|[_ Hl]]%lookup_insert_Some; [done|].
    destruct Hone as (_ & _ & H3 & _). by destruct (H3 rid h d Hin).
Qed.

Lemma failed_poll_retried_after_5_seconds_witness :
  fetched (run [Respond 1 (Rejected (JsError.mk "TypeError" "Failed to fetch"));
                Elapse 5000]
             (run [Initialize "queue-1" 7] (initial ∅)))
  = [GetEvents "queue-1" (Num 7); GetEvents "queue-1" (Num 7)].
Proof.
  rewrite (failed_poll_retried_after_5_seconds ∅ [Initialize "queue-1" 7] 1
             (JsError.mk "TypeError" "Failed to fetch") "queue-1" 5000).
  - reflexivity.
  - reflexivity.
  - reflexivity.
  - apply (bool_decide_unpack _). vm_compute. reflexivity.
  - reflexivity.
  - simpl. discriminate.
Defined.

(** ** Presence events *)

Section parse_facts.

Lemma digit_of_char (r : N) :
  (r < 10)%N → digit_of (pretty_N_char r) = Some (Z.of_N r).
Proof.
  intros Hr.
  assert (r = 0 ∨ r = 1 ∨ r = 2 ∨ r = 3 ∨ r = 4 ∨ r = 5 ∨ r = 6 ∨ r = 7
          ∨ r = 8 ∨ r = 9)%N as Hc by lia.
  destruct Hc as [->|[->|[->|[->|[->|[->|[->|[->|[->| ->]]]]]]]]];
    by vm_compute.
Qed.

Lemma parse_digits_cons acc c s d :
  digit_of c = Some d →
  parse_digits acc (String c s) = parse_digits (Some (10 * default 0 acc + d)) s.
Proof. intros Hd. simpl. by rewrite Hd. Qed.

Lemma parse_digits_go (x : N) (s : string) :
  (0 < x)%N →
  parse_digits None (pretty_N_go x s) = parse_digits (Some (Z.of_N x)) s.
Proof.
  revert s. induction (N.lt_wf_0 x) as [x _ IH]; intros s Hx.
  rewrite pretty_N_go_step by done.
  assert (x `mod` 10 < 10)%N as Hr by (by apply N.mod_lt).
  pose proof (N.div_mod x 10) as Hdm.
  destruct (decide (x `div` 10 = 0)%N) as [Hz|Hz].
  - rewrite Hz, pretty_N_go_0.
    rewrite (parse_digits_cons _ _ _ _ (digit_of_char _ Hr)). simpl.
    do 2 f_equal. lia.
  - rewrite IH; [|by apply N.div_lt|lia].
    rewrite (parse_digits_cons _ _ _ _ (digit_of_char _ Hr)). simpl.
    do 2 f_equal. lia.
Qed.

Lemma pretty_N_go_head (x : N) (s : string) :
  (0 < x)%N →
  ∃ r rest, (r < 10)%N ∧ pretty_N_go x s = String (pretty_N_char r) rest.
Proof.
  revert s. induction (N.lt_wf_0 x) as [x _ IH]; intros s Hx.
  rewrite pretty_N_go_step by done.
  destruct (decide (x `div` 10 = 0)%N) as [Hz|Hz].
  - rewrite Hz, pretty_N_go_0. exists (x `mod` 10)%N, s.
    split; [by apply N.mod_lt|done].
  - apply IH; [by apply N.div_lt|by apply N.neq_0_lt_0].
Qed.

Lemma parseInt_digit (r : N) (rest : string) :
  (r < 10)%N →
  parseInt (String (pretty_N_char r) rest)
  = parse_digits None (String (pretty_N_char r) rest) ≫= round_to_double.
Proof.
  intros Hr.
  assert (r = 0 ∨ r = 1 ∨ r = 2 ∨ r = 3 ∨ r = 4 ∨ r = 5 ∨ r = 6 ∨ r = 7
          ∨ r = 8 ∨ r = 9)%N as Hc by lia.
  destruct Hc as [->|[->|[->|[->|[->|[->|[->|[->|[->| ->]]]]]]]]];
    reflexivity.
Qed.

Lemma parseInt_minus (s : string) :
  parseInt (String "-" s)
  = parse_digits None s ≫= λ n, round_to_double (- n).
Proof. reflexivity. Qed.

(** A safe integer is its own Number value. *)
Lemma round_to_double_safe (n : Z) :
  safe_integer n = true → round_to_double n = Some n.
Proof.
  intros Hn%bool_decide_eq_true. unfold round_to_double.
  rewrite decide_True; [done|].
  destruct (decide (Z.abs n = 0)) as [->|Hne]; [done|].
  assert (Z.log2 (Z.abs n) < 53); [|lia].
  apply Z.log2_lt_pow2; lia.
Qed.

(** [Number.parseInt(String(n), 10)] is [n] for a safe integer [n]. *)
Lemma parseInt_pretty (z : Z) :
  safe_integer z = true → parseInt (pretty z) = Some z.
Proof.
  intros Hz. destruct z as [|p|p].
  - reflexivity.
  - change (pretty (Z.pos p)) with (pretty_N (N.pos p)). unfold pretty_N.
    rewrite decide_False by done.
    destruct (pretty_N_go_head (N.pos p) "") as (r & rest & Hr & Heq); [lia|].
    rewrite Heq, parseInt_digit by done. rewrite <- Heq.
    rewrite parse_digits_go by lia. simpl.
    by apply (round_to_double_safe (Z.pos p)).
  - change (pretty (Z.neg p)) with (String "-" (pretty_N (N.pos p))).
    unfold pretty_N. rewrite decide_False by done.
    rewrite parseInt_minus, parse_digits_go by lia. simpl.
    by apply (round_to_double_safe (Z.neg p)).
Qed.

Lemma presence_loop (entries : list (Z * option string)) (w : World) :
  forallb (λ entry, safe_integer entry.1) entries = true →
  (for_each
     (λ '(userIdStr, data) w,
        match data with
        | None =>
            (w, Throw (TypeError
              "Cannot read properties of null (reading 'status')"))
        | Some st =>
            let userId := parseInt userIdStr in
            let status := status_or_offline st in
            (update_presence (setPresence userId status) w, Normal)
        end)
     (presence_entries entries) w).2 = Normal
  ∧ Stores.presence
      (stores
         (for_each
            (λ '(userIdStr, data) w,
               match data with
               | None =>
                   (w, Throw (TypeError
                     "Cannot read properties of null (reading 'status')"))
               | Some st =>
                   let userId := parseInt userIdStr in
                   let status := status_or_offline st in
                   (update_presence (setPresence userId status) w, Normal)
               end)
            (presence_entries entries) w).1)
    = set_statuses entries (Stores.presence (stores w)).
Proof.
  revert w. induction entries as [|[userId status] entries IH]; intros w Hsafe;
    [done|].
  simpl in Hsafe. apply andb_prop in Hsafe as [Hid Hsafe].
  simpl. rewrite parseInt_pretty by done.
  apply (IH (update_presence
               (setPresence (Some userId) (status_or_offline status)) w) Hsafe).
Qed.
End parse_facts.

(** X18. A presence event whose body maps [String(userId)] to a status
    object, for any number of users whose ids are safe integers, is
    handled to the end and does to the presence store what
    [setPresence(userId, status || "offline")] does for each entry in turn:
    such user ids survive the trip through the object keys and
    [Number.parseInt]. *)
Theorem presence_event_sets_statuses
    (id : Z) (entries : list (Z * option string)) (w : World) :
  forallb (λ entry, safe_integer entry.1) entries = true →
  (dispatchEvent (presence_event id (presence_entries entries)) w).2 = Normal
  ∧ Stores.presence
      (stores (dispatchEvent (presence_event id (presence_entries entries)) w).1)
    = set_statuses entries (Stores.presence (stores w)).
Proof.
  apply (presence_loop entries
           (log_dispatch (presence_event id (presence_entries entries)) w)).
Qed.

Lemma presence_event_sets_statuses_witness :
  CastMember.status
  <$> Stores.presence
        (stores (dispatchEvent
                   (presence_event 1 (presence_entries [(7, Some "idle");
                                                        (8, Some "active")]))
                   (with_member (example_member 7 "Ann" "active"))).1)
      !! 7
  = Some "idle".
Proof.
  destruct (presence_event_sets_statuses 1 [(7, Some "idle"); (8, Some "active")]
              (with_member (example_member 7 "Ann" "active")) eq_refl)
    as [_ ->].
  vm_compute. reflexivity.
Defined.

(** ** The users store and the whisper label *)

Section users_facts.
Implicit Types (userList : list UserInfo.t) (userId : Z).

Lemma users_initialize_snoc userList u :
  users_initialize (userList ++ [u])
  = <[UserInfo.user_id u := u]> (users_initialize userList).
Proof. unfold users_initialize. by rewrite foldl_app. Qed.

Lemma users_initialize_last userList userId :
  users_initialize userList !! userId
  = last (filter (λ u, UserInfo.user_id u = userId) userList).
Proof.
  induction userList as [|u userList IH] using rev_ind; [done|].
  rewrite users_initialize_snoc, filter_app, filter_cons, filter_nil.
  destruct (decide (UserInfo.user_id u = userId)) as [<-|Hne].
  - by rewrite lookup_insert_eq, last_snoc.
  - by rewrite lookup_insert_ne, app_nil_r.
Qed.
End users_facts.

(** X19. After [users.initialize(userList)], [getUser(id)] is the last
    entry of the list with that id, the earlier ones being overwritten, and
    [getUserName(id)] is that entry's name, or [User #id] when the list has
    no entry of the id. *)
Theorem users_initialize_last_wins (userList : list UserInfo.t) (userId : Z) :
  getUser (users_initialize userList) userId
  = last (filter (λ u, UserInfo.user_id u = userId) userList)
  ∧ getUserName (users_initialize userList) userId
    = match last (filter (λ u, UserInfo.user_id u = userId) userList) with
      | Some user => UserInfo.full_name user
      | None => "User #" +:+ pretty userId
      end.
Proof.
  unfold getUser, getUserName. by rewrite users_initialize_last.
Qed.

(** X20. The whisper label is the bare word [whisper] exactly when the
    recipients name nobody: they are [null] or [undefined], or both id
    lists are missing or empty.  Otherwise it starts with [to ]. *)
Theorem whisper_label_names_recipients
    (users : gmap Z UserInfo.t) (recipients : Nullish Whisper.t) :
  if names_someone recipients
  then ∃ rest, formatWhisperRecipientsWithNames users recipients = "to " +:+ rest
  else formatWhisperRecipientsWithNames users recipients = "whisper".
Proof.
  destruct recipients as [| |[[[|u us]|] [[|g gs]|]]]; simpl; try done;
    repeat case_decide; simpl in *; try lia; by eexists.
Qed.
